(** * Time-capsule module: threshold key custody and capsule state machine

    A shallow embedding of [x/timecapsule]: the Shamir secret sharing of
    [crypto/shamir.go], the capsule predicates of [types/capsule.go], and the
    keeper and message server ([keeper.go], [msg_server.go]).

    Conventions.
    - [*big.Int] values are [Z]; [big.Int.Mod] is the Euclidean modulus.
    - [[]byte] is [list byte]; [SetBytes]/[Bytes] are big-endian.
    - [time.Time] is an instant, a [Z] (nanoseconds since the epoch);
      [*time.Time] is [option Z].
    - [uint64]/[uint32] fields are [N].
    - the entropy source [crypto/rand.Reader] is an explicit tape;
      the wall clock [time.Now()] is an explicit input. *)

From Stdlib Require Import ZArith Znumtheory Zcong Lia List String Ascii Zmod Field.

From Stdlib.Strings Require Import Byte.

From stdpp Require Import gmap strings list fin_maps sorting pretty.

Local Open Scope Z_scope.

(** * Part I: the embedding *)

(** ** Byte strings and big integers *)

Definition byte_of_Z (z : Z) : byte :=
  match Byte.of_N (Z.to_N (z mod 256)) with
  | Some b => b
  | None => x00
  end.

Definition Z_of_byte (b : byte) : Z := Z.of_N (Byte.to_N b).

(** [new(big.Int).SetBytes(buf)]: [buf] read as a big-endian unsigned
    integer. *)
Definition SetBytes (buf : list byte) : Z :=
  fold_left (fun acc b => acc * 256 + Z_of_byte b) buf 0.

Fixpoint Bytes_loop (fuel : nat) (z : Z) (acc : list byte) : list byte :=
  match fuel with
  | O => acc
  | S fuel' =>
      if z =? 0 then acc
      else Bytes_loop fuel' (z / 256) (byte_of_Z z :: acc)
  end.

(** [z.Bytes()]: the absolute value of [z] as a big-endian byte slice of
    minimal length (empty for zero). *)
Definition Bytes (z : Z) : list byte :=
  Bytes_loop (Z.to_nat (Z.log2 (Z.abs z)) + 1) (Z.abs z) [].

(** [z.Mod(x, m)]: Euclidean modulus, the result is never negative. *)
Definition big_Mod (x m : Z) : Z := x mod (Z.abs m).

(** [z.ModInverse(g, n)]: [nil] when [g] and [n] are not relatively prime. *)
Definition ModInverse (g n : Z) : option Z :=
  if Z.gcd g n =? 1 then Some (Z.invmod g (Z.abs n)) else None.

(** ** The entropy source *)

(** [crypto/rand.Reader] as a tape of raw draws; an exhausted tape is a
    read error. *)
Definition Reader := list Z.

(** [rand.Int(rand.Reader, max)]: a value in [[0, max)]. *)
Definition rand_Int (r : Reader) (max : Z) : option (Z * Reader) :=
  match r with
  | [] => None
  | z :: r' => Some (z mod max, r')
  end.

(** [rand.Read(buf)] for a buffer of [n] bytes. *)
Fixpoint rand_Read (r : Reader) (n : nat) : option (list byte * Reader) :=
  match n with
  | O => Some ([], r)
  | S n' =>
      match r with
      | [] => None
      | z :: r' =>
          match rand_Read r' n' with
          | Some (bs, r'') => Some (byte_of_Z z :: bs, r'')
          | None => None
          end
      end
  end.

(** ** Shamir secret sharing ([crypto/shamir.go]) *)

Module Shamir.

Record ShamirSecretSharing := { prime : Z }.

Definition NewShamirSecretSharing : ShamirSecretSharing :=
  {| prime :=
       115792089237316195423570985008687907853269984665640564039457584007913129639747 |}.

Record Share := { X : Z; Y : Z }.

Inductive Error :=
| ErrThresholdTooLarge
| ErrThresholdZero
| ErrTotalSharesZero
| ErrSecretTooLarge
| ErrCoefficient
| ErrNoShares
| ErrDuplicateX (x : Z)
| ErrNoModInverse.

Inductive Result (A : Type) :=
| Ok (a : A)
| Fail (e : Error).

Arguments Ok {A} a.

Arguments Fail {A} e.

Section WithField.

Variable sss : ShamirSecretSharing.

Fixpoint evaluatePolynomial_loop (coefficients : list Z) (x result xPower : Z) : Z :=
  match coefficients with
  | [] => result
  | coeff :: rest =>
      let term := coeff * xPower in
      let result := big_Mod (result + term) (prime sss) in
      let xPower := big_Mod (xPower * x) (prime sss) in
      evaluatePolynomial_loop rest x result xPower
  end.

Definition evaluatePolynomial (coefficients : list Z) (x : Z) : Z :=
  evaluatePolynomial_loop coefficients x 0 1.

(** The loop [for i := 1; i < threshold; i++] drawing the random
    coefficients. *)
Fixpoint draw_coefficients (n : nat) (r : Reader) : option (list Z * Reader) :=
  match n with
  | O => Some ([], r)
  | S n' =>
      match rand_Int r (prime sss) with
      | None => None
      | Some (coeff, r') =>
          match draw_coefficients n' r' with
          | None => None
          | Some (cs, r'') => Some (coeff :: cs, r'')
          end
      end
  end.

Definition make_shares (coefficients : list Z) (totalShares : Z) : list Share :=
  map (fun i => let x := i + 1 in
                {| X := x; Y := evaluatePolynomial coefficients x |})
      (seqZ 0 totalShares).

Definition SplitSecret (r : Reader) (secret : list byte) (threshold totalShares : Z)
  : Result (list Share) * Reader :=
  if threshold >? totalShares then (Fail ErrThresholdTooLarge, r)
  else if threshold <? 1 then (Fail ErrThresholdZero, r)
  else if totalShares <? 1 then (Fail ErrTotalSharesZero, r)
  else
    let secretInt := SetBytes secret in
    if secretInt >=? prime sss then (Fail ErrSecretTooLarge, r)
    else
      match draw_coefficients (Z.to_nat (threshold - 1)) r with
      | None => (Fail ErrCoefficient, r)
      | Some (cs, r') => (Ok (make_shares (secretInt :: cs) totalShares), r')
      end.

(** The duplicate scan over [share.X.String()]; decimal rendering is
    injective, so the map is keyed by the integer. *)
Fixpoint find_duplicate (xCoords : gset Z) (shares : list Share) : option Z :=
  match shares with
  | [] => None
  | share :: rest =>
      if decide (X share ∈ xCoords) then Some (X share)
      else find_duplicate ({[X share]} ∪ xCoords) rest
  end.

(** The inner loop over [j, otherShare] for a fixed [i, share]. *)
Fixpoint basis_loop (i : nat) (share : Share) (j : nat) (others : list Share)
         (numerator denominator : Z) : Z * Z :=
  match others with
  | [] => (numerator, denominator)
  | otherShare :: rest =>
      if negb (Nat.eqb i j) then
        let temp := - X otherShare in
        let numerator := big_Mod (numerator * temp) (prime sss) in
        let temp := X share - X otherShare in
        let denominator := big_Mod (denominator * temp) (prime sss) in
        basis_loop i share (S j) rest numerator denominator
      else basis_loop i share (S j) rest numerator denominator
  end.

(** The outer loop over [i, share]. *)
Fixpoint combine_loop (shares : list Share) (i : nat) (todo : list Share)
         (secret : Z) : Result Z :=
  match todo with
  | [] => Ok secret
  | share :: rest =>
      let '(numerator, denominator) := basis_loop i share 0 shares 1 1 in
      match ModInverse denominator (prime sss) with
      | None => Fail ErrNoModInverse
      | Some denomInv =>
          let lagrange := big_Mod (numerator * denomInv) (prime sss) in
          let term := Y share * lagrange in
          let secret := big_Mod (secret + term) (prime sss) in
          combine_loop shares (S i) rest secret
      end
  end.

(** The interpolated integer, before [secret.Bytes()]. *)
Definition combine_int (shares : list Share) : Result Z :=
  if (length shares <? 1)%nat then Fail ErrNoShares
  else
    match find_duplicate ∅ shares with
    | Some x => Fail (ErrDuplicateX x)
    | None => combine_loop shares 0 shares 0
    end.

Definition CombineShares (shares : list Share) : Result (list byte) :=
  match combine_int shares with
  | Ok secret => Ok (Bytes secret)
  | Fail e => Fail e
  end.

End WithField.

End Shamir.

(** ** Capsule types ([types/capsule.go]) *)

Inductive CapsuleType :=
| CapsuleType_UNKNOWN
| CapsuleType_SAFE
| CapsuleType_TIME_LOCK
| CapsuleType_CONDITIONAL
| CapsuleType_MULTI_SIG
| CapsuleType_DEAD_MANS_SWITCH.

Inductive CapsuleStatus :=
| CapsuleStatus_UNKNOWN
| CapsuleStatus_ACTIVE
| CapsuleStatus_UNLOCKED
| CapsuleStatus_EXPIRED
| CapsuleStatus_CANCELLED.

#[global] Instance CapsuleType_eq_dec : EqDecision CapsuleType.
Proof. solve_decision. Defined.

#[global] Instance CapsuleStatus_eq_dec : EqDecision CapsuleStatus.
Proof. solve_decision. Defined.

Definition CapsuleType_String (t : CapsuleType) : string :=
  match t with
  | CapsuleType_UNKNOWN => "UNKNOWN"
  | CapsuleType_SAFE => "SAFE"
  | CapsuleType_TIME_LOCK => "TIME_LOCK"
  | CapsuleType_CONDITIONAL => "CONDITIONAL"
  | CapsuleType_MULTI_SIG => "MULTI_SIG"
  | CapsuleType_DEAD_MANS_SWITCH => "DEAD_MANS_SWITCH"
  end.

(** Instants and their comparisons ([time.Time.After], [time.Time.Before]). *)
Definition Time := Z.

Definition After (t u : Time) : bool := t >? u.

Definition Before (t u : Time) : bool := t <? u.

(** Two's complement wrap of an [int64] product. *)
Definition wrap_int64 (z : Z) : Z := (z + 2 ^ 63) mod 2 ^ 64 - 2 ^ 63.

Definition wrap_uint64 (n : N) : N := (n mod 2 ^ 64)%N.

Definition Second : Z := 1000000000.

Record TimeCapsule := {
  ID : N;
  Owner : string;
  Recipient : string;
  CapsuleType_ : CapsuleType;
  Status : CapsuleStatus;
  EncryptedData_ : list byte;
  DataHash : string;
  EncryptionAlgo : string;
  IPFSHash : string;
  DataSize : Z;
  StorageType : string;
  UnlockTime : option Time;
  ConditionContract : string;
  RequiredSigs : N;
  Threshold : N;
  TotalShares : N;
  ShareHolders : list string;
  CreatedAt : Time;
  UpdatedAt : Time;
  ExpiresAt : option Time;
  LastActivity : option Time;
  InactivityPeriod : N;
  Title : string;
  Description : string;
  Tags : list string;
  Metadata : gmap string string
}.

Definition set_Status (c : TimeCapsule) (s : CapsuleStatus) : TimeCapsule :=
  {| ID := ID c; Owner := Owner c; Recipient := Recipient c;
     CapsuleType_ := CapsuleType_ c; Status := s;
     EncryptedData_ := EncryptedData_ c; DataHash := DataHash c;
     EncryptionAlgo := EncryptionAlgo c; IPFSHash := IPFSHash c;
     DataSize := DataSize c; StorageType := StorageType c;
     UnlockTime := UnlockTime c; ConditionContract := ConditionContract c;
     RequiredSigs := RequiredSigs c; Threshold := Threshold c;
     TotalShares := TotalShares c; ShareHolders := ShareHolders c;
     CreatedAt := CreatedAt c; UpdatedAt := UpdatedAt c;
     ExpiresAt := ExpiresAt c; LastActivity := LastActivity c;
     InactivityPeriod := InactivityPeriod c; Title := Title c;
     Description := Description c; Tags := Tags c; Metadata := Metadata c |}.

Definition set_UpdatedAt (c : TimeCapsule) (t : Time) : TimeCapsule :=
  {| ID := ID c; Owner := Owner c; Recipient := Recipient c;
     CapsuleType_ := CapsuleType_ c; Status := Status c;
     EncryptedData_ := EncryptedData_ c; DataHash := DataHash c;
     EncryptionAlgo := EncryptionAlgo c; IPFSHash := IPFSHash c;
     DataSize := DataSize c; StorageType := StorageType c;
     UnlockTime := UnlockTime c; ConditionContract := ConditionContract c;
     RequiredSigs := RequiredSigs c; Threshold := Threshold c;
     TotalShares := TotalShares c; ShareHolders := ShareHolders c;
     CreatedAt := CreatedAt c; UpdatedAt := t;
     ExpiresAt := ExpiresAt c; LastActivity := LastActivity c;
     InactivityPeriod := InactivityPeriod c; Title := Title c;
     Description := Description c; Tags := Tags c; Metadata := Metadata c |}.

Definition set_Owner (c : TimeCapsule) (o : string) : TimeCapsule :=
  {| ID := ID c; Owner := o; Recipient := Recipient c;
     CapsuleType_ := CapsuleType_ c; Status := Status c;
     EncryptedData_ := EncryptedData_ c; DataHash := DataHash c;
     EncryptionAlgo := EncryptionAlgo c; IPFSHash := IPFSHash c;
     DataSize := DataSize c; StorageType := StorageType c;
     UnlockTime := UnlockTime c; ConditionContract := ConditionContract c;
     RequiredSigs := RequiredSigs c; Threshold := Threshold c;
     TotalShares := TotalShares c; ShareHolders := ShareHolders c;
     CreatedAt := CreatedAt c; UpdatedAt := UpdatedAt c;
     ExpiresAt := ExpiresAt c; LastActivity := LastActivity c;
     InactivityPeriod := InactivityPeriod c; Title := Title c;
     Description := Description c; Tags := Tags c; Metadata := Metadata c |}.

Definition set_LastActivity (c : TimeCapsule) (t : option Time) : TimeCapsule :=
  {| ID := ID c; Owner := Owner c; Recipient := Recipient c;
     CapsuleType_ := CapsuleType_ c; Status := Status c;
     EncryptedData_ := EncryptedData_ c; DataHash := DataHash c;
     EncryptionAlgo := EncryptionAlgo c; IPFSHash := IPFSHash c;
     DataSize := DataSize c; StorageType := StorageType c;
     UnlockTime := UnlockTime c; ConditionContract := ConditionContract c;
     RequiredSigs := RequiredSigs c; Threshold := Threshold c;
     TotalShares := TotalShares c; ShareHolders := ShareHolders c;
     CreatedAt := CreatedAt c; UpdatedAt := UpdatedAt c;
     ExpiresAt := ExpiresAt c; LastActivity := t;
     InactivityPeriod := InactivityPeriod c; Title := Title c;
     Description := Description c; Tags := Tags c; Metadata := Metadata c |}.

Record KeyShare := {
  ks_CapsuleID : N;
  ks_ShareIndex : N;
  ks_NodeID : string;
  ks_EncryptedShare : list byte;
  ks_CreatedAt : Time
}.

Record TransferHistory := {
  th_CapsuleID : N;
  th_TransferID : string;
  th_FromOwner : string;
  th_ToOwner : string;
  th_TransferType : string;
  th_Status : string;
  th_TransferTime : Time;
  th_Message : string;
  th_BlockHeight : Z;
  th_TxHash : string
}.

Record PendingTransfer := {
  pt_TransferID : string;
  pt_CapsuleID : N;
  pt_FromOwner : string;
  pt_ToOwner : string;
  pt_RequestTime : Time;
  pt_ExpiryTime : Time;
  pt_Message : string;
  pt_RequireApproval : bool;
  pt_Status : string
}.

Definition set_pt_Status (p : PendingTransfer) (s : string) : PendingTransfer :=
  {| pt_TransferID := pt_TransferID p; pt_CapsuleID := pt_CapsuleID p;
     pt_FromOwner := pt_FromOwner p; pt_ToOwner := pt_ToOwner p;
     pt_RequestTime := pt_RequestTime p; pt_ExpiryTime := pt_ExpiryTime p;
     pt_Message := pt_Message p; pt_RequireApproval := pt_RequireApproval p;
     pt_Status := s |}.

Record TransferStats := {
  TotalTransfers : N;
  PendingTransfers_ : N;
  CompletedTransfers : N;
  RejectedTransfers : N;
  BatchTransfers : N;
  LastTransferTime : option Time
}.

(** [sdk.AccAddressFromBech32] succeeds: taken from the host SDK. *)
Section Validate.

Variable AccAddressFromBech32 : string -> bool.

Inductive ValidateError :=
  | VE_ZeroID | VE_Owner | VE_Recipient | VE_EmptyData | VE_EmptyHash
  | VE_Threshold | VE_ZeroShares | VE_NoUnlockTime | VE_UnlockPast
  | VE_NoContract | VE_NoSigs | VE_NoInactivity.

(** [TimeCapsule.Validate]; [now] is the value of [time.Now()]. *)
Definition Validate (now : Time) (tc : TimeCapsule) : option ValidateError :=
  if (ID tc =? 0)%N then Some VE_ZeroID
  else if negb (AccAddressFromBech32 (Owner tc)) then Some VE_Owner
  else if negb (bool_decide (Recipient tc = "")) &&
          negb (AccAddressFromBech32 (Recipient tc)) then Some VE_Recipient
  else if (length (EncryptedData_ tc) =? 0)%nat then Some VE_EmptyData
  else if bool_decide (DataHash tc = "") then Some VE_EmptyHash
  else if (TotalShares tc <? Threshold tc)%N then Some VE_Threshold
  else if (TotalShares tc =? 0)%N then Some VE_ZeroShares
  else
    match CapsuleType_ tc with
    | CapsuleType_TIME_LOCK =>
        match UnlockTime tc with
        | None => Some VE_NoUnlockTime
        | Some u => if Before u now then Some VE_UnlockPast else None
        end
    | CapsuleType_CONDITIONAL =>
        if bool_decide (ConditionContract tc = "") then Some VE_NoContract else None
    | CapsuleType_MULTI_SIG =>
        if (RequiredSigs tc =? 0)%N then Some VE_NoSigs else None
    | CapsuleType_DEAD_MANS_SWITCH =>
        if (InactivityPeriod tc =? 0)%N then Some VE_NoInactivity else None
    | _ => None
    end.

End Validate.

(** [TimeCapsule.IsUnlockable]; [blockTime] is [ctx.BlockTime()]. *)
Definition IsUnlockable (tc : TimeCapsule) (blockTime : Time) : bool :=
  if negb (bool_decide (Status tc = CapsuleStatus_ACTIVE)) then false
  else
    match CapsuleType_ tc with
    | CapsuleType_SAFE => true
    | CapsuleType_TIME_LOCK =>
        match UnlockTime tc with
        | None => false
        | Some u => After blockTime u
        end
    | CapsuleType_DEAD_MANS_SWITCH =>
        match LastActivity tc with
        | None => false
        | Some la =>
            if (InactivityPeriod tc =? 0)%N then false
            else
              let inactivityDuration :=
                wrap_int64 (wrap_int64 (Z.of_N (InactivityPeriod tc)) * Second) in
              After blockTime (la + inactivityDuration)
        end
    | CapsuleType_CONDITIONAL => false
    | CapsuleType_MULTI_SIG => false
    | CapsuleType_UNKNOWN => false
    end.

(** [TimeCapsule.UpdateActivity]. *)
Definition UpdateActivity (tc : TimeCapsule) (blockTime : Time) : TimeCapsule :=
  if bool_decide (CapsuleType_ tc = CapsuleType_DEAD_MANS_SWITCH)
  then set_UpdatedAt (set_LastActivity tc (Some blockTime)) blockTime
  else tc.

(** [TimeCondition.Evaluate] of [types/conditions.go]. *)
Record TimeCondition := { tc_UnlockTime : Time; tc_Timezone : string }.

Definition TimeCondition_Evaluate (tc : TimeCondition) (blockTime : Time) : bool :=
  After blockTime (tc_UnlockTime tc).

(** ** Outcomes of handlers *)

(** The module's sentinel errors ([types/errors.go]); [ErrWrapped] stands for
    an unregistered [fmt.Errorf] or a store error. *)
Inductive Err :=
| ErrInvalidCapsule
| ErrCapsuleNotFound
| ErrUnauthorized
| ErrInvalidKeyShare
| ErrInsufficientShares
| ErrInvalidEncryption
| ErrConditionNotMet
| ErrCapsuleAlreadyOpened
| ErrInvalidRecipient
| ErrInvalidCapsuleType
| ErrDataTooLarge
| ErrInvalidTransfer
| ErrDataStorageFailed
| ErrDataRetrievalFailed
| ErrWrapped (msg : string).

(** A handler returns a value, returns an error, or panics. *)
Inductive Outcome (A : Type) :=
| Done (a : A)
| Error (e : Err)
| Panic (msg : string).

Arguments Done {A} a.

Arguments Error {A} e.

Arguments Panic {A} msg.

(** ** Symmetric encryption (package [crypto], [encryption.go]) *)

(** The collaborators outside the repository: the SDK's address checks, the
    AES-GCM primitive of [crypto/cipher] on a 32-byte key and a 12-byte
    nonce, SHA-256 rendered in hexadecimal, and the IPFS daemon. *)
Record Host := {
  StringToBytes_ok : string -> bool;
  AccAddressFromBech32_ok : string -> bool;
  aead_seal : list byte -> list byte -> list byte -> list byte;
  aead_open : list byte -> list byte -> list byte -> option (list byte);
  sha256_hex : list byte -> string;
  ipfs_store : N -> list byte -> option string;
  ipfs_retrieve : string -> N -> option (list byte)
}.

Record EncryptedData := {
  Data : list byte;
  Nonce : list byte;
  Salt : list byte;
  Algorithm : string
}.

Definition keySize : nat := 32.

Definition NonceSize : nat := 12.

Section Crypto.

Variable host : Host.

(** [EncryptionManager.GenerateKey]. *)
Definition GenerateKey (r : Reader) : option (list byte * Reader) :=
  rand_Read r keySize.

(** [gcm.Seal(nil, nonce, data, nil)]. *)
Definition gcm_Seal (key nonce data : list byte) : list byte :=
  aead_seal host key nonce data.

(** [gcm.Open(nil, nonce, data, nil)]: the standard library panics on a
    nonce whose length is not [NonceSize], and returns an error when
    authentication fails. *)
Definition gcm_Open (key nonce data : list byte) : Outcome (list byte) :=
  if negb (length nonce =? NonceSize)%nat
  then Panic "crypto/cipher: incorrect nonce length given to GCM"
  else match aead_open host key nonce data with
       | Some plaintext => Done plaintext
       | None => Error (ErrWrapped "failed to decrypt")
       end.

(** [EncryptionManager.Encrypt]. *)
Definition Encrypt (r : Reader) (data key : list byte)
  : Outcome EncryptedData * Reader :=
  if negb (length key =? keySize)%nat then (Error (ErrWrapped "invalid key size"), r)
  else
    match rand_Read r NonceSize with
    | None => (Error (ErrWrapped "failed to generate nonce"), r)
    | Some (nonce, r') =>
        let ciphertext := gcm_Seal key nonce data in
        (Done {| Data := ciphertext; Nonce := nonce; Salt := [];
                 Algorithm := "AES-256-GCM" |}, r')
    end.

(** [EncryptionManager.Decrypt]. *)
Definition Decrypt (encData : EncryptedData) (key : list byte)
  : Outcome (list byte) :=
  if negb (length key =? keySize)%nat then Error (ErrWrapped "invalid key size")
  else if negb (bool_decide (Algorithm encData = "AES-256-GCM"))
       then Error (ErrWrapped "unsupported algorithm")
  else gcm_Open key (Nonce encData) (Data encData).

Definition HashData (data : list byte) : string := sha256_hex host data.

Definition VerifyDataIntegrity (data : list byte) (expectedHash : string) : bool :=
  bool_decide (HashData data = expectedHash).

End Crypto.

(** [shareToBytes]: [be_u16 len_x][x][be_u16 len_y][y]. *)
Definition ShareToBytes (share : Shamir.Share) : list byte :=
  let xBytes := Bytes (Shamir.X share) in
  let yBytes := Bytes (Shamir.Y share) in
  [byte_of_Z (Z.shiftr (Z.of_nat (length xBytes)) 8);
   byte_of_Z (Z.of_nat (length xBytes))] ++ xBytes ++
  [byte_of_Z (Z.shiftr (Z.of_nat (length yBytes)) 8);
   byte_of_Z (Z.of_nat (length yBytes))] ++ yBytes.

(** [bytesToShare] of [crypto/shamir.go]. *)
Definition byte_at (data : list byte) (i : nat) : Z :=
  match data !! i with
  | Some b => Z_of_byte b
  | None => 0
  end.

Definition bytesToShare (data : list byte) : option Shamir.Share :=
  if (length data <? 4)%nat then None
  else
    let xLen := Z.to_nat (Z.lor (Z.shiftl (byte_at data 0) 8) (byte_at data 1)) in
    if (length data <? 2 + xLen + 2)%nat then None
    else
      let xBytes := take xLen (drop 2 data) in
      let x := SetBytes xBytes in
      let yLen := Z.to_nat (Z.lor (Z.shiftl (byte_at data (2 + xLen)) 8)
                                  (byte_at data (2 + xLen + 1))) in
      if (length data <? 2 + xLen + 2 + yLen)%nat then None
      else
        let yBytes := take yLen (drop (2 + xLen + 2) data) in
        let y := SetBytes yBytes in
        Some {| Shamir.X := x; Shamir.Y := y |}.

(** ** The keeper ([keeper/keeper.go]) *)

Record Event := { ev_type : string; ev_attrs : list (string * string) }.

(** The block context of a message: [ctx.BlockTime()], [ctx.BlockHeight()]. *)
Record Ctx := { BlockTime : Time; BlockHeight : Z }.

(** The collections of the keeper, as persisted, and the events emitted
    through the context's event manager. The logger and the security monitor
    only observe; they are left out. *)
Record Keeper := {
  capsules : gmap N TimeCapsule;
  userCapsules : gset (string * N);
  keyShares : gmap (N * N) KeyShare;
  capsuleCounter : N;
  transferHistory : gmap string TransferHistory;
  pendingTransfers : gmap string PendingTransfer;
  transferStats : option TransferStats;
  events : list Event
}.

Definition set_capsules (k : Keeper) (m : gmap N TimeCapsule) : Keeper :=
  {| capsules := m; userCapsules := userCapsules k; keyShares := keyShares k;
     capsuleCounter := capsuleCounter k; transferHistory := transferHistory k;
     pendingTransfers := pendingTransfers k; transferStats := transferStats k;
     events := events k |}.

Definition set_userCapsules (k : Keeper) (s : gset (string * N)) : Keeper :=
  {| capsules := capsules k; userCapsules := s; keyShares := keyShares k;
     capsuleCounter := capsuleCounter k; transferHistory := transferHistory k;
     pendingTransfers := pendingTransfers k; transferStats := transferStats k;
     events := events k |}.

Definition set_keyShares (k : Keeper) (m : gmap (N * N) KeyShare) : Keeper :=
  {| capsules := capsules k; userCapsules := userCapsules k; keyShares := m;
     capsuleCounter := capsuleCounter k; transferHistory := transferHistory k;
     pendingTransfers := pendingTransfers k; transferStats := transferStats k;
     events := events k |}.

Definition set_capsuleCounter (k : Keeper) (n : N) : Keeper :=
  {| capsules := capsules k; userCapsules := userCapsules k;
     keyShares := keyShares k; capsuleCounter := n;
     transferHistory := transferHistory k;
     pendingTransfers := pendingTransfers k; transferStats := transferStats k;
     events := events k |}.

Definition set_transferHistory (k : Keeper) (m : gmap string TransferHistory) : Keeper :=
  {| capsules := capsules k; userCapsules := userCapsules k;
     keyShares := keyShares k; capsuleCounter := capsuleCounter k;
     transferHistory := m;
     pendingTransfers := pendingTransfers k; transferStats := transferStats k;
     events := events k |}.

Definition set_pendingTransfers (k : Keeper) (m : gmap string PendingTransfer) : Keeper :=
  {| capsules := capsules k; userCapsules := userCapsules k;
     keyShares := keyShares k; capsuleCounter := capsuleCounter k;
     transferHistory := transferHistory k;
     pendingTransfers := m; transferStats := transferStats k;
     events := events k |}.

Definition set_transferStats (k : Keeper) (s : option TransferStats) : Keeper :=
  {| capsules := capsules k; userCapsules := userCapsules k;
     keyShares := keyShares k; capsuleCounter := capsuleCounter k;
     transferHistory := transferHistory k;
     pendingTransfers := pendingTransfers k; transferStats := s;
     events := events k |}.

(** [EventManager().EmitEvent]. *)
Definition EmitEvent (k : Keeper) (e : Event) : Keeper :=
  {| capsules := capsules k; userCapsules := userCapsules k;
     keyShares := keyShares k; capsuleCounter := capsuleCounter k;
     transferHistory := transferHistory k;
     pendingTransfers := pendingTransfers k; transferStats := transferStats k;
     events := events k ++ [e] |}.

Definition fmt_d (n : N) : string := pretty n.

Definition fmt_dZ (z : Z) : string := pretty z.

(** [collections.Sequence]: [Peek] reads the stored value, [Next] returns it
    and stores its successor. *)
Definition capsuleCounter_Peek (k : Keeper) : N := capsuleCounter k.

Definition capsuleCounter_Next (k : Keeper) : N * Keeper :=
  (capsuleCounter k, set_capsuleCounter k (wrap_uint64 (capsuleCounter k + 1))).

(** [Keeper.GetCapsule]. *)
Definition GetCapsule (k : Keeper) (capsuleID : N) : Outcome TimeCapsule :=
  match capsules k !! capsuleID with
  | Some c => Done c
  | None => Error ErrCapsuleNotFound
  end.

(** [Keeper.canAccess]. *)
Definition canAccess (capsule : TimeCapsule) (accessor : string) : bool :=
  if bool_decide (Owner capsule = accessor) &&
     bool_decide (CapsuleType_ capsule = CapsuleType_SAFE) then true
  else if bool_decide (Recipient capsule = accessor) then true
  else if bool_decide (CapsuleType_ capsule = CapsuleType_DEAD_MANS_SWITCH) &&
          bool_decide (Recipient capsule = accessor) then true
  else false.

(** [Keeper.distributeKeyShares]. *)
Fixpoint distributeKeyShares_loop (k : Keeper) (ctx : Ctx) (capsuleID : N)
         (i : N) (shares : list Shamir.Share) : Keeper :=
  match shares with
  | [] => k
  | share :: rest =>
      let nodeID := ("masternode-" +:+ fmt_d i)%string in
      let shareData := ShareToBytes share in
      let keyShare :=
        {| ks_CapsuleID := capsuleID; ks_ShareIndex := i; ks_NodeID := nodeID;
           ks_EncryptedShare := shareData; ks_CreatedAt := BlockTime ctx |} in
      let k := set_keyShares k (<[(capsuleID, i) := keyShare]> (keyShares k)) in
      let k := EmitEvent k
                 {| ev_type := "key_share_distributed";
                    ev_attrs := [("capsule_id", fmt_d capsuleID);
                                 ("node_id", nodeID);
                                 ("share_index", fmt_d i)] |} in
      distributeKeyShares_loop k ctx capsuleID (i + 1)%N rest
  end.

Definition distributeKeyShares (k : Keeper) (ctx : Ctx) (capsuleID : N)
           (shares : list Shamir.Share) : Keeper :=
  distributeKeyShares_loop k ctx capsuleID 0%N shares.

Section KeeperOps.

Variable host : Host.

Definition blockchainStorageThreshold : nat := 1024 * 1024.

Definition maxDataSize : nat := 100 * 1024 * 1024.

(** [Keeper.CreateCapsule]. [now] is the wall clock read by [Validate];
    [r] is the entropy consumed by the key, the nonce and the
    coefficients, in this order. *)
Definition CreateCapsule (k : Keeper) (ctx : Ctx) (now : Time) (r : Reader)
           (owner recipient : string) (data : list byte)
           (capsuleType : CapsuleType) (threshold totalShares : N)
           (unlockTime : option Time) (conditionContract : string)
           (metadata : gmap string string)
  : Outcome TimeCapsule * Keeper * Reader :=
  if negb (StringToBytes_ok host owner) then (Error ErrUnauthorized, k, r)
  else if negb (bool_decide (recipient = "")) &&
          negb (StringToBytes_ok host recipient)
       then (Error ErrInvalidRecipient, k, r)
  else if (maxDataSize <? length data)%nat then (Error ErrDataTooLarge, k, r)
  else
    let storageType : string :=
      if (blockchainStorageThreshold <? length data)%nat then "ipfs"
      else "blockchain" in
    match GenerateKey r with
    | None => (Error ErrInvalidEncryption, k, r)
    | Some (encryptionKey, r1) =>
        match Encrypt host r1 data encryptionKey with
        | (Error _, r2) => (Error ErrInvalidEncryption, k, r2)
        | (Panic m, r2) => (Panic m, k, r2)
        | (Done encryptedData, r2) =>
            let dataHash := HashData host data in
            let stored : Outcome (string * list byte) :=
              if bool_decide (storageType = "ipfs") then
                let tempCapsuleID := wrap_uint64 (capsuleCounter_Peek k + 1) in
                match ipfs_store host tempCapsuleID (Data encryptedData) with
                | None => Error ErrDataStorageFailed
                | Some h => Done (h, [])
                end
              else Done (""%string, Data encryptedData) in
            match stored with
            | Error e => (Error e, k, r2)
            | Panic m => (Panic m, k, r2)
            | Done (ipfsHash, blockchainData) =>
                match Shamir.SplitSecret Shamir.NewShamirSecretSharing r2
                        encryptionKey (Z.of_N threshold) (Z.of_N totalShares) with
                | (Shamir.Fail _, r3) => (Error ErrInvalidKeyShare, k, r3)
                | (Shamir.Ok shares, r3) =>
                    let '(capsuleID, k) := capsuleCounter_Next k in
                    let capsule :=
                      {| ID := capsuleID; Owner := owner; Recipient := recipient;
                         CapsuleType_ := capsuleType;
                         Status := CapsuleStatus_ACTIVE;
                         EncryptedData_ := blockchainData;
                         DataHash := dataHash;
                         EncryptionAlgo := Algorithm encryptedData;
                         IPFSHash := ipfsHash;
                         DataSize := Z.of_nat (length data);
                         StorageType := storageType;
                         UnlockTime := unlockTime;
                         ConditionContract := conditionContract;
                         RequiredSigs := 0%N;
                         Threshold := threshold; TotalShares := totalShares;
                         ShareHolders := replicate (N.to_nat totalShares) ""%string;
                         CreatedAt := BlockTime ctx; UpdatedAt := BlockTime ctx;
                         ExpiresAt := None;
                         LastActivity :=
                           if bool_decide (capsuleType = CapsuleType_DEAD_MANS_SWITCH)
                           then Some (BlockTime ctx) else None;
                         InactivityPeriod := 0%N;
                         Title := ""; Description := ""; Tags := [];
                         Metadata := metadata |} in
                    match Validate (AccAddressFromBech32_ok host) now capsule with
                    | Some _ => (Error ErrInvalidCapsule, k, r3)
                    | None =>
                        let k := set_capsules k (<[capsuleID := capsule]> (capsules k)) in
                        let k := set_userCapsules k ({[(owner, capsuleID)]} ∪ userCapsules k) in
                        let k := distributeKeyShares k ctx capsuleID shares in
                        let k := EmitEvent k
                                   {| ev_type := "capsule_created";
                                      ev_attrs :=
                                        [("capsule_id", fmt_d capsuleID);
                                         ("owner", owner);
                                         ("recipient", recipient);
                                         ("capsule_type", CapsuleType_String capsuleType);
                                         ("data_hash", dataHash)] |} in
                        (Done capsule, k, r3)
                    end
                end
            end
        end
    end.

(** [Keeper.OpenCapsule]. *)
Definition OpenCapsule (k : Keeper) (ctx : Ctx) (capsuleID : N)
           (accessor : string) (providedShares : list Shamir.Share)
  : Outcome (list byte) * Keeper :=
  match GetCapsule k capsuleID with
  | Error e => (Error e, k)
  | Panic m => (Panic m, k)
  | Done capsule =>
      if negb (StringToBytes_ok host accessor) then (Error ErrUnauthorized, k)
      else if negb (bool_decide (Status capsule = CapsuleStatus_ACTIVE))
           then (Error ErrCapsuleAlreadyOpened, k)
      else if negb (canAccess capsule accessor) then (Error ErrUnauthorized, k)
      else if negb (IsUnlockable capsule (BlockTime ctx))
           then (Error ErrConditionNotMet, k)
      else if (length providedShares <? N.to_nat (Threshold capsule))%nat
           then (Error ErrInsufficientShares, k)
      else
        match Shamir.CombineShares Shamir.NewShamirSecretSharing
                (take (N.to_nat (Threshold capsule)) providedShares) with
        | Shamir.Fail _ => (Error ErrInvalidKeyShare, k)
        | Shamir.Ok encryptionKey =>
            let retrieved : Outcome (list byte) :=
              if bool_decide (StorageType capsule = "ipfs") then
                match ipfs_retrieve host (IPFSHash capsule) capsuleID with
                | None => Error ErrDataRetrievalFailed
                | Some d => Done d
                end
              else Done (EncryptedData_ capsule) in
            match retrieved with
            | Error e => (Error e, k)
            | Panic m => (Panic m, k)
            | Done encryptedDataBytes =>
                let encryptedData :=
                  {| Data := encryptedDataBytes; Nonce := []; Salt := [];
                     Algorithm := EncryptionAlgo capsule |} in
                match Decrypt host encryptedData encryptionKey with
                | Error _ => (Error ErrInvalidEncryption, k)
                | Panic m => (Panic m, k)
                | Done decryptedData =>
                    if negb (VerifyDataIntegrity host decryptedData (DataHash capsule))
                    then (Error ErrInvalidEncryption, k)
                    else
                      let capsule := set_Status capsule CapsuleStatus_UNLOCKED in
                      let capsule := set_UpdatedAt capsule (BlockTime ctx) in
                      let k := set_capsules k (<[capsuleID := capsule]> (capsules k)) in
                      let k := EmitEvent k
                                 {| ev_type := "capsule_opened";
                                    ev_attrs := [("capsule_id", fmt_d capsuleID);
                                                 ("accessor", accessor)] |} in
                      (Done decryptedData, k)
                end
            end
        end
  end.

End KeeperOps.

(** [Keeper.updateTransferStats]. *)
Definition updateTransferStats (k : Keeper) (ctx : Ctx) (transferType : string) : Keeper :=
  let stats :=
    match transferStats k with
    | Some s => s
    | None => {| TotalTransfers := 0; PendingTransfers_ := 0;
                 CompletedTransfers := 0; RejectedTransfers := 0;
                 BatchTransfers := 0; LastTransferTime := None |}
    end in
  set_transferStats k
    (Some {| TotalTransfers := wrap_uint64 (TotalTransfers stats + 1);
             PendingTransfers_ := PendingTransfers_ stats;
             CompletedTransfers := wrap_uint64 (CompletedTransfers stats + 1);
             RejectedTransfers := RejectedTransfers stats;
             BatchTransfers :=
               if bool_decide (transferType = "batch")
               then wrap_uint64 (BatchTransfers stats + 1)
               else BatchTransfers stats;
             LastTransferTime := Some (BlockTime ctx) |}).

(** [Keeper.TransferCapsuleOwnership]. *)
Definition TransferCapsuleOwnership (k : Keeper) (ctx : Ctx) (capsuleID : N)
           (fromOwner toOwner transferType message : string)
  : Outcome unit * Keeper :=
  match GetCapsule k capsuleID with
  | Error e => (Error e, k)
  | Panic m => (Panic m, k)
  | Done capsule =>
      let capsule := set_Owner capsule toOwner in
      let capsule := set_UpdatedAt capsule (BlockTime ctx) in
      let k := set_capsules k (<[capsuleID := capsule]> (capsules k)) in
      let k := set_userCapsules k (userCapsules k ∖ {[(fromOwner, capsuleID)]}) in
      let k := set_userCapsules k ({[(toOwner, capsuleID)]} ∪ userCapsules k) in
      let transferID :=
        (fmt_d capsuleID +:+ "-" +:+ fmt_dZ (BlockHeight ctx) +:+ "-" +:+ "hash")%string in
      let history :=
        {| th_CapsuleID := capsuleID; th_TransferID := transferID;
           th_FromOwner := fromOwner; th_ToOwner := toOwner;
           th_TransferType := transferType; th_Status := "completed";
           th_TransferTime := BlockTime ctx; th_Message := message;
           th_BlockHeight := BlockHeight ctx; th_TxHash := "hash" |} in
      let k := set_transferHistory k (<[transferID := history]> (transferHistory k)) in
      let k := updateTransferStats k ctx transferType in
      (Done tt, k)
  end.

(** [Keeper.GetPendingTransfer], [Keeper.SetPendingTransfer]. *)
Definition GetPendingTransfer (k : Keeper) (transferID : string)
  : option PendingTransfer := pendingTransfers k !! transferID.

Definition SetPendingTransfer (k : Keeper) (transferID : string)
           (transfer : PendingTransfer) : Keeper :=
  set_pendingTransfers k (<[transferID := transfer]> (pendingTransfers k)).

(** The reasons returned by [VerifyAccessConditions]. *)
Inductive AccessReason :=
| NotOwnerOrRecipient
| StatusIs (s : CapsuleStatus)
| OnlyOwnerSafe
| MissingUnlockTime
| UnlocksIn (timeLeft : Z)
| TimeConditionMet
| NoActivityRecord
| NoInactivityPeriod
| InactivityRemaining (timeLeft : Z)
| OnlyRecipientExpiredSwitch
| InactivityExpired
| MissingConditionContract
| ConditionalNotImplemented
| MultiSigNotImplemented
| UnknownCapsuleType.

(** [Keeper.VerifyAccessConditions]: the second access check of the keeper,
    not called by [OpenCapsule]. *)
Definition VerifyAccessConditions (capsule : TimeCapsule) (accessor : string)
           (blockTime : Time) : bool * AccessReason :=
  if negb (bool_decide (Owner capsule = accessor)) &&
     negb (bool_decide (Recipient capsule = accessor))
  then (false, NotOwnerOrRecipient)
  else if negb (bool_decide (Status capsule = CapsuleStatus_ACTIVE))
  then (false, StatusIs (Status capsule))
  else
    match CapsuleType_ capsule with
    | CapsuleType_SAFE => (bool_decide (Owner capsule = accessor), OnlyOwnerSafe)
    | CapsuleType_TIME_LOCK =>
        match UnlockTime capsule with
        | None => (false, MissingUnlockTime)
        | Some u =>
            let currentTime := blockTime in
            if Before currentTime u then (false, UnlocksIn (u - currentTime))
            else (true, TimeConditionMet)
        end
    | CapsuleType_DEAD_MANS_SWITCH =>
        match LastActivity capsule with
        | None => (false, NoActivityRecord)
        | Some la =>
            if (InactivityPeriod capsule =? 0)%N then (false, NoInactivityPeriod)
            else
              let currentTime := blockTime in
              let inactivityDuration :=
                wrap_int64 (wrap_int64 (Z.of_N (InactivityPeriod capsule)) * Second) in
              let deadlineTime := la + inactivityDuration in
              if Before currentTime deadlineTime
              then (false, InactivityRemaining (deadlineTime - currentTime))
              else if negb (bool_decide (Recipient capsule = accessor))
              then (false, OnlyRecipientExpiredSwitch)
              else (true, InactivityExpired)
        end
    | CapsuleType_CONDITIONAL =>
        if bool_decide (ConditionContract capsule = "")
        then (false, MissingConditionContract)
        else (false, ConditionalNotImplemented)
    | CapsuleType_MULTI_SIG => (false, MultiSigNotImplemented)
    | CapsuleType_UNKNOWN => (false, UnknownCapsuleType)
    end.

(** ** The message server ([keeper/msg_server.go]) *)

Record MsgApproveTransfer := {
  msg_Approver : string;
  msg_TransferID : string;
  msg_CapsuleID : N;
  msg_Approved : bool
}.

(** [MsgServer.ApproveTransfer]; the response carries [msg.Approved]. *)
Definition ApproveTransfer (k : Keeper) (ctx : Ctx) (msg : MsgApproveTransfer)
  : Outcome bool * Keeper :=
  match GetPendingTransfer k (msg_TransferID msg) with
  | None => (Error (ErrWrapped "pending transfer not found"), k)
  | Some pendingTransfer =>
      if After (BlockTime ctx) (pt_ExpiryTime pendingTransfer) then
        let pendingTransfer := set_pt_Status pendingTransfer "expired" in
        let k := SetPendingTransfer k (msg_TransferID msg) pendingTransfer in
        (Error ErrInvalidTransfer, k)
      else if negb (bool_decide (pt_ToOwner pendingTransfer = msg_Approver msg))
      then (Error ErrUnauthorized, k)
      else
        let step : Outcome PendingTransfer * Keeper :=
          if msg_Approved msg then
            let pendingTransfer := set_pt_Status pendingTransfer "approved" in
            match TransferCapsuleOwnership k ctx (msg_CapsuleID msg)
                    (pt_FromOwner pendingTransfer) (pt_ToOwner pendingTransfer)
                    "approved" (pt_Message pendingTransfer) with
            | (Done _, k') => (Done pendingTransfer, k')
            | (Error _, k') => (Error (ErrWrapped "failed to execute approved transfer"), k')
            | (Panic m, k') => (Panic m, k')
            end
          else (Done (set_pt_Status pendingTransfer "rejected"), k) in
        match step with
        | (Error e, k') => (Error e, k')
        | (Panic m, k') => (Panic m, k')
        | (Done pendingTransfer, k') =>
            let k' := SetPendingTransfer k' (msg_TransferID msg) pendingTransfer in
            let k' := EmitEvent k'
                        {| ev_type := "transfer_approval";
                           ev_attrs :=
                             [("transfer_id", msg_TransferID msg);
                              ("capsule_id", fmt_d (msg_CapsuleID msg));
                              ("approver", msg_Approver msg);
                              ("approved", if msg_Approved msg then "true" else "false")] |} in
            (Done (msg_Approved msg), k')
        end
  end.

(** ** The block hooks *)

(** The callback of [processExpiredCapsules] on one entry of the walk. *)
Definition expire_capsule (currentTime : Time) (k : Keeper) (key : N)
           (capsule : TimeCapsule) : Keeper :=
  if bool_decide (Status capsule = CapsuleStatus_ACTIVE) then
    let shouldExpire :=
      match CapsuleType_ capsule with
      | CapsuleType_DEAD_MANS_SWITCH =>
          match ExpiresAt capsule with
          | Some e => After currentTime e
          | None => false
          end
      | _ => false
      end in
    if shouldExpire then
      let capsule := set_Status capsule CapsuleStatus_EXPIRED in
      let capsule := set_UpdatedAt capsule currentTime in
      let k := set_capsules k (<[key := capsule]> (capsules k)) in
      EmitEvent k {| ev_type := "capsule_expired";
                     ev_attrs := [("capsule_id", fmt_d key);
                                  ("owner", Owner capsule)] |}
    else k
  else k.

(** [capsules.Walk(ctx, nil, f)]: the entries in ascending key order. *)
Definition Walk_keys (m : gmap N TimeCapsule) : list N :=
  merge_sort N.le (elements (dom m)).

(** [Keeper.processExpiredCapsules]. *)
Definition processExpiredCapsules (k : Keeper) (ctx : Ctx) : Keeper :=
  let currentTime := BlockTime ctx in
  fold_left
    (fun k key =>
       match capsules k !! key with
       | Some capsule => expire_capsule currentTime k key capsule
       | None => k
       end)
    (Walk_keys (capsules k)) k.

(** [Keeper.BeginBlocker]. *)
Definition BeginBlocker (k : Keeper) (ctx : Ctx) : Keeper :=
  processExpiredCapsules k ctx.

(** ** Further functions of [crypto/shamir.go] *)

(** The errors of [ValidateShares], with the index of the offending share.
    A coordinate is a [Z] here, so the [nil] test of the source never
    fires. *)
Inductive ValidateSharesError :=
| VS_NoShares
| VS_NotPositive (i : nat)
| VS_OutsideField (i : nat).

Fixpoint ValidateShares_loop (sss : Shamir.ShamirSecretSharing) (i : nat)
         (shares : list Shamir.Share) : option ValidateSharesError :=
  match shares with
  | [] => None
  | share :: rest =>
      if Shamir.X share <=? 0 then Some (VS_NotPositive i)
      else if (Shamir.X share >=? Shamir.prime sss) ||
              (Shamir.Y share >=? Shamir.prime sss)
      then Some (VS_OutsideField i)
      else ValidateShares_loop sss (S i) rest
  end.

(** [ShamirSecretSharing.ValidateShares]: [None] is the [nil] error. *)
Definition ValidateShares (sss : Shamir.ShamirSecretSharing)
           (shares : list Shamir.Share) : option ValidateSharesError :=
  if (length shares =? 0)%nat then Some VS_NoShares
  else ValidateShares_loop sss 0 shares.

(** [EncryptedShare] and [ShamirSecretSharing.EncryptShares]. *)
Record EncryptedShare := { es_Index : Z; es_EncryptedData : EncryptedData }.

Section CryptoShares.

Variable host : Host.

(** The loop [for i, share := range shares] of [EncryptShares], [keys[i]]
    running along. *)
Fixpoint EncryptShares_loop (r : Reader) (i : Z) (shares : list Shamir.Share)
         (keys : list (list byte)) : Outcome (list EncryptedShare) * Reader :=
  match shares, keys with
  | share :: shares', key :: keys' =>
      let shareData := ShareToBytes share in
      match Encrypt host r shareData key with
      | (Error _, r') => (Error (ErrWrapped "failed to encrypt share"), r')
      | (Panic m, r') => (Panic m, r')
      | (Done encData, r') =>
          match EncryptShares_loop r' (i + 1) shares' keys' with
          | (Done rest, r'') =>
              (Done ({| es_Index := i; es_EncryptedData := encData |} :: rest), r'')
          | (Error e, r'') => (Error e, r'')
          | (Panic m, r'') => (Panic m, r'')
          end
      end
  | _, _ => (Done [], r)
  end.

Definition EncryptShares (r : Reader) (shares : list Shamir.Share)
           (keys : list (list byte)) : Outcome (list EncryptedShare) * Reader :=
  if negb (length shares =? length keys)%nat
  then (Error (ErrWrapped "number of shares must match number of keys"), r)
  else EncryptShares_loop r 0 shares keys.

(** [scrypt.Key(password, salt, 32768, 8, 1, keyLen)] of
    [golang.org/x/crypto/scrypt], taken from outside the repository. *)
Variable scrypt_Key : string -> list byte -> nat -> option (list byte).

(** [EncryptionManager.DeriveKeyFromPassword]: an empty salt is replaced by
    16 fresh bytes, which the caller never sees. *)
Definition DeriveKeyFromPassword (r : Reader) (password : string) (salt : list byte)
  : Outcome (list byte) * Reader :=
  let salted : Outcome (list byte) * Reader :=
    if (length salt =? 0)%nat then
      match rand_Read r 16 with
      | None => (Error (ErrWrapped "failed to generate salt"), r)
      | Some (salt, r') => (Done salt, r')
      end
    else (Done salt, r) in
  match salted with
  | (Error e, r') => (Error e, r')
  | (Panic m, r') => (Panic m, r')
  | (Done salt, r') =>
      match scrypt_Key password salt keySize with
      | None => (Error (ErrWrapped "failed to derive key"), r')
      | Some key => (Done key, r')
      end
  end.

(** [EncryptionManager.EncryptWithPassword]. *)
Definition EncryptWithPassword (r : Reader) (data : list byte) (password : string)
  : Outcome EncryptedData * Reader :=
  match rand_Read r 16 with
  | None => (Error (ErrWrapped "failed to generate salt"), r)
  | Some (salt, r1) =>
      match DeriveKeyFromPassword r1 password salt with
      | (Error e, r2) => (Error e, r2)
      | (Panic m, r2) => (Panic m, r2)
      | (Done key, r2) =>
          match Encrypt host r2 data key with
          | (Error e, r3) => (Error e, r3)
          | (Panic m, r3) => (Panic m, r3)
          | (Done encData, r3) =>
              (Done {| Data := Data encData; Nonce := Nonce encData; Salt := salt;
                       Algorithm := Algorithm encData |}, r3)
          end
      end
  end.

(** [EncryptionManager.DecryptWithPassword]. *)
Definition DecryptWithPassword (r : Reader) (encData : EncryptedData)
           (password : string) : Outcome (list byte) * Reader :=
  if (length (Salt encData) =? 0)%nat
  then (Error (ErrWrapped "missing salt for password-based decryption"), r)
  else
    match DeriveKeyFromPassword r password (Salt encData) with
    | (Error e, r') => (Error e, r')
    | (Panic m, r') => (Panic m, r')
    | (Done key, r') => (Decrypt host encData key, r')
    end.

End CryptoShares.

(** ** Further handlers of the keeper and of the message server *)

(** [Keeper.UpdateLastActivity]. *)
Definition UpdateLastActivity (k : Keeper) (ctx : Ctx) (capsuleID : N)
           (owner : string) : Outcome unit * Keeper :=
  match GetCapsule k capsuleID with
  | Error e => (Error e, k)
  | Panic m => (Panic m, k)
  | Done capsule =>
      if negb (bool_decide (Owner capsule = owner)) then (Error ErrUnauthorized, k)
      else if negb (bool_decide (CapsuleType_ capsule = CapsuleType_DEAD_MANS_SWITCH))
      then (Error ErrInvalidCapsuleType, k)
      else
        let capsule := UpdateActivity capsule (BlockTime ctx) in
        (Done tt, set_capsules k (<[capsuleID := capsule]> (capsules k)))
  end.

Record MsgUpdateActivity := { mua_Owner : string; mua_CapsuleID : N }.

(** [MsgServer.UpdateActivity]. *)
Definition MsgServer_UpdateActivity (k : Keeper) (ctx : Ctx) (msg : MsgUpdateActivity)
  : Outcome unit * Keeper :=
  UpdateLastActivity k ctx (mua_CapsuleID msg) (mua_Owner msg).

Record MsgCancelCapsule := {
  mcc_Owner : string;
  mcc_CapsuleID : N;
  mcc_Reason : string
}.

(** [MsgServer.CancelCapsule]. *)
Definition CancelCapsule (k : Keeper) (ctx : Ctx) (msg : MsgCancelCapsule)
  : Outcome unit * Keeper :=
  match GetCapsule k (mcc_CapsuleID msg) with
  | Error e => (Error e, k)
  | Panic m => (Panic m, k)
  | Done capsule =>
      if negb (bool_decide (Owner capsule = mcc_Owner msg))
      then (Error ErrUnauthorized, k)
      else if negb (bool_decide (Status capsule = CapsuleStatus_ACTIVE))
      then (Error ErrInvalidCapsule, k)
      else
        let capsule := set_Status capsule CapsuleStatus_CANCELLED in
        let capsule := set_UpdatedAt capsule (BlockTime ctx) in
        let k := set_capsules k (<[mcc_CapsuleID msg := capsule]> (capsules k)) in
        let k := EmitEvent k
                   {| ev_type := "capsule_cancelled";
                      ev_attrs := [("capsule_id", fmt_d (mcc_CapsuleID msg));
                                   ("owner", mcc_Owner msg);
                                   ("reason", mcc_Reason msg)] |} in
        (Done tt, k)
  end.

Record MsgTransferCapsule := {
  mtc_CurrentOwner : string;
  mtc_NewOwner : string;
  mtc_CapsuleID : N
}.

(** [MsgServer.TransferCapsule]: the direct transfer, which writes no
    history and no statistics. *)
Definition TransferCapsule (k : Keeper) (ctx : Ctx) (msg : MsgTransferCapsule)
  : Outcome unit * Keeper :=
  match GetCapsule k (mtc_CapsuleID msg) with
  | Error e => (Error e, k)
  | Panic m => (Panic m, k)
  | Done capsule =>
      if negb (bool_decide (Owner capsule = mtc_CurrentOwner msg))
      then (Error ErrUnauthorized, k)
      else if negb (bool_decide (Status capsule = CapsuleStatus_ACTIVE))
      then (Error ErrInvalidCapsule, k)
      else
        let capsule := set_Owner capsule (mtc_NewOwner msg) in
        let capsule := set_UpdatedAt capsule (BlockTime ctx) in
        let k := set_capsules k (<[mtc_CapsuleID msg := capsule]> (capsules k)) in
        let k := set_userCapsules k
                   (userCapsules k ∖ {[(mtc_CurrentOwner msg, mtc_CapsuleID msg)]}) in
        let k := set_userCapsules k
                   ({[(mtc_NewOwner msg, mtc_CapsuleID msg)]} ∪ userCapsules k) in
        let k := EmitEvent k
                   {| ev_type := "capsule_transferred";
                      ev_attrs := [("capsule_id", fmt_d (mtc_CapsuleID msg));
                                   ("from", mtc_CurrentOwner msg);
                                   ("to", mtc_NewOwner msg)] |} in
        (Done tt, k)
  end.

Record CapsuleTransfer := {
  ct_CapsuleID : N;
  ct_NewOwner : string;
  ct_Message : string
}.

(** [sdk.Coins] and its [IsZero]: no coin, or every amount zero. *)
Definition Coins := list (string * Z).

Definition Coins_IsZero (coins : Coins) : bool :=
  forallb (fun coin => snd coin =? 0) coins.

Record MsgBatchTransferCapsules := {
  mbt_CurrentOwner : string;
  mbt_Transfers : list CapsuleTransfer;
  mbt_TransferFee : Coins;
  mbt_RequireApproval : bool
}.

(** The reason of a failed item; the source renders it as a string. *)
Inductive FailedReason :=
| Failed_NotFound
| Failed_NotOwner
| Failed_Status (s : CapsuleStatus)
| Failed_Transfer.

Record FailedTransfer := { ft_CapsuleID : N; ft_Reason : FailedReason }.

Record MsgBatchTransferCapsulesResponse := {
  TransferredCapsules : list N;
  FailedTransfers : list FailedTransfer
}.

(** The loop of [BatchTransferCapsules] over [msg.Transfers]. *)
Fixpoint BatchTransfer_loop (k : Keeper) (ctx : Ctx) (currentOwner : string)
         (transfers : list CapsuleTransfer) (transferredCapsules : list N)
         (failedTransfers : list FailedTransfer)
  : list N * list FailedTransfer * Keeper :=
  match transfers with
  | [] => (transferredCapsules, failedTransfers, k)
  | transfer :: rest =>
      let fail reason k :=
        BatchTransfer_loop k ctx currentOwner rest transferredCapsules
          (failedTransfers ++ [{| ft_CapsuleID := ct_CapsuleID transfer;
                                  ft_Reason := reason |}]) in
      match GetCapsule k (ct_CapsuleID transfer) with
      | Error _ => fail Failed_NotFound k
      | Panic _ => fail Failed_NotFound k
      | Done capsule =>
          if negb (bool_decide (Owner capsule = currentOwner))
          then fail Failed_NotOwner k
          else if negb (bool_decide (Status capsule = CapsuleStatus_ACTIVE))
          then fail (Failed_Status (Status capsule)) k
          else
            match TransferCapsuleOwnership k ctx (ct_CapsuleID transfer) currentOwner
                    (ct_NewOwner transfer) "batch" (ct_Message transfer) with
            | (Done _, k') =>
                BatchTransfer_loop k' ctx currentOwner rest
                  (transferredCapsules ++ [ct_CapsuleID transfer]) failedTransfers
            | (_, k') => fail Failed_Transfer k'
            end
      end
  end.

(** [MsgServer.BatchTransferCapsules]; [SendCoins] is the outcome of the
    bank keeper's [SendCoinsFromAccountToModule] for the sender and the
    fee. *)
Definition BatchTransferCapsules (SendCoins : string -> Coins -> bool)
           (k : Keeper) (ctx : Ctx) (msg : MsgBatchTransferCapsules)
  : Outcome MsgBatchTransferCapsulesResponse * Keeper :=
  let '(transferredCapsules, failedTransfers, k) :=
    BatchTransfer_loop k ctx (mbt_CurrentOwner msg) (mbt_Transfers msg) [] [] in
  if negb (Coins_IsZero (mbt_TransferFee msg)) &&
     negb (SendCoins (mbt_CurrentOwner msg) (mbt_TransferFee msg))
  then (Error (ErrWrapped "failed to charge transfer fee"), k)
  else
    let k := EmitEvent k
               {| ev_type := "batch_capsules_transferred";
                  ev_attrs :=
                    [("from", mbt_CurrentOwner msg);
                     ("transferred_count",
                      fmt_d (N.of_nat (length transferredCapsules)));
                     ("failed_count", fmt_d (N.of_nat (length failedTransfers)))] |} in
    (Done {| TransferredCapsules := transferredCapsules;
             FailedTransfers := failedTransfers |}, k).




(** The errors of [ValidateKeyShares], with the index of the offending
    share where the source names it. *)
Inductive ValidateKeySharesError :=
| VK_NoShares
| VK_Capsule (e : Err)
| VK_Insufficient
| VK_OtherCapsule (i : nat)
| VK_NotFound (i : nat)
| VK_NodeMismatch (i : nat).

Fixpoint ValidateKeyShares_loop (k : Keeper) (capsuleID : N) (i : nat)
         (shares : list KeyShare) : option ValidateKeySharesError :=
  match shares with
  | [] => None
  | share :: rest =>
      if negb (ks_CapsuleID share =? capsuleID)%N then Some (VK_OtherCapsule i)
      else
        match keyShares k !! (ks_CapsuleID share, ks_ShareIndex share) with
        | None => Some (VK_NotFound i)
        | Some storedShare =>
            if negb (bool_decide (ks_NodeID storedShare = ks_NodeID share))
            then Some (VK_NodeMismatch i)
            else ValidateKeyShares_loop k capsuleID (S i) rest
        end
  end.

(** [Keeper.ValidateKeyShares]: [None] is the [nil] error. *)
Definition ValidateKeyShares (k : Keeper) (capsuleID : N) (shares : list KeyShare)
  : option ValidateKeySharesError :=
  if (length shares =? 0)%nat then Some VK_NoShares
  else
    match GetCapsule k capsuleID with
    | Error e => Some (VK_Capsule e)
    | Panic m => Some (VK_Capsule (ErrWrapped m))
    | Done capsule =>
        if (length shares <? N.to_nat (Threshold capsule))%nat
        then Some VK_Insufficient
        else ValidateKeyShares_loop k capsuleID 0 shares
    end.

(** ** Emergency deletion of a condition contract *)

(** [strings.HasPrefix], [strings.HasSuffix] and [strings.Split] with a
    separator of one byte. *)
Definition HasPrefix (s prefix : string) : bool :=
  (String.length prefix <=? String.length s)%nat &&
  String.eqb (substring 0 (String.length prefix) s) prefix.

Definition HasSuffix (s suffix : string) : bool :=
  (String.length suffix <=? String.length s)%nat &&
  String.eqb (substring (String.length s - String.length suffix)
                        (String.length suffix) s) suffix.

Fixpoint Split (sep : ascii) (s : string) : list string :=
  match s with
  | EmptyString => [EmptyString]
  | String c rest =>
      if Ascii.eqb c sep then EmptyString :: Split sep rest
      else
        match Split sep rest with
        | part :: parts => String c part :: parts
        | [] => [String c EmptyString]
        end
  end.

(** [Keeper.validateConfirmationCode]: [true] is the [nil] error. *)
Definition validateConfirmationCode (code : string) (capsuleID : N)
           (creator : string) : bool :=
  let expectedPrefix := ("EMERGENCY_DELETE_" +:+ fmt_d capsuleID +:+ "_")%string in
  if negb (HasPrefix code expectedPrefix) then false
  else
    let creatorParts := Split "1"%char creator in
    match creatorParts !! 1%nat with
    | None => false
    | Some part =>
        if (String.length part <? 8)%nat then false
        else
          let expectedSuffix := substring 0 8 part in
          if negb (HasSuffix code expectedSuffix) then false else true
    end.

Record EmergencyAction := {
  ea_ID : string;
  ea_CapsuleID : N;
  ea_Creator : string;
  ea_ActionType : string;
  ea_Reason : string;
  ea_ConfirmationCode : string;
  ea_ActionTime : Time;
  ea_BlockHeight : Z;
  ea_IsReversible : bool;
  ea_ReversedAt : option Time;
  ea_ReversedBy : string
}.

Definition set_ConditionContract (c : TimeCapsule) (contract : string) : TimeCapsule :=
  {| ID := ID c; Owner := Owner c; Recipient := Recipient c;
     CapsuleType_ := CapsuleType_ c; Status := Status c;
     EncryptedData_ := EncryptedData_ c; DataHash := DataHash c;
     EncryptionAlgo := EncryptionAlgo c; IPFSHash := IPFSHash c;
     DataSize := DataSize c; StorageType := StorageType c;
     UnlockTime := UnlockTime c; ConditionContract := contract;
     RequiredSigs := RequiredSigs c; Threshold := Threshold c;
     TotalShares := TotalShares c; ShareHolders := ShareHolders c;
     CreatedAt := CreatedAt c; UpdatedAt := UpdatedAt c;
     ExpiresAt := ExpiresAt c; LastActivity := LastActivity c;
     InactivityPeriod := InactivityPeriod c; Title := Title c;
     Description := Description c; Tags := Tags c; Metadata := Metadata c |}.

(** [Keeper.EmergencyDeleteContract]; [actions] is the keeper's collection
    [emergencyActions], passed along with the other collections. *)
Definition EmergencyDeleteContract (k : Keeper)
           (actions : gmap string EmergencyAction) (ctx : Ctx) (capsuleID : N)
           (creator reason confirmationCode : string)
  : Outcome unit * Keeper * gmap string EmergencyAction :=
  match GetCapsule k capsuleID with
  | Error e => (Error e, k, actions)
  | Panic m => (Panic m, k, actions)
  | Done capsule =>
      if negb (bool_decide (Owner capsule = creator))
      then (Error ErrUnauthorized, k, actions)
      else if negb (bool_decide (CapsuleType_ capsule = CapsuleType_CONDITIONAL))
      then (Error ErrInvalidCapsule, k, actions)
      else if bool_decide (ConditionContract capsule = "")
      then (Error ErrInvalidCapsule, k, actions)
      else if negb (bool_decide (Status capsule = CapsuleStatus_ACTIVE))
      then (Error ErrInvalidCapsule, k, actions)
      else if negb (validateConfirmationCode confirmationCode capsuleID creator)
      then (Error (ErrWrapped "invalid confirmation code"), k, actions)
      else
        let deletionID :=
          ("emergency_" +:+ fmt_d capsuleID +:+ "_" +:+ fmt_dZ (BlockHeight ctx))%string in
        let emergencyAction :=
          {| ea_ID := deletionID; ea_CapsuleID := capsuleID; ea_Creator := creator;
             ea_ActionType := "contract_deletion"; ea_Reason := reason;
             ea_ConfirmationCode := confirmationCode;
             ea_ActionTime := BlockTime ctx; ea_BlockHeight := BlockHeight ctx;
             ea_IsReversible := false; ea_ReversedAt := None; ea_ReversedBy := "" |} in
        let actions := <[deletionID := emergencyAction]> actions in
        let originalContract := ConditionContract capsule in
        let capsule := set_ConditionContract capsule "" in
        let capsule := set_Status capsule CapsuleStatus_UNLOCKED in
        let capsule := set_UpdatedAt capsule (BlockTime ctx) in
        let k := set_capsules k (<[capsuleID := capsule]> (capsules k)) in
        let k := EmitEvent k
                   {| ev_type := "emergency_contract_deleted";
                      ev_attrs := [("capsule_id", fmt_d capsuleID);
                                   ("creator", creator);
                                   ("deletion_id", deletionID);
                                   ("reason", reason);
                                   ("original_contract", originalContract);
                                   ("is_reversible", "false")] |} in
        (Done tt, k, actions)
  end.

(** ** The registered invariants ([keeper/invariants.go])

    Each function returns the flag [broken] of the source; the message that
    goes with it is left out. *)

Definition wrap_uint32 (n : N) : N := (n mod 2 ^ 32)%N.

(** The number of records that [keyShares.Walk] visits in the range of one
    capsule, counted in a [uint32]. *)
Definition shareCount (k : Keeper) (capsuleID : N) : N :=
  wrap_uint32
    (N.of_nat (size (filter (fun kv : N * N * KeyShare => fst (fst kv) = capsuleID)
                            (keyShares k)))).

(** [CapsuleKeySharesInvariant]. *)
Definition CapsuleKeySharesInvariant (k : Keeper) : bool :=
  existsb
    (fun capsuleID =>
       match capsules k !! capsuleID with
       | Some capsule => negb (shareCount k capsuleID =? TotalShares capsule)%N
       | None => false
       end)
    (Walk_keys (capsules k)).

(** The order of the keys of [userCapsules]: by owner, then by
    identifier. *)
Definition index_key_le (a b : string * N) : Prop :=
  String.ltb (fst a) (fst b) = true \/ (fst a = fst b /\ (snd a <= snd b)%N).

#[global] Instance index_key_le_dec a b : Decision (index_key_le a b).
Proof. unfold index_key_le. apply _. Defined.

(** [userCapsules.Walk(ctx, nil, f)]. *)
Definition Walk_index (s : gset (string * N)) : list (string * N) :=
  merge_sort index_key_le (elements s).

(** [CapsuleUserIndexInvariant]. *)
Definition CapsuleUserIndexInvariant (k : Keeper) : bool :=
  let entries := Walk_index (userCapsules k) in
  let broken1 :=
    existsb
      (fun key : string * N =>
         let (owner, capsuleID) := key in
         match GetCapsule k capsuleID with
         | Done capsule => negb (bool_decide (Owner capsule = owner))
         | _ => true
         end)
      entries in
  let userIndexedCapsules : gmap N string :=
    fold_left
      (fun m (key : string * N) =>
         let (owner, capsuleID) := key in
         match GetCapsule k capsuleID with
         | Done _ => <[capsuleID := owner]> m
         | _ => m
         end)
      entries ∅ in
  let broken2 :=
    existsb
      (fun capsuleID =>
         match capsules k !! capsuleID with
         | Some capsule =>
             match userIndexedCapsules !! capsuleID with
             | None => true
             | Some indexedOwner => negb (bool_decide (indexedOwner = Owner capsule))
             end
         | None => false
         end)
      (Walk_keys (capsules k)) in
  broken1 || broken2.

(** What [CapsuleStatusConsistencyInvariant] finds wrong with one capsule. *)
Definition status_inconsistent (currentTime : Time) (capsule : TimeCapsule) : bool :=
  ((bool_decide (Status capsule = CapsuleStatus_CANCELLED) ||
    bool_decide (Status capsule = CapsuleStatus_EXPIRED)) &&
   IsUnlockable capsule currentTime) ||
  (TotalShares capsule <? Threshold capsule)%N ||
  match CapsuleType_ capsule with
  | CapsuleType_TIME_LOCK =>
      match UnlockTime capsule with None => true | Some _ => false end
  | CapsuleType_CONDITIONAL => bool_decide (ConditionContract capsule = "")
  | CapsuleType_MULTI_SIG => (RequiredSigs capsule =? 0)%N
  | CapsuleType_DEAD_MANS_SWITCH =>
      (InactivityPeriod capsule =? 0)%N || bool_decide (Recipient capsule = "")
  | _ => false
  end.

(** [CapsuleStatusConsistencyInvariant]. *)
Definition CapsuleStatusConsistencyInvariant (k : Keeper) (ctx : Ctx) : bool :=
  existsb
    (fun capsuleID =>
       match capsules k !! capsuleID with
       | Some capsule => status_inconsistent (BlockTime ctx) capsule
       | None => false
       end)
    (Walk_keys (capsules k)).

(** * Part II: the vocabulary of the properties *)

(** ** Reference semantics *)

(** The secp256k1 field prime. *)
Definition secp256k1_prime : Z := 2 ^ 256 - 2 ^ 32 - 977.

(** The mathematical value of a polynomial, constant term first. *)
Fixpoint poly_eval (coefficients : list Z) (x : Z) : Z :=
  match coefficients with
  | [] => 0
  | c :: rest => c + x * poly_eval rest x
  end.

(** [buf] without its leading zero bytes. *)
Fixpoint strip_zeros (buf : list byte) : list byte :=
  match buf with
  | [] => []
  | b :: rest => if Byte.eqb b x00 then strip_zeros rest else buf
  end.

Definition prodZ (l : list Z) : Z := fold_right Z.mul 1 l.

(** The product over the positions [j] of [others] other than [i]. *)

Fixpoint prod_skip (f : Shamir.Share -> Z) (i j : nat) (others : list Shamir.Share) : Z :=
  match others with
  | [] => 1
  | o :: rest => (if Nat.eqb i j then 1 else f o) * prod_skip f i (S j) rest
  end.

(** What the walk does to one capsule record. *)
Definition tick_capsule (currentTime : Time) (capsule : TimeCapsule) : TimeCapsule :=
  if bool_decide (Status capsule = CapsuleStatus_ACTIVE) &&
     bool_decide (CapsuleType_ capsule = CapsuleType_DEAD_MANS_SWITCH) &&
     match ExpiresAt capsule with
     | Some e => After currentTime e
     | None => false
     end
  then set_UpdatedAt (set_Status capsule CapsuleStatus_EXPIRED) currentTime
  else capsule.

(** The guards of [OpenCapsule] up to the share count. *)
Definition open_guards (host : Host) (k : Keeper) (ctx : Ctx) (id : N)
           (c : TimeCapsule) (accessor : string) : Prop :=
  capsules k !! id = Some c /\
  StringToBytes_ok host accessor = true /\
  Status c = CapsuleStatus_ACTIVE /\
  canAccess c accessor = true /\
  IsUnlockable c (BlockTime ctx) = true.

Definition set_ShareHolders (c : TimeCapsule) (hs : list string) : TimeCapsule :=
  {| ID := ID c; Owner := Owner c; Recipient := Recipient c;
     CapsuleType_ := CapsuleType_ c; Status := Status c;
     EncryptedData_ := EncryptedData_ c; DataHash := DataHash c;
     EncryptionAlgo := EncryptionAlgo c; IPFSHash := IPFSHash c;
     DataSize := DataSize c; StorageType := StorageType c;
     UnlockTime := UnlockTime c; ConditionContract := ConditionContract c;
     RequiredSigs := RequiredSigs c; Threshold := Threshold c;
     TotalShares := TotalShares c; ShareHolders := hs;
     CreatedAt := CreatedAt c; UpdatedAt := UpdatedAt c;
     ExpiresAt := ExpiresAt c; LastActivity := LastActivity c;
     InactivityPeriod := InactivityPeriod c; Title := Title c;
     Description := Description c; Tags := Tags c; Metadata := Metadata c |}.

(** ** Lagrange interpolation at zero, over the integers modulo [p] *)

Module Lagrange.

Section Definitions.

Variable p : Z.

Local Abbreviation F := (Zmod p).

Local Open Scope Zmod_scope.

(** The factor contributed by the node [a] to the basis value at zero of
    another node [x]: [(0 - a) / (x - a)]. *)
Definition h (a x : F) : F := Zmod.mdiv (- a) (x - a).

(** The basis value at zero of the node [x] among the other nodes. *)
Fixpoint w (x : F) (others : list F) : F :=
  match others with
  | [] => 1
  | o :: rest => h o x * w x rest
  end.

(** The interpolation sum, each node of [post] against all others. *)
Fixpoint isum (f : F -> F) (pre post : list F) : F :=
  match post with
  | [] => 0
  | x :: post' => f x * w x (pre ++ post') + isum f (pre ++ [x]) post'
  end.

(** Horner evaluation, constant term first. *)
Fixpoint pe (cs : list F) (x : F) : F :=
  match cs with
  | [] => 0
  | c :: rest => c + x * pe rest x
  end.

(** Synthetic division by [X - a]: remainder and quotient. *)
Fixpoint sd (a : F) (cs : list F) : F * list F :=
  match cs with
  | [] => (0, [])
  | c :: rest =>
      match rest with
      | [] => (c, [])
      | _ => let '(r, q) := sd a rest in (c + a * r, r :: q)
      end
  end.

End Definitions.

End Lagrange.

(** ** Primality certificates

    A number is shown prime by a chain of Pocklington certificates ending in
    primes small enough for trial division. *)

Fixpoint pow_mod_pos (a : Z) (e : positive) (m : Z) : Z :=
  match e with
  | xH => a mod m
  | xO e' => let r := pow_mod_pos a e' m in (r * r) mod m
  | xI e' => let r := pow_mod_pos a e' m in ((r * r) mod m * a) mod m
  end.

Definition pow_mod (a e m : Z) : Z :=
  match e with
  | Z0 => 1 mod m
  | Zpos e' => pow_mod_pos a e' m
  | Zneg _ => 0
  end.

Fixpoint trial (fuel : nat) (d n : Z) : bool :=
  match fuel with
  | O => false
  | S fuel' =>
      if n <? d * d then true
      else if n mod d =? 0 then false
      else trial fuel' (d + 1) n
  end.

Definition prime_by_trial (n : Z) : bool :=
  (1 <? n) && trial (Z.to_nat (Z.sqrt n) + 1) 2 n.

(** One entry [(q, a)] of a certificate for [N]: [q] divides [N - 1] and
    [a] is a witness for [q]. *)
Definition pock_entry (N : Z) (qa : Z * Z) : bool :=
  let '(q, a) := qa in
  (1 <? q) && ((N - 1) mod q =? 0) && (pow_mod a (N - 1) N =? 1) &&
  (Z.gcd (pow_mod a ((N - 1) / q) N - 1) N =? 1).

Definition pock_ok (N : Z) (cert : list (Z * Z)) : bool :=
  (1 <? N) && forallb (pock_entry N) cert &&
  bool_decide (NoDup (map fst cert)) &&
  (N <? prodZ (map fst cert) * prodZ (map fst cert)).

(** ** A reference host for running the handlers

    Addresses are valid when non-empty, the cipher appends a one-byte tag,
    the digest is the data itself behind a marker, and there is no IPFS
    daemon. Only the concrete runs below use it. *)

Module Toy.

Definition addr_ok (s : string) : bool := negb (bool_decide (s = ""%string)).

Definition seal (key nonce data : list byte) : list byte := data ++ [xff].

Definition open (key nonce data : list byte) : option (list byte) :=
  match reverse data with
  | b :: rest => if Byte.eqb b xff then Some (reverse rest) else None
  | [] => None
  end.

Definition digest (data : list byte) : string :=
  ("h" +:+ string_of_list_byte data)%string.

Definition host : Host :=
  {| StringToBytes_ok := addr_ok;
     AccAddressFromBech32_ok := addr_ok;
     aead_seal := seal;
     aead_open := open;
     sha256_hex := digest;
     ipfs_store := fun _ _ => None;
     ipfs_retrieve := fun _ _ => None |}.

Definition empty_keeper : Keeper :=
  {| capsules := ∅; userCapsules := ∅; keyShares := ∅; capsuleCounter := 1;
     transferHistory := ∅; pendingTransfers := ∅; transferStats := None;
     events := [] |}.

(** A capsule record with the given kind, parties and unlock time. *)
Definition capsule_of (id : N) (kind : CapsuleType) (owner recipient : string)
           (unlock : option Time) : TimeCapsule :=
  {| ID := id; Owner := owner; Recipient := recipient; CapsuleType_ := kind;
     Status := CapsuleStatus_ACTIVE; EncryptedData_ := [x01; xff];
     DataHash := "h"; EncryptionAlgo := "AES-256-GCM"; IPFSHash := "";
     DataSize := 1; StorageType := "blockchain"; UnlockTime := unlock;
     ConditionContract := ""; RequiredSigs := 0; Threshold := 2;
     TotalShares := 3; ShareHolders := [""; ""; ""]%string;
     CreatedAt := 0; UpdatedAt := 0; ExpiresAt := None; LastActivity := None;
     InactivityPeriod := 0; Title := ""; Description := ""; Tags := [];
     Metadata := ∅ |}.

End Toy.

(** ** Sample states and inputs *)

Definition keeper_with (c : TimeCapsule) : Keeper :=
  set_capsules Toy.empty_keeper (<[ID c := c]> ∅).

Definition timelock_sample : TimeCapsule :=
  Toy.capsule_of 1 CapsuleType_TIME_LOCK "alice" "bob" (Some 60).

Definition keeper_timelock : Keeper := keeper_with timelock_sample.

Definition safe_sample : TimeCapsule :=
  Toy.capsule_of 2 CapsuleType_SAFE "alice" "bob" None.

Definition pending_sample : PendingTransfer :=
  {| pt_TransferID := "t1"; pt_CapsuleID := 1; pt_FromOwner := "alice";
     pt_ToOwner := "bob"; pt_RequestTime := 0; pt_ExpiryTime := 100;
     pt_Message := ""; pt_RequireApproval := true; pt_Status := "pending" |}.

Definition keeper_pending : Keeper :=
  set_pendingTransfers
    (keeper_with (Toy.capsule_of 1 CapsuleType_SAFE "alice" "" None))
    (<["t1"%string := pending_sample]> ∅).

Definition approve_msg (approved : bool) : MsgApproveTransfer :=
  {| msg_Approver := "bob"; msg_TransferID := "t1"; msg_CapsuleID := 1;
     msg_Approved := approved |}.

(** The shares of the one-byte secret [0x2a] split with threshold 2 into 3
    shares, the random coefficient being 7. *)
Definition split_sample : list Shamir.Share :=
  match fst (Shamir.SplitSecret Shamir.NewShamirSecretSharing [7] [x2a] 2 3) with
  | Shamir.Ok shares => shares
  | Shamir.Fail _ => []
  end.

(** Two copies of the first share of [split_sample], then the two others. *)
Definition shares_dup_then_valid : list Shamir.Share :=
  take 1 split_sample ++ split_sample.

(** The scenario of a time-locked capsule: created by alice for bob, with
    threshold 2 of 3 shares, to unlock 60 seconds after its creation. *)

Module Scenario.

Definition second : Z := Second.

Definition created_at : Time := 1000 * second.

Definition unlock_time : Time := created_at + 60 * second.

Definition hello : list byte := [x68; x65; x6c; x6c; x6f].

(** Entropy for the key (32 bytes), the nonce (12 bytes) and one
    coefficient. *)
Definition tape : Reader := map Z.of_nat (seq 1 45).

Definition tape' : Reader := map Z.of_nat (seq 2 45).

Definition create_ctx : Ctx := {| BlockTime := created_at; BlockHeight := 10 |}.

(** The message of scenario S1, run with the wall clock at [now]. *)
Definition create (now : Time) (r : Reader) : Outcome TimeCapsule * Keeper * Reader :=
  CreateCapsule Toy.host Toy.empty_keeper create_ctx now r "alice" "bob" hello
    CapsuleType_TIME_LOCK 2 3 (Some unlock_time) "" ∅.

Definition created : Keeper := snd (fst (create created_at tape)).

(** The shares held by the first two custodians, decoded from their
    records. *)
Definition custodian_share (k : Keeper) (id i : N) : list Shamir.Share :=
  match keyShares k !! (id, i) with
  | Some ks => match bytesToShare (ks_EncryptedShare ks) with
               | Some s => [s]
               | None => []
               end
  | None => []
  end.

Definition two_shares : list Shamir.Share :=
  custodian_share created 1 0 ++ custodian_share created 1 1.

End Scenario.

(** A 32-byte key whose first byte is zero. *)
Definition key_leading_zero : list byte := x00 :: map byte_of_Z (seqZ 1 31).

Definition shares_leading_zero : list Shamir.Share :=
  match fst (Shamir.SplitSecret Shamir.NewShamirSecretSharing [7]
               key_leading_zero 2 3) with
  | Shamir.Ok shares => shares
  | Shamir.Fail _ => []
  end.

(** The law of an authenticated cipher: what was sealed under a key and a
    nonce opens under the same key and nonce. *)
Definition aead_correct (host : Host) : Prop :=
  forall key nonce data,
    aead_open host key nonce (aead_seal host key nonce data) = Some data.

(** A key derivation for the reference host: the salt, padded or cut to the
    wanted length. *)
Definition toy_kdf (password : string) (salt : list byte) (n : nat)
  : option (list byte) :=
  Some (take n (salt ++ replicate n x00)).

(** A share whose coordinates [shareToBytes] writes without loss: not
    negative and of fewer than 524280 bits (65535 bytes). *)
Definition share_fits (s : Shamir.Share) : Prop :=
  (0 <= Shamir.X s /\ Z.log2 (Shamir.X s) < 524280) /\
  (0 <= Shamir.Y s /\ Z.log2 (Shamir.Y s) < 524280).

(** The key derivation of the host returns a key of the wanted 32 bytes for
    every password and salt. *)
Definition kdf_total (scrypt_Key : string -> list byte -> nat -> option (list byte))
  : Prop :=
  forall password salt,
    exists key, scrypt_Key password salt 32%nat = Some key /\ length key = 32%nat.

(** The record that [CreateCapsule] builds for a capsule stored on chain. *)
Definition new_capsule (host : Host) (ctx : Ctx) (capsuleID : N)
           (owner recipient : string) (data ciphertext : list byte)
           (capsuleType : CapsuleType) (threshold totalShares : N)
           (unlockTime : option Time) (conditionContract : string)
           (metadata : gmap string string) : TimeCapsule :=
  {| ID := capsuleID; Owner := owner; Recipient := recipient;
     CapsuleType_ := capsuleType; Status := CapsuleStatus_ACTIVE;
     EncryptedData_ := ciphertext; DataHash := HashData host data;
     EncryptionAlgo := "AES-256-GCM"; IPFSHash := "";
     DataSize := Z.of_nat (length data); StorageType := "blockchain";
     UnlockTime := unlockTime; ConditionContract := conditionContract;
     RequiredSigs := 0%N; Threshold := threshold; TotalShares := totalShares;
     ShareHolders := replicate (N.to_nat totalShares) ""%string;
     CreatedAt := BlockTime ctx; UpdatedAt := BlockTime ctx; ExpiresAt := None;
     LastActivity :=
       if bool_decide (capsuleType = CapsuleType_DEAD_MANS_SWITCH)
       then Some (BlockTime ctx) else None;
     InactivityPeriod := 0%N; Title := ""; Description := ""; Tags := [];
     Metadata := metadata |}.

(** The state after a successful [CreateCapsule], from the state before. *)
Definition after_create (k : Keeper) (ctx : Ctx) (c : TimeCapsule)
           (shares : list Shamir.Share) : Keeper :=
  let k := set_capsuleCounter k (wrap_uint64 (capsuleCounter k + 1)) in
  let k := set_capsules k (<[ID c := c]> (capsules k)) in
  let k := set_userCapsules k ({[(Owner c, ID c)]} ∪ userCapsules k) in
  let k := distributeKeyShares k ctx (ID c) shares in
  EmitEvent k
    {| ev_type := "capsule_created";
       ev_attrs := [("capsule_id", fmt_d (ID c)); ("owner", Owner c);
                    ("recipient", Recipient c);
                    ("capsule_type", CapsuleType_String (CapsuleType_ c));
                    ("data_hash", DataHash c)] |}.

(** The record that [distributeKeyShares] stores for share number [j]. *)
Definition share_record (ctx : Ctx) (capsuleID j : N) (share : Shamir.Share)
  : KeyShare :=
  {| ks_CapsuleID := capsuleID; ks_ShareIndex := j;
     ks_NodeID := ("masternode-" +:+ fmt_d j)%string;
     ks_EncryptedShare := ShareToBytes share; ks_CreatedAt := BlockTime ctx |}.

(** The share that the stored record [(capsuleID, j)] parses to. *)
Definition record_share (k : Keeper) (capsuleID j : N) : option Shamir.Share :=
  match keyShares k !! (capsuleID, j) with
  | Some ks => bytesToShare (ks_EncryptedShare ks)
  | None => None
  end.

(** The capsule of the scenario, as [CreateCapsule] stores it. *)
Definition created_capsule : TimeCapsule :=
  new_capsule Toy.host Scenario.create_ctx 1 "alice" "bob" Scenario.hello
    (Scenario.hello ++ [xff]) CapsuleType_TIME_LOCK 2 3
    (Some Scenario.unlock_time) "" ∅.

(** A dead man's switch of alice for bob with an inactivity period of 30
    seconds. *)
Definition switch_sample : TimeCapsule :=
  {| ID := 3; Owner := "alice"; Recipient := "bob";
     CapsuleType_ := CapsuleType_DEAD_MANS_SWITCH;
     Status := CapsuleStatus_ACTIVE; EncryptedData_ := [x01; xff];
     DataHash := "h"; EncryptionAlgo := "AES-256-GCM"; IPFSHash := "";
     DataSize := 1; StorageType := "blockchain"; UnlockTime := None;
     ConditionContract := ""; RequiredSigs := 0; Threshold := 2;
     TotalShares := 3; ShareHolders := [""; ""; ""]%string;
     CreatedAt := 0; UpdatedAt := 0; ExpiresAt := None; LastActivity := Some 0;
     InactivityPeriod := 30; Title := ""; Description := ""; Tags := [];
     Metadata := ∅ |}.

(** The user index agrees with the owners of the capsules: what
    [CapsuleUserIndexInvariant] checks. *)
Definition index_consistent (k : Keeper) : Prop :=
  (forall owner id, (owner, id) ∈ userCapsules k ->
     exists c, capsules k !! id = Some c /\ Owner c = owner) /\
  (forall id c, capsules k !! id = Some c -> (Owner c, id) ∈ userCapsules k).

(** A keeper holding one capsule, indexed under its owner. *)
Definition keeper_indexed (c : TimeCapsule) : Keeper :=
  set_userCapsules (keeper_with c) {[(Owner c, ID c)]}.


(** A conditional capsule of a creator with a well-formed address. *)
Definition conditional_sample : TimeCapsule :=
  {| ID := 4; Owner := "cosmos1qypqxpq9qcrsszg2pvxq6rs0zqg3yyc5lzv7xu";
     Recipient := "bob"; CapsuleType_ := CapsuleType_CONDITIONAL;
     Status := CapsuleStatus_ACTIVE; EncryptedData_ := [x01; xff];
     DataHash := "h"; EncryptionAlgo := "AES-256-GCM"; IPFSHash := "";
     DataSize := 1; StorageType := "blockchain"; UnlockTime := None;
     ConditionContract := "contract-7"; RequiredSigs := 0; Threshold := 2;
     TotalShares := 3; ShareHolders := [""; ""; ""]%string;
     CreatedAt := 0; UpdatedAt := 0; ExpiresAt := None; LastActivity := None;
     InactivityPeriod := 0; Title := ""; Description := ""; Tags := [];
     Metadata := ∅ |}.

(** No key share is stored under the identifier [id]. *)
Definition no_shares_of (k : Keeper) (id : N) : Prop :=
  forall j, keyShares k !! (id, j) = None.

(** A capsule of carol, indexed under her, and a pending transfer of the
    same capsule from alice to bob. *)
Definition keeper_stale_pending : Keeper :=
  set_pendingTransfers
    (keeper_indexed (Toy.capsule_of 1 CapsuleType_SAFE "carol" "" None))
    (<["t1"%string := pending_sample]> ∅).

(** One state change of the module: the store that a handler of the message
    server or the block hook leaves, whatever it returns. The first two
    handlers of the message server reach the store only through
    [Keeper.CreateCapsule] and [Keeper.OpenCapsule]. *)
Inductive module_step (host : Host) (k : Keeper) : Keeper -> Prop :=
| step_CreateCapsule ctx now r owner recipient data capsuleType threshold
    totalShares unlockTime conditionContract metadata :
    module_step host k
      (snd (fst (CreateCapsule host k ctx now r owner recipient data capsuleType
                   threshold totalShares unlockTime conditionContract metadata)))
| step_OpenCapsule ctx capsuleID accessor providedShares :
    module_step host k (snd (OpenCapsule host k ctx capsuleID accessor providedShares))
| step_UpdateActivity ctx msg :
    module_step host k (snd (MsgServer_UpdateActivity k ctx msg))
| step_CancelCapsule ctx msg :
    module_step host k (snd (CancelCapsule k ctx msg))
| step_TransferCapsule ctx msg :
    module_step host k (snd (TransferCapsule k ctx msg))
| step_BatchTransferCapsules SendCoins ctx msg :
    module_step host k (snd (BatchTransferCapsules SendCoins k ctx msg))
| step_ApproveTransfer ctx msg :
    module_step host k (snd (ApproveTransfer k ctx msg))
| step_EmergencyDeleteContract actions ctx capsuleID creator reason confirmationCode :
    module_step host k
      (snd (fst (EmergencyDeleteContract k actions ctx capsuleID creator reason
                   confirmationCode)))
| step_BeginBlocker ctx :
    module_step host k (BeginBlocker k ctx).

(** ** Masking polynomials

    Polynomials over the field of the scheme, constant term first, used to
    compare the shares of two secrets. *)

Module Masking.

Section Definitions.

Variable p : Z.

Local Abbreviation F := (Zmod p).

Local Open Scope Zmod_scope.

(** The sum of two polynomials. *)
Fixpoint padd (a b : list F) : list F :=
  match a, b with
  | [], _ => b
  | _, [] => a
  | x :: a', y :: b' => (x + y) :: padd a' b'
  end.

(** The product of a polynomial by [1 - b X]. *)
Definition plin (b : F) (cs : list F) : list F :=
  padd cs (0 :: map (fun c => - b * c) cs).

(** [d] times the product of [1 - X / a] over the nodes [a]: the
    polynomial with the value [d] at zero that vanishes at every node. *)
Definition mask (d : F) (nodes : list F) : list F :=
  fold_right (fun a acc => plin (Zmod.inv a) acc) [d] nodes.

End Definitions.

End Masking.

(** No stored capsule has an expiry time. *)
Definition expiry_free (k : Keeper) : Prop :=
  forall id c, capsules k !! id = Some c -> ExpiresAt c = None.

(** * Part III: properties *)

(** ** Big-endian bytes *)

Lemma Z_of_byte_range b : 0 <= Z_of_byte b < 256.
Proof.
  unfold Z_of_byte. pose proof (Byte.to_N_bounded b). lia.
Qed.

Lemma Z_of_byte_zero b : Z_of_byte b = 0 -> b = x00.
Proof.
  unfold Z_of_byte. intros H.
  assert (E : Byte.to_N b = 0%N) by lia.
  pose proof (Byte.of_to_N b) as H1. rewrite E in H1. cbn in H1. now inversion H1.
Qed.

Lemma byte_of_Z_of_byte z b : byte_of_Z (z * 256 + Z_of_byte b) = b.
Proof.
  unfold byte_of_Z.
  pose proof (Z_of_byte_range b).
  rewrite Z.add_comm, Z_mod_plus_full, Z.mod_small by assumption.
  unfold Z_of_byte. rewrite N2Z.id, Byte.of_to_N. reflexivity.
Qed.

Lemma SetBytes_snoc buf b : SetBytes (buf ++ [b]) = SetBytes buf * 256 + Z_of_byte b.
Proof. unfold SetBytes. now rewrite fold_left_app. Qed.

Lemma SetBytes_nonneg buf : 0 <= SetBytes buf.
Proof.
  induction buf as [|b buf IH] using rev_ind; [reflexivity|].
  rewrite SetBytes_snoc. pose proof (Z_of_byte_range b). lia.
Qed.

Lemma SetBytes_zero_head buf : SetBytes (x00 :: buf) = SetBytes buf.
Proof. reflexivity. Qed.

Lemma SetBytes_strip buf : SetBytes (strip_zeros buf) = SetBytes buf.
Proof.
  induction buf as [|b buf IH]; [reflexivity|]. cbn [strip_zeros].
  destruct (Byte.eqb b x00) eqn:E; [|reflexivity].
  apply Byte.byte_dec_bl in E. subst b. now rewrite IH.
Qed.

Lemma SetBytes_pos buf b : b <> x00 -> 0 < SetBytes (b :: buf).
Proof.
  intros Hb. induction buf as [|c buf IH] using rev_ind.
  - cbn. pose proof (Z_of_byte_range b).
    assert (Z_of_byte b <> 0) by (intros H0; now apply Hb, Z_of_byte_zero). lia.
  - rewrite app_comm_cons, SetBytes_snoc. pose proof (Z_of_byte_range c). lia.
Qed.

Lemma strip_zeros_length buf : (length (strip_zeros buf) <= length buf)%nat.
Proof.
  induction buf as [|b buf IH]; cbn; [lia|].
  destruct (Byte.eqb b x00); cbn; lia.
Qed.

Lemma strip_zeros_head buf : strip_zeros (x00 :: buf) <> x00 :: buf.
Proof.
  cbn. intros Hs. pose proof (strip_zeros_length buf) as Hl.
  rewrite Hs in Hl. cbn in Hl. lia.
Qed.

Lemma Bytes_loop_zero fuel acc : Bytes_loop fuel 0 acc = acc.
Proof. destruct fuel; reflexivity. Qed.

Lemma Bytes_loop_spec : forall buf fuel acc,
  strip_zeros buf = buf -> (length buf <= fuel)%nat ->
  Bytes_loop fuel (SetBytes buf) acc = buf ++ acc.
Proof.
  induction buf as [|b buf IH] using rev_ind; intros fuel acc Hs Hlen.
  - apply Bytes_loop_zero.
  - rewrite length_app in Hlen. cbn in Hlen.
    destruct fuel as [|fuel]; [lia|]. cbn [Bytes_loop].
    assert (Hpos : 0 < SetBytes (buf ++ [b])).
    { destruct buf as [|c buf].
      - cbn [app] in *. apply SetBytes_pos. intros ->. discriminate.
      - cbn [app] in *. apply SetBytes_pos. intros ->.
        now apply strip_zeros_head in Hs. }
    destruct (Z.eqb_spec (SetBytes (buf ++ [b])) 0); [lia|].
    rewrite SetBytes_snoc, byte_of_Z_of_byte.
    pose proof (Z_of_byte_range b).
    replace ((SetBytes buf * 256 + Z_of_byte b) / 256) with (SetBytes buf)
      by (apply Z.div_unique with (Z_of_byte b); lia).
    rewrite IH; [now rewrite <- app_assoc| |lia].
    destruct buf as [|c buf]; [reflexivity|].
    cbn [app strip_zeros] in Hs |- *.
    destruct (Byte.eqb c x00) eqn:Ec; [|reflexivity].
    exfalso. apply Byte.byte_dec_bl in Ec. subst c.
    apply (strip_zeros_head (buf ++ [b])). cbn [strip_zeros Byte.eqb]. exact Hs.
Qed.

Lemma strip_zeros_idem buf : strip_zeros (strip_zeros buf) = strip_zeros buf.
Proof.
  induction buf as [|b buf IH]; [reflexivity|]. cbn [strip_zeros].
  destruct (Byte.eqb b x00) eqn:E; [assumption|]. cbn [strip_zeros]. now rewrite E.
Qed.

Lemma SetBytes_lower buf b :
  b <> x00 -> 2 ^ (Z.of_nat (length buf)) <= SetBytes (b :: buf).
Proof.
  intros Hb. induction buf as [|c buf IH] using rev_ind.
  - pose proof (SetBytes_pos [] b Hb). cbn [length]. change (2 ^ Z.of_nat 0) with 1. lia.
  - rewrite app_comm_cons, SetBytes_snoc, length_app. cbn [length].
    rewrite Nat2Z.inj_add, Z.pow_add_r by lia. change (2 ^ Z.of_nat 1) with 2.
    pose proof (Z_of_byte_range c). lia.
Qed.

(** [Bytes] undoes [SetBytes] up to the leading zero bytes. *)
Lemma Bytes_SetBytes buf : Bytes (SetBytes buf) = strip_zeros buf.
Proof.
  rewrite <- (SetBytes_strip buf). unfold Bytes.
  rewrite Z.abs_eq by apply SetBytes_nonneg.
  rewrite <- (app_nil_r (strip_zeros buf)) at 3.
  apply Bytes_loop_spec; [apply strip_zeros_idem|].
  pose proof (strip_zeros_idem buf) as Hs.
  destruct (strip_zeros buf) as [|b rest]; [cbn; lia|].
  assert (Hb : b <> x00).
  { intros ->. now apply strip_zeros_head in Hs. }
  pose proof (SetBytes_lower rest b Hb) as Hlow.
  pose proof (SetBytes_pos rest b Hb) as Hpos.
  apply Z.log2_le_pow2 in Hlow; [|assumption]. cbn [length]. lia.
Qed.

(** ** Polynomial evaluation and the range of the results *)

Lemma big_Mod_pos x m : 0 < m -> big_Mod x m = x mod m.
Proof. intros Hm. unfold big_Mod. now rewrite Z.abs_eq by lia. Qed.

Lemma evaluatePolynomial_loop_spec sss cs x acc xp :
  0 < Shamir.prime sss ->
  Shamir.evaluatePolynomial_loop sss cs x acc xp mod Shamir.prime sss
  = (acc + xp * poly_eval cs x) mod Shamir.prime sss.
Proof.
  intros Hp. revert acc xp.
  induction cs as [|c cs IH]; intros acc xp; simpl.
  - f_equal. lia.
  - rewrite IH. rewrite !big_Mod_pos by assumption.
    rewrite Z.add_mod, (Z.mul_mod (_ mod _)) by lia.
    rewrite !Z.mod_mod by lia.
    rewrite <- Z.mul_mod, <- Z.add_mod by lia.
    f_equal. ring.
Qed.

Lemma evaluatePolynomial_loop_range sss cs x acc xp :
  0 < Shamir.prime sss -> 0 <= acc < Shamir.prime sss ->
  0 <= Shamir.evaluatePolynomial_loop sss cs x acc xp < Shamir.prime sss.
Proof.
  intros Hp. revert acc xp.
  induction cs as [|c cs IH]; intros acc xp Hacc; simpl; [assumption|].
  apply IH. rewrite big_Mod_pos by assumption. apply Z.mod_pos_bound; lia.
Qed.

Lemma evaluatePolynomial_spec sss cs x :
  0 < Shamir.prime sss ->
  Shamir.evaluatePolynomial sss cs x = poly_eval cs x mod Shamir.prime sss.
Proof.
  intros Hp. unfold Shamir.evaluatePolynomial.
  rewrite <- (Z.mod_small (Shamir.evaluatePolynomial_loop sss cs x 0 1) (Shamir.prime sss))
    by (apply evaluatePolynomial_loop_range; lia).
  rewrite evaluatePolynomial_loop_spec by assumption.
  f_equal. lia.
Qed.

Lemma NewShamir_prime_pos : 0 < Shamir.prime Shamir.NewShamirSecretSharing.
Proof. reflexivity. Qed.

Lemma combine_loop_range sss shares i todo acc z :
  0 < Shamir.prime sss -> 0 <= acc < Shamir.prime sss ->
  Shamir.combine_loop sss shares i todo acc = Shamir.Ok z ->
  0 <= z < Shamir.prime sss.
Proof.
  intros Hp. revert i acc.
  induction todo as [|s todo IH]; intros i acc Hacc H; simpl in H.
  - now inversion H; subst.
  - destruct (Shamir.basis_loop sss i s 0 shares 1 1) as [num den].
    destruct (ModInverse den (Shamir.prime sss)) as [inv|]; [|discriminate].
    eapply IH; [|exact H].
    rewrite big_Mod_pos by assumption. apply Z.mod_pos_bound; lia.
Qed.

Lemma combine_int_range sss shares z :
  0 < Shamir.prime sss ->
  Shamir.combine_int sss shares = Shamir.Ok z -> 0 <= z < Shamir.prime sss.
Proof.
  intros Hp H. unfold Shamir.combine_int in H.
  destruct (length shares <? 1)%nat; [discriminate|].
  destruct (Shamir.find_duplicate ∅ shares); [discriminate|].
  eapply combine_loop_range; [assumption| |exact H]. lia.
Qed.

(** ** Primality of the modulus *)

Lemma pow_mod_pos_spec a e m : m <> 0 -> pow_mod_pos a e m = a ^ Zpos e mod m.
Proof.
  intros Hm. induction e as [e IH|e IH|]; cbn [pow_mod_pos].
  - rewrite IH, Pos2Z.inj_xI, Z.pow_add_r, Z.pow_twice_r, Z.pow_1_r by lia.
    rewrite <- Z.mul_mod by assumption. now rewrite Z.mul_mod_idemp_l.
  - rewrite IH, Pos2Z.inj_xO, Z.pow_twice_r. now rewrite <- Z.mul_mod.
  - now rewrite Z.pow_1_r.
Qed.

Lemma pow_mod_spec a e m : m <> 0 -> 0 <= e -> pow_mod a e m = a ^ e mod m.
Proof.
  intros Hm He. destruct e as [|e|e]; [reflexivity| |lia].
  now apply pow_mod_pos_spec.
Qed.

Lemma small_divisor n m :
  1 < m < n -> (m | n) -> exists k, 1 < k /\ k * k <= n /\ (k | n).
Proof.
  intros Hm [c Hc].
  assert (1 < c) by nia.
  destruct (Z.le_gt_cases m c).
  - exists m. repeat split; [lia|nia|now exists c].
  - exists c. repeat split; [lia|nia|]. exists m. lia.
Qed.

Lemma trial_sound fuel : forall d n,
  trial fuel d n = true -> 1 < d ->
  (forall k, 1 < k < d -> ~ (k | n)) ->
  forall k, 1 < k -> k * k <= n -> ~ (k | n).
Proof.
  induction fuel as [|fuel IH]; intros d n Ht Hd Hlow k Hk Hkk; [discriminate|].
  cbn [trial] in Ht.
  destruct (Z.ltb_spec n (d * d)).
  - apply Hlow. nia.
  - destruct (Z.eqb_spec (n mod d) 0) as [|Hmod]; [discriminate|].
    apply (IH (d + 1) n Ht); [lia| |assumption|assumption].
    intros k' Hk'. destruct (Z.eq_dec k' d) as [->|].
    + intros Hdiv. apply Hmod. now apply Z.mod0_divide.
    + apply Hlow. lia.
Qed.

Lemma prime_by_trial_sound n : prime_by_trial n = true -> Z.prime n.
Proof.
  unfold prime_by_trial. intros [Hn Ht]%andb_true_iff.
  apply Z.ltb_lt in Hn. split; [assumption|].
  intros m Hm Hdiv.
  destruct (small_divisor n m Hm Hdiv) as (k & Hk & Hkk & Hkn).
  revert Hkn. apply (trial_sound _ 2 n Ht); [lia| |assumption|assumption].
  intros k' Hk'. lia.
Qed.

Lemma exists_prime_divisor : forall (b : nat) (d : Z),
  1 < d -> (Z.to_nat d <= b)%nat -> exists P, Z.prime P /\ (P | d).
Proof.
  induction b as [|b IH]; intros d Hd Hb; [lia|].
  destruct (prime_dec d) as [Hpr|Hnp].
  - exists d. split; [now apply prime_alt|apply Z.divide_refl].
  - destruct (not_prime_divide d Hd Hnp) as (n & Hn & Hnd).
    destruct (IH n) as (P & HP & HPn); [lia|lia|].
    exists P. split; [assumption|]. now apply Z.divide_trans with n.
Qed.

Lemma mod_one_pow x k P : 1 < P -> 0 <= k -> x mod P = 1 -> x ^ k mod P = 1.
Proof.
  intros HP Hk Hx. rewrite <- Z.mod_pow_l, Hx, Z.pow_1_l by assumption.
  apply Z.mod_1_l. lia.
Qed.

Lemma mod_divide_transfer x N P r :
  (P | N) -> N <> 0 -> x mod N = r -> x mod P = r mod P.
Proof.
  intros [c Hc] HN Hx.
  rewrite (Z.div_mod x N HN), Hx. generalize (x / N). intros k. subst N.
  replace (c * P * k + r) with (r + c * k * P) by ring.
  apply Z_mod_plus_full.
Qed.

(** The step of Pocklington's criterion: a prime [q] with a witness divides
    [P - 1] for every prime divisor [P] of [N]. *)
Lemma pock_divisor N q a P :
  1 < N -> Z.prime q -> (q | N - 1) ->
  a ^ (N - 1) mod N = 1 ->
  Z.gcd (a ^ ((N - 1) / q) - 1) N = 1 ->
  Z.prime P -> (P | N) -> (q | P - 1).
Proof.
  intros HN Hq Hqd Ha Hg HP HPN.
  pose proof (Z.prime_ge_2 _ Hq) as Hq2. pose proof (Z.prime_ge_2 _ HP) as HP2.
  set (e := (N - 1) / q) in *.
  assert (He : N - 1 = e * q).
  { destruct Hqd as [c Hc]. unfold e. rewrite Hc, Z.div_mul by lia. reflexivity. }
  assert (He0 : 0 <= e) by nia.
  set (b := a ^ e) in *.
  assert (Hbq : b ^ q mod P = 1).
  { unfold b. rewrite <- Z.pow_mul_r, <- He by lia.
    rewrite (mod_divide_transfer _ N P 1 HPN) by (lia || assumption).
    apply Z.mod_1_l. lia. }
  assert (Hb1 : b mod P <> 1).
  { intros Hb.
    assert (HPb : (P | b - 1)).
    { apply Z.mod_divide; [lia|].
      rewrite Zminus_mod, Hb, (Z.mod_1_l P) by lia. reflexivity. }
    assert (HP1 : (P | 1)).
    { rewrite <- Hg. apply Z.gcd_greatest; assumption. }
    apply Z.divide_1_r in HP1. lia. }
  assert (Hb0 : b mod P <> 0).
  { intros Hb. rewrite <- Z.mod_pow_l, Hb, Z.pow_0_l in Hbq by lia.
    rewrite Z.mod_0_l in Hbq by lia. discriminate. }
  pose proof (Z.fermat_nz P b HP Hb0) as Hf.
  destruct (Z.BoolSpec_divide q (P - 1)) as [Hdiv|Hnd]; [assumption|exfalso].
  apply Z.coprime_prime_l in Hnd; [|assumption].
  destruct (Z.eq_dec (P - 1) 1) as [E1|NE1].
  { rewrite E1, Z.pow_1_r in Hf. contradiction. }
  set (u := Z.invmod q (P - 1)).
  assert (Hu : u * q mod (P - 1) = 1) by (apply Z.invmod_coprime; [lia|assumption]).
  assert (Hu0 : 0 <= u) by (unfold u, Z.invmod; apply Z.mod_pos_bound; lia).
  set (k := u * q / (P - 1)).
  assert (Huq : u * q = (P - 1) * k + 1).
  { unfold k. rewrite <- Hu at 3. apply Z.div_mod. lia. }
  assert (Hk0 : 0 <= k) by (unfold k; apply Z.div_pos; nia).
  apply Hb1.
  assert (H1 : b ^ (u * q) mod P = 1).
  { rewrite (Z.mul_comm u q), Z.pow_mul_r by lia.
    apply mod_one_pow; [lia|assumption|assumption]. }
  rewrite Huq, Z.pow_add_r, Z.pow_1_r, Z.pow_mul_r in H1 by nia.
  rewrite <- Z.mul_mod_idemp_l in H1 by lia.
  rewrite (mod_one_pow (b ^ (P - 1)) k P) in H1 by (lia || assumption).
  now rewrite Z.mul_1_l in H1.
Qed.

Lemma coprime_divide_mul a b m :
  Z.coprime a b -> (a | m) -> (b | m) -> (a * b | m).
Proof.
  intros Hc [x Hx] Hb. subst m.
  assert (Hbx : (b | x)).
  { apply Z.gauss with a; [|now apply Z.Symmetric_coprime].
    now rewrite Z.mul_comm. }
  destruct Hbx as [y ->]. exists y. ring.
Qed.

Lemma prime_not_divide_product q (qs : list Z) :
  Z.prime q -> q ∉ qs -> Forall Z.prime qs -> ~ (q | prodZ qs).
Proof.
  intros Hq. induction qs as [|q' qs IH]; intros Hnotin Hpr; cbn [prodZ fold_right].
  - intros H1%Z.divide_1_r. pose proof (Z.prime_ge_2 _ Hq). lia.
  - apply Forall_cons in Hpr as [Hq' Hpr].
    intros Hd. apply Z.divide_prime_mul in Hd; [|assumption].
    destruct Hd as [H|H].
    + apply Z.divide_prime_prime in H; [|assumption|assumption].
      apply Hnotin. subst. apply list_elem_of_here.
    + revert H. apply IH; [|assumption].
      intros Hin. apply Hnotin. now apply list_elem_of_further.
Qed.

Lemma primes_product_divides (qs : list Z) m :
  NoDup qs -> Forall Z.prime qs -> Forall (fun q => (q | m)) qs ->
  (prodZ qs | m).
Proof.
  induction 1 as [|q qs Hnotin Hnd IH]; intros Hpr Hdiv; cbn [prodZ fold_right].
  - apply Z.divide_1_l.
  - apply Forall_cons in Hpr as [Hq Hpr]. apply Forall_cons in Hdiv as [Hqm Hdiv].
    apply coprime_divide_mul; [|assumption|now apply IH].
    apply Z.coprime_prime_l; [assumption|].
    now apply prime_not_divide_product.
Qed.

Lemma prodZ_primes_pos qs : Forall Z.prime qs -> 0 < prodZ qs.
Proof.
  induction 1 as [|q qs Hq _ IH]; cbn [prodZ fold_right]; [lia|].
  pose proof (Z.prime_ge_2 _ Hq). fold (prodZ qs). nia.
Qed.

(** Pocklington's criterion. *)
Theorem pocklington N (cert : list (Z * Z)) :
  1 < N ->
  NoDup (map fst cert) ->
  Forall (fun qa => Z.prime (fst qa) /\ (fst qa | N - 1) /\
                    snd qa ^ (N - 1) mod N = 1 /\
                    Z.gcd (snd qa ^ ((N - 1) / fst qa) - 1) N = 1) cert ->
  N < prodZ (map fst cert) * prodZ (map fst cert) ->
  Z.prime N.
Proof.
  intros HN Hnd Hcert Hbig. split; [assumption|].
  intros n Hn Hdiv.
  destruct (small_divisor N n Hn Hdiv) as (d & Hd & Hdd & HdN).
  destruct (exists_prime_divisor (Z.to_nat d) d Hd (le_n _)) as (P & HP & HPd).
  assert (HPN : (P | N)) by now apply Z.divide_trans with d.
  assert (HPle : P <= d) by (apply Z.divide_pos_le; [lia|assumption]).
  pose proof (Z.prime_ge_2 _ HP) as HP2.
  assert (Hprimes : Forall Z.prime (map fst cert)).
  { apply Forall_fmap. eapply Forall_impl; [exact Hcert|]. cbn. tauto. }
  assert (HF : (prodZ (map fst cert) | P - 1)).
  { apply primes_product_divides; [assumption|assumption|].
    apply Forall_fmap. eapply Forall_impl; [exact Hcert|].
    intros [q a] (Hq & Hqd & Ha & Hg). cbn [fst snd] in *. cbn.
    now apply (pock_divisor N q a P). }
  apply Z.divide_pos_le in HF; [|lia].
  pose proof (prodZ_primes_pos _ Hprimes). nia.
Qed.

Lemma pock_ok_sound N cert :
  pock_ok N cert = true -> Forall Z.prime (map fst cert) -> Z.prime N.
Proof.
  unfold pock_ok. intros [[[HN Hall]%andb_true_iff Hnd]%andb_true_iff Hbig]%andb_true_iff Hpr.
  apply Z.ltb_lt in HN, Hbig. apply bool_decide_eq_true in Hnd.
  apply (pocklington N cert); try assumption.
  rewrite forallb_forall in Hall. apply Forall_forall. intros [q a] Hin.
  specialize (Hall (q, a) (proj1 (list_elem_of_In _ _) Hin)).
  unfold pock_entry in Hall.
  apply andb_true_iff in Hall as [[[Hq Hmod]%andb_true_iff Hpow]%andb_true_iff Hg].
  apply Z.ltb_lt in Hq. apply Z.eqb_eq in Hmod, Hpow, Hg.
  assert (Hqd : (q | N - 1)) by (apply Z.mod_divide; [lia|assumption]).
  assert (0 <= (N - 1) / q) by (apply Z.div_pos; lia).
  rewrite pow_mod_spec in Hpow, Hg by lia.
  cbn [fst snd]. split; [|split; [|split]].
  - rewrite Forall_forall in Hpr. apply Hpr.
    apply list_elem_of_fmap. exists (q, a). split; [reflexivity|assumption].
  - exact Hqd.
  - exact Hpow.
  - change (Z.coprime (a ^ ((N - 1) / q) - 1) N).
    change (Z.coprime (a ^ ((N - 1) / q) mod N - 1) N) in Hg.
    apply Z.coprime_mod_l_iff. apply Z.coprime_mod_l_iff in Hg.
    now rewrite Zminus_mod_idemp_l in Hg.
Qed.

Create HintDb primes.

Ltac prime_factors :=
  cbn [map fst];
  repeat (apply Forall_cons; split; [solve [auto with primes]|]);
  apply Forall_nil; exact I.

Lemma prime_36151 : Z.prime 36151.
Proof. apply prime_by_trial_sound. vm_compute. reflexivity. Qed.

Lemma prime_87881 : Z.prime 87881.
Proof. apply prime_by_trial_sound. vm_compute. reflexivity. Qed.

Lemma prime_702529 : Z.prime 702529.
Proof. apply prime_by_trial_sound. vm_compute. reflexivity. Qed.

Lemma prime_973591 : Z.prime 973591.
Proof. apply prime_by_trial_sound. vm_compute. reflexivity. Qed.

#[local] Hint Resolve prime_36151 prime_87881 prime_702529 prime_973591 : primes.

Lemma prime_10262543633 : Z.prime 10262543633.
Proof.
  apply (pock_ok_sound _ [(702529, 2)]); [vm_compute; reflexivity|prime_factors].
Qed.

#[local] Hint Resolve prime_10262543633 : primes.

Lemma prime_246301047193 : Z.prime 246301047193.
Proof.
  apply (pock_ok_sound _ [(10262543633, 2)]); [vm_compute; reflexivity|prime_factors].
Qed.

#[local] Hint Resolve prime_246301047193 : primes.

Lemma prime_68964293214041 : Z.prime 68964293214041.
Proof.
  apply (pock_ok_sound _ [(246301047193, 2)]); [vm_compute; reflexivity|prime_factors].
Qed.

#[local] Hint Resolve prime_68964293214041 : primes.

Lemma prime_23236691026952546459 : Z.prime 23236691026952546459.
Proof.
  apply (pock_ok_sound _ [(68964293214041, 2)]); [vm_compute; reflexivity|prime_factors].
Qed.

#[local] Hint Resolve prime_23236691026952546459 : primes.

Lemma prime_14220365526706201077871 : Z.prime 14220365526706201077871.
Proof.
  apply (pock_ok_sound _ [(973591, 2); (87881, 2); (36151, 2)]);
    [vm_compute; reflexivity|prime_factors].
Qed.

#[local] Hint Resolve prime_14220365526706201077871 : primes.

Lemma prime_440208639276132997491800604758226661590679912188273141493 :
  Z.prime 440208639276132997491800604758226661590679912188273141493.
Proof.
  apply (pock_ok_sound _ [(14220365526706201077871, 2); (23236691026952546459, 2)]);
    [vm_compute; reflexivity|prime_factors].
Qed.

#[local] Hint Resolve
  prime_440208639276132997491800604758226661590679912188273141493 : primes.

(** The modulus of [NewShamirSecretSharing] is a prime number. *)
Lemma NewShamir_prime_is_prime :
  Z.prime (Shamir.prime Shamir.NewShamirSecretSharing).
Proof.
  apply (pock_ok_sound _
           [(440208639276132997491800604758226661590679912188273141493, 2)]);
    [vm_compute; reflexivity|prime_factors].
Qed.

(** ** When [CombineShares] succeeds *)

Section Interpolation.

Variable sss : Shamir.ShamirSecretSharing.

Let p := Shamir.prime sss.

Hypothesis p_pos : 0 < p.

Lemma basis_loop_spec i share j others num den :
  fst (Shamir.basis_loop sss i share j others num den) mod p
  = (num * prod_skip (fun o => - Shamir.X o) i j others) mod p /\
  snd (Shamir.basis_loop sss i share j others num den) mod p
  = (den * prod_skip (fun o => Shamir.X share - Shamir.X o) i j others) mod p.
Proof.
  revert j num den.
  induction others as [|o rest IH]; intros j num den; cbn [Shamir.basis_loop prod_skip].
  - cbn [fst snd]. now rewrite !Z.mul_1_r.
  - destruct (Nat.eqb i j); cbn [negb].
    + destruct (IH (S j) num den) as [-> ->]. now rewrite !Z.mul_1_l.
    + match goal with
      | |- context [Shamir.basis_loop sss i share (S j) rest ?n ?d] =>
          destruct (IH (S j) n d) as [-> ->]
      end.
      fold p. rewrite !big_Mod_pos by assumption.
      rewrite !Z.mul_mod_idemp_l by lia.
      split; f_equal; ring.
Qed.

Lemma coprime_mul_inv a b c : Z.coprime (a * b) c -> Z.coprime a c /\ Z.coprime b c.
Proof.
  rewrite !Z.Bezout_coprime_iff. intros (u & v & H).
  split; [exists (u * b), v | exists (u * a), v]; lia.
Qed.

Lemma coprime_mul_iff a b c :
  Z.coprime (a * b) c <-> Z.coprime a c /\ Z.coprime b c.
Proof.
  split; [apply coprime_mul_inv|]. intros [? ?]. now apply Z.coprime_mul_l.
Qed.

Lemma prod_skip_coprime f i j others :
  Z.coprime (prod_skip f i j others) p <->
  (forall j' o, others !! j' = Some o -> i <> (j + j')%nat -> Z.coprime (f o) p).
Proof.
  revert j. induction others as [|o rest IH]; intros j; cbn [prod_skip].
  - split; [intros _ j' o Hl; now rewrite lookup_nil in Hl|].
    intros _. apply Z.coprime_1_l.
  - rewrite coprime_mul_iff, IH. split.
    + intros [H0 Hr] [|j'] o' Hl Hne; cbn in Hl.
      * inversion Hl; subst o'. destruct (Nat.eqb_spec i j); [lia|exact H0].
      * apply (Hr j' o' Hl). lia.
    + intros H. split.
      * destruct (Nat.eqb_spec i j); [apply Z.coprime_1_l|].
        apply (H 0%nat o); [reflexivity|lia].
      * intros j' o' Hl Hne. apply (H (S j') o' Hl). lia.
Qed.

Lemma ModInverse_is_Some den :
  is_Some (ModInverse den p) <-> Z.coprime den p.
Proof.
  unfold ModInverse, Z.coprime.
  destruct (Z.eqb_spec (Z.gcd den p) 1); split; intros H; eauto;
    try contradiction. destruct H; discriminate.
Qed.

Lemma denominator_coprime i share shares :
  Z.coprime (snd (Shamir.basis_loop sss i share 0 shares 1 1)) p <->
  (forall j o, shares !! j = Some o -> i <> j ->
               Z.coprime (Shamir.X share - Shamir.X o) p).
Proof.
  rewrite <- Z.coprime_mod_l_iff.
  rewrite (proj2 (basis_loop_spec i share 0 shares 1 1)).
  rewrite Z.coprime_mod_l_iff, Z.mul_1_l.
  apply prod_skip_coprime.
Qed.

Lemma combine_loop_succeeds shares : forall todo i acc,
  (exists z, Shamir.combine_loop sss shares i todo acc = Shamir.Ok z) <->
  (forall i' share, todo !! i' = Some share ->
     forall j o, shares !! j = Some o -> (i + i')%nat <> j ->
                 Z.coprime (Shamir.X share - Shamir.X o) p).
Proof.
  induction todo as [|share rest IH]; intros i acc; cbn [Shamir.combine_loop].
  - split; [|eauto]. intros _ i' s Hl. now rewrite lookup_nil in Hl.
  - destruct (Shamir.basis_loop sss i share 0 shares 1 1) as [num den] eqn:Hb.
    pose proof (denominator_coprime i share shares) as Hden.
    rewrite Hb in Hden. cbn [snd] in Hden.
    pose proof (ModInverse_is_Some den) as Hinv. fold p.
    destruct (ModInverse den p) as [inv|].
    + rewrite IH. split.
      * intros H [|i'] s Hl j o Ho Hne; cbn in Hl.
        -- inversion Hl; subst s.
           apply (proj1 Hden) with (j := j); [apply Hinv; eauto|exact Ho|lia].
        -- apply (H i' s Hl j o Ho). lia.
      * intros H i' s Hl j o Ho Hne. apply (H (S i') s Hl j o Ho). lia.
    + split; [intros [z Hz]; discriminate|].
      intros H. exfalso.
      assert (Hc : Z.coprime den p).
      { apply Hden. intros j o Ho Hne. apply (H 0%nat share eq_refl j o Ho). lia. }
      apply Hinv in Hc. destruct Hc; discriminate.
Qed.

Lemma find_duplicate_None shares : forall seen,
  Shamir.find_duplicate seen shares = None <->
  NoDup (map Shamir.X shares) /\
  (forall x, x ∈ map Shamir.X shares -> x ∉ seen).
Proof.
  induction shares as [|s rest IH]; intros seen; cbn [Shamir.find_duplicate map].
  - split; [|reflexivity]. intros _. split; [constructor|].
    intros x Hx. now apply elem_of_nil in Hx.
  - destruct (decide (Shamir.X s ∈ seen)) as [Hin|Hout].
    + split; [discriminate|]. intros [_ H]. exfalso.
      apply (H (Shamir.X s)); [apply list_elem_of_here|exact Hin].
    + rewrite IH, NoDup_cons. split.
      * intros [Hnd H]. split; [split; [|exact Hnd]|].
        -- intros Hx. apply (H _ Hx). apply elem_of_union. left.
           now apply elem_of_singleton.
        -- intros x [->|Hx]%elem_of_cons; [exact Hout|].
           intros Hs. apply (H x Hx). apply elem_of_union. now right.
      * intros [[Hnotin Hnd] H]. split; [exact Hnd|].
        intros x Hx [->%elem_of_singleton|Hs]%elem_of_union; [contradiction|].
        apply (H x); [now apply list_elem_of_further|exact Hs].
Qed.

(** [CombineShares] returns a value exactly when it is given at least one
    share, no x-coordinate twice, and every difference of two
    x-coordinates is invertible modulo the prime. *)
Lemma CombineShares_succeeds shares :
  (exists secret, Shamir.CombineShares sss shares = Shamir.Ok secret) <->
  (1 <= length shares)%nat /\
  NoDup (map Shamir.X shares) /\
  (forall i j si sj, shares !! i = Some si -> shares !! j = Some sj -> i <> j ->
                     Z.gcd (Shamir.X si - Shamir.X sj) p = 1).
Proof.
  unfold Shamir.CombineShares, Shamir.combine_int.
  destruct (Nat.ltb_spec (length shares) 1) as [Hlen|Hlen].
  { split; [intros [? ?]; discriminate|]. intros [? _]. lia. }
  pose proof (find_duplicate_None shares ∅) as Hdup.
  destruct (Shamir.find_duplicate ∅ shares) as [x|].
  { split; [intros [? ?]; discriminate|]. intros (_ & Hnd & _). exfalso.
    assert (Some x = None) as Hx; [|discriminate].
    apply Hdup. split; [exact Hnd|]. intros ? _. apply not_elem_of_empty. }
  pose proof (combine_loop_succeeds shares shares 0 0) as Hloop.
  split.
  - intros [secret Hs]. split; [exact Hlen|]. split; [now apply Hdup|].
    intros i j si sj Hi Hj Hne.
    apply (proj1 Hloop) with (i' := i) (j := j); auto.
    destruct (Shamir.combine_loop sss shares 0 shares 0); [eauto|discriminate].
  - intros (_ & _ & H).
    destruct (proj2 Hloop) as [z Hz].
    + intros i' share Hi j o Hj Hne. now apply (H i' j).
    + rewrite Hz. eauto.
Qed.

End Interpolation.

(** Modulo a prime, a difference is invertible exactly when the two
    numbers differ modulo the prime. *)
Lemma coprime_prime_diff p a b :
  Z.prime p -> (Z.gcd (a - b) p = 1 <-> a mod p <> b mod p).
Proof.
  intros Hp. pose proof (Z.prime_ge_2 _ Hp).
  rewrite Z.gcd_comm. change (Z.gcd p (a - b) = 1) with (Z.coprime p (a - b)).
  rewrite Z.coprime_prime_l_iff by assumption.
  assert (E : (p | a - b) <-> a mod p = b mod p).
  { split.
    - intros [k Hk]. replace a with (b + k * p) by lia. apply Z_mod_plus_full.
    - intros Hx. apply Z.mod_divide; [lia|].
      rewrite Zminus_mod, Hx, Z.sub_diag. apply Z.mod_0_l. lia. }
  now rewrite E.
Qed.

(** With the prime modulus: [CombineShares] returns a value exactly when it
    is given at least one share and the x-coordinates are pairwise distinct
    modulo the prime. *)
Lemma CombineShares_succeeds_prime shares :
  (exists secret,
     Shamir.CombineShares Shamir.NewShamirSecretSharing shares = Shamir.Ok secret) <->
  (1 <= length shares)%nat /\
  (forall i j si sj, shares !! i = Some si -> shares !! j = Some sj -> i <> j ->
     Shamir.X si mod Shamir.prime Shamir.NewShamirSecretSharing
     <> Shamir.X sj mod Shamir.prime Shamir.NewShamirSecretSharing).
Proof.
  rewrite (CombineShares_succeeds _ NewShamir_prime_pos). split.
  - intros (Hlen & _ & H). split; [exact Hlen|].
    intros i j si sj Hi Hj Hij.
    apply (coprime_prime_diff _ _ _ NewShamir_prime_is_prime). now apply (H i j).
  - intros (Hlen & H). split; [exact Hlen|]. split.
    + apply NoDup_alt. intros i j x Hi Hj.
      rewrite list_lookup_fmap in Hi, Hj.
      destruct (shares !! i) as [si|] eqn:Ei; [|discriminate].
      destruct (shares !! j) as [sj|] eqn:Ej; [|discriminate].
      cbn in Hi, Hj. inversion Hi. inversion Hj.
      destruct (decide (i = j)) as [|Hne]; [assumption|].
      exfalso. apply (H i j si sj Ei Ej Hne). congruence.
    + intros i j si sj Hi Hj Hij.
      apply (coprime_prime_diff _ _ _ NewShamir_prime_is_prime). now apply (H i j).
Qed.

Lemma find_duplicate_Some shares :
  ~ NoDup (map Shamir.X shares) ->
  exists x, Shamir.find_duplicate ∅ shares = Some x.
Proof.
  intros Hnd. destruct (Shamir.find_duplicate ∅ shares) as [x|] eqn:E; [eauto|].
  exfalso. apply Hnd. now apply (proj1 (find_duplicate_None shares ∅)).
Qed.

Lemma CombineShares_duplicate shares :
  ~ NoDup (map Shamir.X shares) ->
  exists e, Shamir.CombineShares Shamir.NewShamirSecretSharing shares = Shamir.Fail e.
Proof.
  intros Hnd. unfold Shamir.CombineShares, Shamir.combine_int.
  destruct (length shares <? 1)%nat; [eauto|].
  destruct (find_duplicate_Some shares Hnd) as [x ->]. eauto.
Qed.

(** ** Lagrange interpolation at zero over the field of integers modulo a prime *)

Section LagrangeTheory.

Variable p : Z.

Hypothesis Hp : Z.prime p.

Add Field Fp_field : (Zmod.field_theory p Hp).

Local Abbreviation F := (Zmod p).

Local Abbreviation h := (Lagrange.h p).

Local Abbreviation w := (Lagrange.w p).

Local Abbreviation isum := (Lagrange.isum p).

Local Abbreviation pe := (Lagrange.pe p).

Local Abbreviation sd := (Lagrange.sd p).

Local Open Scope Zmod_scope.

Lemma sd_spec a cs x :
  pe cs x = fst (sd a cs) + (x - a) * pe (snd (sd a cs)) x.
Proof.
  induction cs as [|c rest IH]; cbn [Lagrange.sd Lagrange.pe fst snd]; [ring|].
  destruct rest as [|c' rest']; [cbn; ring|].
  destruct (sd a (c' :: rest')) as [r q]. cbn [fst snd Lagrange.pe] in *.
  rewrite IH. ring.
Qed.

Lemma sd_length a cs : length (snd (sd a cs)) = pred (length cs).
Proof.
  induction cs as [|c rest IH]; [reflexivity|]. cbn [Lagrange.sd].
  destruct rest as [|c' rest']; [reflexivity|].
  destruct (sd a (c' :: rest')) as [r q]. cbn [snd length] in *. now rewrite IH.
Qed.

Lemma sd_remainder a cs : fst (sd a cs) = pe cs a.
Proof.
  rewrite (sd_spec a cs a). ring.
Qed.

Lemma isum_cons_pre f e pre post :
  isum f (e :: pre) post = isum (fun x => f x * h e x) pre post.
Proof.
  revert pre. induction post as [|x post IH]; intros pre; cbn [Lagrange.isum]; [reflexivity|].
  rewrite <- IH. cbn [app Lagrange.w]. ring.
Qed.

Lemma isum_ext f g pre post :
  (forall x, x ∈ post -> f x = g x) -> isum f pre post = isum g pre post.
Proof.
  revert pre. induction post as [|x post IH]; intros pre H; cbn [Lagrange.isum]; [reflexivity|].
  rewrite (H x) by apply list_elem_of_here.
  rewrite IH; [reflexivity|]. intros y Hy. apply H. now apply list_elem_of_further.
Qed.

Lemma isum_lin c1 c2 f g pre post :
  isum (fun x => c1 * f x + c2 * g x) pre post
  = c1 * isum f pre post + c2 * isum g pre post.
Proof.
  revert pre. induction post as [|x post IH]; intros pre; cbn [Lagrange.isum]; [ring|].
  rewrite IH. ring.
Qed.

Lemma isum_cons f a S :
  isum f [] (a :: S) = f a * w a S + isum (fun x => f x * h a x) [] S.
Proof. cbn [Lagrange.isum app]. now rewrite isum_cons_pre. Qed.

Lemma sub_nz (x a : F) : x <> a -> x - a <> 0.
Proof.
  intros Hne Hz. apply Hne.
  transitivity (x - a + a); [ring|]. rewrite Hz. ring.
Qed.

Lemma add_move_l (a b c : F) : a + b = c -> b = c - a.
Proof. intros <-. ring. Qed.

(** The basis values at zero sum to one. *)
Lemma isum_one : forall n S,
  length S = n -> S <> [] -> NoDup S -> isum (fun _ => 1) [] S = 1.
Proof.
  induction n as [n IHn] using lt_wf_ind. intros S Hlen Hne Hnd.
  destruct S as [|a [|b R]]; [contradiction| |].
  - cbn. ring.
  - assert (Hab : a <> b).
    { intros ->. apply NoDup_cons in Hnd as [Hin _]. apply Hin, list_elem_of_here. }
    assert (HndbR : NoDup (b :: R)) by (now apply NoDup_cons in Hnd as [_ ?]).
    assert (HndaR : NoDup (a :: R)).
    { apply NoDup_cons in Hnd as [Hin Hnd']. apply NoDup_cons in Hnd' as [_ HR].
      apply NoDup_cons. split; [|exact HR].
      intros Ha. apply Hin. now apply list_elem_of_further. }
    pose proof (IHn (length (b :: R)) ltac:(cbn in *; lia) (b :: R) eq_refl
                  ltac:(discriminate) HndbR) as Hb.
    pose proof (IHn (length (a :: R)) ltac:(cbn in *; lia) (a :: R) eq_refl
                  ltac:(discriminate) HndaR) as Ha.
    rewrite isum_cons in Hb, Ha |- *.
    rewrite isum_cons. cbn [Lagrange.w].
    assert (E : isum (fun x => 1 * h a x * h b x) [] R
                = h a b * isum (fun x => 1 * h b x) [] R
                  + h b a * isum (fun x => 1 * h a x) [] R).
    { rewrite <- isum_lin. apply isum_ext. intros r Hr.
      assert (r <> a).
      { intros ->. apply NoDup_cons in HndaR as [Hin _]. contradiction. }
      assert (r <> b).
      { intros ->. apply NoDup_cons in HndbR as [Hin _]. contradiction. }
      unfold Lagrange.h. field. repeat split; apply sub_nz; congruence. }
    rewrite E.
    apply add_move_l in Hb, Ha. rewrite Ha, Hb. unfold Lagrange.h. field. split; apply sub_nz; congruence.
Qed.

(** Interpolation at zero of a polynomial with at most as many
    coefficients as there are nodes. *)
Lemma isum_poly : forall S cs,
  NoDup S -> (length cs <= length S)%nat -> isum (pe cs) [] S = pe cs 0.
Proof.
  induction S as [|a S IH]; intros cs Hnd Hlen.
  - destruct cs; [reflexivity|cbn in Hlen; lia].
  - rewrite isum_cons.
    apply NoDup_cons in Hnd as [Hin HndS].
    set (g := pe (snd (sd a cs))).
    assert (E : isum (fun x => pe cs x * h a x) [] S
                = pe cs a * isum (fun x => 1 * h a x) [] S + (- a) * isum g [] S).
    { rewrite <- isum_lin. apply isum_ext. intros x Hx.
      assert (x <> a) by (intros ->; contradiction).
      rewrite (sd_spec a cs x), sd_remainder. fold g.
      unfold Lagrange.h. field. now apply sub_nz. }
    rewrite E. unfold g. rewrite IH by (try assumption; rewrite sd_length; cbn in Hlen; lia).
    pose proof (isum_one (length (a :: S)) (a :: S) eq_refl ltac:(discriminate)
                  ltac:(now apply NoDup_cons)) as Hone.
    rewrite isum_cons in Hone.
    apply add_move_l in Hone. rewrite Hone. rewrite (sd_spec a cs 0), sd_remainder. ring.
Qed.

End LagrangeTheory.

(** ** From the loops of [CombineShares] to the interpolation sum *)

Lemma prod_skip_past f i j l :
  (i < j)%nat -> prod_skip f i j l = prodZ (map f l).
Proof.
  revert j. induction l as [|o l IH]; intros j Hlt; cbn [prod_skip map prodZ fold_right];
    [reflexivity|].
  destruct (Nat.eqb_spec i j); [lia|]. rewrite IH by lia. reflexivity.
Qed.

Lemma prod_skip_zip f pre s post : forall j,
  prod_skip f (j + length pre) j (pre ++ s :: post) = prodZ (map f (pre ++ post)).
Proof.
  induction pre as [|o pre IH]; intros j; cbn [app length prod_skip map prodZ fold_right].
  - rewrite Nat.add_0_r, Nat.eqb_refl, Z.mul_1_l. apply prod_skip_past. lia.
  - destruct (Nat.eqb_spec (j + S (length pre)) j); [lia|].
    replace (j + S (length pre))%nat with (S j + length pre)%nat by lia.
    rewrite IH. reflexivity.
Qed.

Section Bridge.

Variable sss : Shamir.ShamirSecretSharing.

Let p := Shamir.prime sss.

Hypothesis Hp : Z.prime p.

Add Field Fp_bridge_field : (Zmod.field_theory p Hp).

Local Abbreviation F := (Zmod p).

Local Abbreviation xF := (fun s : Shamir.Share => Zmod.of_Z p (Shamir.X s)).

Local Open Scope Zmod_scope.

Lemma p_pos : (0 < p)%Z.
Proof. pose proof (Z.prime_ge_2 _ Hp). lia. Qed.

Lemma of_Z_invmod d : Zmod.of_Z p (Z.invmod d p) = Zmod.inv (Zmod.of_Z p d).
Proof.
  apply Zmod.to_Z_inj.
  rewrite Zmod.to_Z_inv, !Zmod.to_Z_of_Z, Z.invmod_mod_l. apply Z.mod_invmod.
Qed.

Lemma of_Z_prodZ l :
  Zmod.of_Z p (prodZ l) = fold_right (fun z acc => Zmod.of_Z p z * acc) 1 l.
Proof.
  induction l as [|z l IH]; cbn [prodZ fold_right]; [apply Zmod.of_Z_1|].
  rewrite Zmod.of_Z_mul. fold (prodZ l). now rewrite IH.
Qed.

(** The basis value as the quotient of the two products of the inner loop. *)
Lemma w_quotient (x : F) (others : list F) :
  Forall (fun o => x <> o) others ->
  fold_right (fun o acc => (x - o) * acc) 1 others <> 0 /\
  Lagrange.w p x others
  = Zmod.mdiv (fold_right (fun o acc => (- o) * acc) 1 others)
              (fold_right (fun o acc => (x - o) * acc) 1 others).
Proof.
  induction 1 as [|o others Hne _ [IHnz IH]]; cbn [fold_right Lagrange.w].
  - split; [|field]. apply (F_1_neq_0 (Zmod.field_theory p Hp)).
    apply (F_1_neq_0 (Zmod.field_theory p Hp)).
  - assert (Hd : x - o <> 0) by now apply sub_nz.
    split.
    + intros Hz. apply Zmod.mul_0_iff_prime in Hz; [|exact Hp]. tauto.
    + rewrite IH. unfold Lagrange.h. field. split; assumption.
Qed.

Lemma fold_map_of_Z (fz : Shamir.Share -> Z) (g : F -> F) (l : list Shamir.Share) :
  (forall o, Zmod.of_Z p (fz o) = g (xF o)) ->
  fold_right (fun z acc => Zmod.of_Z p z * acc) 1 (map fz l)
  = fold_right (fun o acc => g o * acc) 1 (map xF l).
Proof.
  intros Hg. induction l as [|o l IH]; cbn [map fold_right]; [reflexivity|].
  now rewrite IH, Hg.
Qed.

Lemma basis_loop_F pre s post :
  Zmod.of_Z p (fst (Shamir.basis_loop sss (length pre) s 0 (pre ++ s :: post) 1 1))
  = fold_right (fun o acc => (- o) * acc) 1 (map xF (pre ++ post)) /\
  Zmod.of_Z p (snd (Shamir.basis_loop sss (length pre) s 0 (pre ++ s :: post) 1 1))
  = fold_right (fun o acc => (xF s - o) * acc) 1 (map xF (pre ++ post)).
Proof.
  destruct (basis_loop_spec sss p_pos (length pre) s 0 (pre ++ s :: post) 1 1)
    as [Hn Hd].
  rewrite !Z.mul_1_l in Hn, Hd.
  pose proof (prod_skip_zip (fun o => (- Shamir.X o)%Z) pre s post 0) as En.
  pose proof (prod_skip_zip (fun o => (Shamir.X s - Shamir.X o)%Z) pre s post 0) as Ed.
  cbn [Nat.add] in En, Ed. rewrite En in Hn. rewrite Ed in Hd.
  apply Zmod.of_Z_inj in Hn, Hd. fold p in Hn, Hd. rewrite Hn, Hd, !of_Z_prodZ.
  split; apply fold_map_of_Z; intros o; cbn beta.
  - apply Zmod.of_Z_opp.
  - apply Zmod.of_Z_sub.
Qed.

Lemma NoDup_middle (l1 l2 : list F) (a : F) :
  NoDup (l1 ++ a :: l2) -> Forall (fun o => a <> o) (l1 ++ l2).
Proof.
  intros Hnd. apply NoDup_app in Hnd as (_ & H1 & H2).
  apply NoDup_cons in H2 as [H2 _].
  apply Forall_forall. intros o [Ho|Ho]%elem_of_app Heq; subst o.
  - apply (H1 a Ho), list_elem_of_here.
  - contradiction.
Qed.

(** The accumulator of the outer loop is the interpolation sum. *)
Lemma combine_loop_F (f : F -> F) : forall todo pre acc z,
  NoDup (map xF (pre ++ todo)) ->
  (forall s, s ∈ todo -> Zmod.of_Z p (Shamir.Y s) = f (xF s)) ->
  Shamir.combine_loop sss (pre ++ todo) (length pre) todo acc = Shamir.Ok z ->
  Zmod.of_Z p z = Zmod.of_Z p acc + Lagrange.isum p f (map xF pre) (map xF todo).
Proof.
  induction todo as [|s rest IH]; intros pre acc z Hnd Hy Hz.
  - cbn in Hz |- *. inversion Hz; subst. ring.
  - cbn [Shamir.combine_loop] in Hz.
    destruct (basis_loop_F pre s rest) as [Hnum Hden].
    destruct (Shamir.basis_loop sss (length pre) s 0 (pre ++ s :: rest) 1 1)
      as [num den]. cbn [fst snd] in Hnum, Hden.
    unfold ModInverse in Hz. fold p in Hz.
    destruct (Z.gcd den p =? 1)%Z; [|discriminate].
    assert (Happ : pre ++ s :: rest = (pre ++ [s]) ++ rest)
      by (now rewrite <- app_assoc).
    rewrite Happ in Hz, Hnd.
    replace (S (length pre)) with (length (pre ++ [s])) in Hz
      by (rewrite length_app; cbn; lia).
    apply IH in Hz; [|exact Hnd|].
    2:{ intros s' Hs'. apply Hy. now apply list_elem_of_further. }
    rewrite Hz. cbn [map Lagrange.isum].
    rewrite !big_Mod_pos by apply p_pos. rewrite Z.abs_eq by (pose proof p_pos; lia).
    rewrite Zmod.of_Z_mod, Zmod.of_Z_add, Zmod.of_Z_mul, Zmod.of_Z_mod, Zmod.of_Z_mul.
    rewrite of_Z_invmod, Hnum, Hden, (Hy s) by apply list_elem_of_here.
    rewrite <- Happ in Hnd. rewrite map_app in Hnd. cbn [map] in Hnd.
    apply NoDup_middle in Hnd.
    destruct (w_quotient (xF s) _ Hnd) as [Hnz Hw].
    rewrite !map_app in *. cbn [map]. rewrite Hw.
    unfold Zmod.mdiv. ring.
Qed.

End Bridge.

(** ** Splitting, then combining *)

Section SplitCombine.

Variable sss : Shamir.ShamirSecretSharing.

Let p := Shamir.prime sss.

Hypothesis Hp : Z.prime p.

Local Abbreviation F := (Zmod p).

Lemma pe_of_Z cs x :
  Lagrange.pe p (map (Zmod.of_Z p) cs) (Zmod.of_Z p x) = Zmod.of_Z p (poly_eval cs x).
Proof.
  induction cs as [|c cs IH]; cbn [map Lagrange.pe poly_eval]; [now rewrite Zmod.of_Z_0|].
  now rewrite IH, Zmod.of_Z_add, Zmod.of_Z_mul.
Qed.

Lemma pe_of_Z_0 cs :
  Lagrange.pe p (map (Zmod.of_Z p) cs) Zmod.zero = Zmod.of_Z p (poly_eval cs 0).
Proof. rewrite <- pe_of_Z. now rewrite Zmod.of_Z_0. Qed.

Lemma make_shares_elem cs N s :
  s ∈ Shamir.make_shares sss cs N ->
  1 <= Shamir.X s <= N /\ Shamir.Y s = poly_eval cs (Shamir.X s) mod p.
Proof.
  unfold Shamir.make_shares. intros (i & -> & Hi)%list_elem_of_fmap.
  apply elem_of_seqZ in Hi. cbn [Shamir.X Shamir.Y]. split; [lia|].
  apply evaluatePolynomial_spec, (p_pos sss Hp).
Qed.

Lemma make_shares_X cs N :
  map Shamir.X (Shamir.make_shares sss cs N) = seqZ 1 N.
Proof.
  unfold Shamir.make_shares. rewrite map_map. cbn [Shamir.X].
  change (seqZ 1 N) with (seqZ (1 + 0) N).
  rewrite <- (fmap_add_seqZ 1 0 N). apply map_ext. intros i. lia.
Qed.

Lemma small_diff_coprime a b N :
  N < p -> 1 <= a <= N -> 1 <= b <= N -> a <> b -> Z.gcd (a - b) p = 1.
Proof.
  intros HN Ha Hb Hne.
  destruct (Z.lt_total a b) as [Hlt|[Heq|Hgt]]; [|contradiction|].
  - replace (a - b) with (- (b - a)) by ring. rewrite Z.gcd_opp_l, Z.gcd_comm.
    apply Z.coprime_prime_small; [exact Hp|lia].
  - rewrite Z.gcd_comm. apply Z.coprime_prime_small; [exact Hp|lia].
Qed.

Lemma of_Z_small_inj a b N :
  N < p -> 1 <= a <= N -> 1 <= b <= N ->
  Zmod.of_Z p a = Zmod.of_Z p b -> a = b.
Proof.
  intros HN Ha Hb H. apply Zmod.of_Z_inj in H.
  rewrite !Z.mod_small in H by lia. exact H.
Qed.

(** Any duplicate-free selection of at least [length cs] of the shares of
    the polynomial [cs] interpolates to its constant term. *)
Lemma combine_int_recovers c0 cs N S :
  0 <= c0 < p -> N < p ->
  (forall s, s ∈ S -> s ∈ Shamir.make_shares sss (c0 :: cs) N) ->
  NoDup (map Shamir.X S) ->
  (length (c0 :: cs) <= length S)%nat ->
  Shamir.combine_int sss S = Shamir.Ok c0.
Proof.
  intros Hc0 HN Hsub Hnd Hlen.
  assert (Hrange : forall s, s ∈ S -> 1 <= Shamir.X s <= N).
  { intros s Hs. now apply (make_shares_elem (c0 :: cs) N s), Hsub. }
  assert (Hex : exists secret, Shamir.CombineShares sss S = Shamir.Ok secret).
  { apply (CombineShares_succeeds sss (p_pos sss Hp)).
    split; [cbn in Hlen; lia|]. split; [exact Hnd|].
    intros i j si sj Hi Hj Hij.
    apply (small_diff_coprime _ _ N HN).
    - apply Hrange. eapply list_elem_of_lookup_2, Hi.
    - apply Hrange. eapply list_elem_of_lookup_2, Hj.
    - intros Heq. apply Hij.
      apply (NoDup_lookup (map Shamir.X S) i j (Shamir.X si)); [exact Hnd| |].
      + now rewrite list_lookup_fmap, Hi.
      + now rewrite list_lookup_fmap, Hj, Heq. }
  destruct Hex as [secret Hsec]. unfold Shamir.CombineShares in Hsec.
  destruct (Shamir.combine_int sss S) as [z|] eqn:Hz; [|discriminate].
  f_equal.
  pose proof (combine_int_range sss S z (p_pos sss Hp) Hz) as Hzr.
  unfold Shamir.combine_int in Hz.
  destruct (length S <? 1)%nat; [discriminate|].
  destruct (Shamir.find_duplicate ∅ S); [discriminate|].
  assert (HndF : NoDup (map (fun s => Zmod.of_Z p (Shamir.X s)) S)).
  { rewrite <- (map_map Shamir.X (Zmod.of_Z p)).
    apply NoDup_fmap_2_strong; [|exact Hnd].
    intros a b [sa [-> Hsa]]%list_elem_of_fmap [sb [-> Hsb]]%list_elem_of_fmap.
    apply (of_Z_small_inj _ _ N HN); now apply Hrange. }
  pose proof (combine_loop_F sss Hp (Lagrange.pe p (map (Zmod.of_Z p) (c0 :: cs))) S [] 0 z)
    as Hloop.
  cbn [app length map] in Hloop. specialize (Hloop HndF).
  rewrite Zmod.of_Z_0 in Hloop.
  rewrite isum_poly in Hloop; [|exact Hp|exact HndF|].
  2:{ cbn [length] in Hlen |- *. rewrite !length_map. exact Hlen. }
  assert (E : Zmod.of_Z p z = Zmod.of_Z p c0).
  { unfold p in *. rewrite Hloop.
    - change (Zmod.of_Z (Shamir.prime sss) c0
              :: map (Zmod.of_Z (Shamir.prime sss)) cs)
        with (map (Zmod.of_Z (Shamir.prime sss)) (c0 :: cs)).
      rewrite pe_of_Z_0. cbn [poly_eval]. rewrite Z.mul_0_l, Z.add_0_r.
      apply (Radd_0_l (Zmod.ring_theory _)).
    - intros s Hs. destruct (make_shares_elem (c0 :: cs) N s (Hsub s Hs)) as [_ ->].
      now rewrite Zmod.of_Z_mod, <- pe_of_Z.
    - exact Hz. }
  apply Zmod.of_Z_inj in E. fold p in Hzr. rewrite !Z.mod_small in E by lia. exact E.
Qed.

End SplitCombine.

Lemma draw_coefficients_length sss : forall n r cs r',
  Shamir.draw_coefficients sss n r = Some (cs, r') -> length cs = n.
Proof.
  induction n as [|n IH]; intros r cs r' H; cbn [Shamir.draw_coefficients] in H.
  - now inversion H.
  - destruct (rand_Int r (Shamir.prime sss)) as [[c r1]|]; [|discriminate].
    destruct (Shamir.draw_coefficients sss n r1) as [[cs1 r2]|] eqn:E; [|discriminate].
    inversion H; subst. cbn [length]. f_equal. now apply (IH r1 cs1 r').
Qed.

Lemma draw_coefficients_enough sss : forall n r,
  (n <= length r)%nat -> exists cs r', Shamir.draw_coefficients sss n r = Some (cs, r').
Proof.
  induction n as [|n IH]; intros r Hlen; cbn [Shamir.draw_coefficients]; [eauto|].
  destruct r as [|z r]; cbn in Hlen; [lia|]. cbn [rand_Int].
  destruct (IH r ltac:(lia)) as (cs & r' & ->). eauto.
Qed.

(** What a successful [SplitSecret] returns. *)
Lemma SplitSecret_Ok sss r secret T N shares r' :
  Shamir.SplitSecret sss r secret T N = (Shamir.Ok shares, r') ->
  1 <= T <= N /\ SetBytes secret < Shamir.prime sss /\
  exists cs, length cs = Z.to_nat (T - 1) /\
             shares = Shamir.make_shares sss (SetBytes secret :: cs) N.
Proof.
  unfold Shamir.SplitSecret. intros H.
  destruct (Z.gtb_spec T N); [discriminate|].
  destruct (Z.ltb_spec T 1); [discriminate|].
  destruct (Z.ltb_spec N 1); [discriminate|].
  destruct (Z.geb_spec (SetBytes secret) (Shamir.prime sss)); [discriminate|].
  destruct (Shamir.draw_coefficients sss (Z.to_nat (T - 1)) r) as [[cs r1]|] eqn:E;
    [|discriminate].
  inversion H; subst. repeat split; try lia.
  exists cs. split; [now apply draw_coefficients_length in E|reflexivity].
Qed.

(** [SplitSecret] succeeds on every in-range input, given enough entropy. *)
Lemma SplitSecret_succeeds sss r secret T N :
  1 <= T <= N -> SetBytes secret < Shamir.prime sss ->
  (Z.to_nat (T - 1) <= length r)%nat ->
  exists shares r', Shamir.SplitSecret sss r secret T N = (Shamir.Ok shares, r').
Proof.
  intros HT Hs Hr. unfold Shamir.SplitSecret.
  destruct (Z.gtb_spec T N); [lia|].
  destruct (Z.ltb_spec T 1); [lia|].
  destruct (Z.ltb_spec N 1); [lia|].
  destruct (Z.geb_spec (SetBytes secret) (Shamir.prime sss)); [lia|].
  destruct (draw_coefficients_enough sss _ r Hr) as (cs & r' & ->). eauto.
Qed.

(** For every split and every selection of at least [T] of its shares with
    distinct x-coordinates, [CombineShares] returns the bytes of the secret
    without its leading zero bytes. *)
Theorem SplitSecret_CombineShares r secret T N shares r' :
  N < Shamir.prime Shamir.NewShamirSecretSharing ->
  Shamir.SplitSecret Shamir.NewShamirSecretSharing r secret T N
  = (Shamir.Ok shares, r') ->
  length shares = Z.to_nat N /\
  map Shamir.X shares = seqZ 1 N /\
  (forall S,
     (forall s, s ∈ S -> s ∈ shares) ->
     NoDup (map Shamir.X S) ->
     (Z.to_nat T <= length S)%nat ->
     Shamir.CombineShares Shamir.NewShamirSecretSharing S
     = Shamir.Ok (strip_zeros secret)).
Proof.
  intros HN Hsplit.
  apply SplitSecret_Ok in Hsplit as (HT & Hs & cs & Hcs & ->).
  split; [|split].
  - unfold Shamir.make_shares. now rewrite length_map, length_seqZ.
  - apply make_shares_X.
  - intros S Hsub Hnd Hlen. unfold Shamir.CombineShares.
    rewrite (combine_int_recovers Shamir.NewShamirSecretSharing
               NewShamir_prime_is_prime (SetBytes secret) cs N S).
    + now rewrite Bytes_SetBytes.
    + split; [apply SetBytes_nonneg|assumption].
    + assumption.
    + assumption.
    + assumption.
    + cbn [length]. lia.
Qed.

(** ** The guards of [OpenCapsule] *)

Lemma After_gt t u : After t u = true <-> t > u.
Proof. unfold After. rewrite Z.gtb_ltb, Z.ltb_lt. lia. Qed.

Lemma canAccess_spec (capsule : TimeCapsule) (accessor : string) :
  canAccess capsule accessor = true <->
  (Owner capsule = accessor /\ CapsuleType_ capsule = CapsuleType_SAFE) \/
  Recipient capsule = accessor.
Proof.
  unfold canAccess.
  repeat case_bool_decide; simpl; split; intros Hx; try reflexivity;
    try discriminate; try tauto; destruct Hx as [[? ?]|?]; congruence.
Qed.

Section OpenChecks.

Variable host : Host.

(** The guards of [OpenCapsule] before any share is looked at. *)
Lemma OpenCapsule_unauthorized k ctx id c accessor shares :
  capsules k !! id = Some c ->
  StringToBytes_ok host accessor = true ->
  Status c = CapsuleStatus_ACTIVE ->
  canAccess c accessor = false ->
  OpenCapsule host k ctx id accessor shares = (Error ErrUnauthorized, k).
Proof.
  intros Hc Ha Hs Hacc. unfold OpenCapsule, GetCapsule.
  rewrite Hc, Ha, Hs, Hacc. reflexivity.
Qed.

End OpenChecks.

Lemma OpenCapsule_after_guards host k ctx id c accessor shares :
  open_guards host k ctx id c accessor ->
  OpenCapsule host k ctx id accessor shares
  = if (length shares <? N.to_nat (Threshold c))%nat
    then (Error ErrInsufficientShares, k)
    else
      match Shamir.CombineShares Shamir.NewShamirSecretSharing
              (take (N.to_nat (Threshold c)) shares) with
      | Shamir.Fail _ => (Error ErrInvalidKeyShare, k)
      | Shamir.Ok encryptionKey =>
          match (if bool_decide (StorageType c = "ipfs")
                 then match ipfs_retrieve host (IPFSHash c) id with
                      | None => Error ErrDataRetrievalFailed
                      | Some d => Done d
                      end
                 else Done (EncryptedData_ c)) with
          | Error e => (Error e, k)
          | Panic m => (Panic m, k)
          | Done encryptedDataBytes =>
              match Decrypt host {| Data := encryptedDataBytes; Nonce := [];
                                    Salt := []; Algorithm := EncryptionAlgo c |}
                      encryptionKey with
              | Error _ => (Error ErrInvalidEncryption, k)
              | Panic m => (Panic m, k)
              | Done decryptedData =>
                  if negb (VerifyDataIntegrity host decryptedData (DataHash c))
                  then (Error ErrInvalidEncryption, k)
                  else
                    (Done decryptedData,
                     EmitEvent
                       (set_capsules k
                          (<[id := set_UpdatedAt (set_Status c CapsuleStatus_UNLOCKED)
                                     (BlockTime ctx)]> (capsules k)))
                       {| ev_type := "capsule_opened";
                          ev_attrs := [("capsule_id", fmt_d id);
                                       ("accessor", accessor)] |})
              end
          end
      end.
Proof.
  intros (Hc & Ha & Hs & Hacc & Hu). unfold OpenCapsule, GetCapsule.
  rewrite Hc, Ha, Hs, Hacc, Hu. reflexivity.
Qed.

Lemma open_guards_timelock :
  open_guards Toy.host keeper_timelock {| BlockTime := 61; BlockHeight := 5 |} 1
    timelock_sample "bob".
Proof. repeat split. Qed.

Section OpenNeverReturns.

Variable host : Host.

Lemma Decrypt_without_nonce data algorithm key plaintext :
  Decrypt host {| Data := data; Nonce := []; Salt := []; Algorithm := algorithm |} key
  <> Done plaintext.
Proof.
  unfold Decrypt, gcm_Open. cbn [Nonce Algorithm Data].
  destruct (negb _); [discriminate|].
  destruct (negb _); [discriminate|].
  cbn. discriminate.
Qed.

(** [OpenCapsule] hands [Decrypt] an [EncryptedData] whose nonce was never
    filled in, so no call returns plaintext. *)
Lemma OpenCapsule_never_returns k ctx id accessor shares plaintext k' :
  OpenCapsule host k ctx id accessor shares <> (Done plaintext, k').
Proof.
  unfold OpenCapsule.
  destruct (GetCapsule k id) as [c| |]; try discriminate.
  destruct (negb (StringToBytes_ok host accessor)); [discriminate|].
  destruct (negb (bool_decide (Status c = _))); [discriminate|].
  destruct (negb (canAccess c accessor)); [discriminate|].
  destruct (negb (IsUnlockable c (BlockTime ctx))); [discriminate|].
  destruct (length shares <? _)%nat; [discriminate|].
  destruct (Shamir.CombineShares _ _) as [key|]; [|discriminate].
  destruct (if bool_decide (StorageType c = "ipfs") then _ else _) as [d| |];
    try discriminate.
  pose proof (Decrypt_without_nonce d (EncryptionAlgo c) key) as Hd.
  destruct (Decrypt host _ key) as [pt| |]; try discriminate.
  now destruct (Hd pt).
Qed.

End OpenNeverReturns.

(** For an Active TimeLock capsule the predicate of [IsUnlockable] and of
    [TimeCondition.Evaluate] is "strictly after". *)
Lemma IsUnlockable_TimeLock (tc : TimeCapsule) (blockTime u : Time) :
  Status tc = CapsuleStatus_ACTIVE ->
  CapsuleType_ tc = CapsuleType_TIME_LOCK ->
  UnlockTime tc = Some u ->
  (IsUnlockable tc blockTime = true <-> blockTime > u) /\
  (forall cond, TimeCondition_Evaluate cond blockTime = true
                <-> blockTime > tc_UnlockTime cond).
Proof.
  intros Hs Ht Hu. unfold IsUnlockable, TimeCondition_Evaluate.
  rewrite Hs, Ht, Hu. simpl.
  split; [apply After_gt|]. intros cond. apply After_gt.
Qed.

(** The sibling check admits the boundary: an Active TimeLock capsule
    passes [VerifyAccessConditions] exactly when the block time is at or
    after [unlock_time], for its owner and for its recipient. *)
Lemma VerifyAccessConditions_TimeLock (tc : TimeCapsule) (accessor : string)
      (blockTime u : Time) :
  Status tc = CapsuleStatus_ACTIVE ->
  CapsuleType_ tc = CapsuleType_TIME_LOCK ->
  UnlockTime tc = Some u ->
  Owner tc = accessor \/ Recipient tc = accessor ->
  (fst (VerifyAccessConditions tc accessor blockTime) = true <-> blockTime >= u).
Proof.
  intros Hs Ht Hu Hacc. unfold VerifyAccessConditions.
  rewrite Hs, Ht, Hu.
  assert (E : negb (bool_decide (Owner tc = accessor)) &&
              negb (bool_decide (Recipient tc = accessor)) = false).
  { destruct Hacc as [H|H]; rewrite (bool_decide_true _ H); cbn;
      [reflexivity|apply andb_false_r]. }
  rewrite E. cbn. unfold Before.
  destruct (Z.ltb_spec blockTime u); cbn; split; intros; (lia || discriminate || reflexivity).
Qed.

(** What [canAccess] decides, for every capsule and accessor. *)
Lemma open_authorization (host : Host) (k : Keeper) (ctx : Ctx) (id : N)
      (c : TimeCapsule) (accessor : string) (shares : list Shamir.Share) :
  capsules k !! id = Some c ->
  StringToBytes_ok host accessor = true ->
  Status c = CapsuleStatus_ACTIVE ->
  (canAccess c accessor = true <->
   (Owner c = accessor /\ CapsuleType_ c = CapsuleType_SAFE) \/
   Recipient c = accessor) /\
  (canAccess c accessor = false ->
   OpenCapsule host k ctx id accessor shares = (Error ErrUnauthorized, k)).
Proof.
  intros Hc Ha Hs. split; [apply canAccess_spec|].
  intros Hacc. now apply OpenCapsule_unauthorized with (c := c).
Qed.

(** Whatever the host, a TimeLock creation whose [unlock_time] is before the
    wall clock never succeeds: the outcome of the handler is a function of
    [time.Now()]. *)
Lemma CreateCapsule_rejects_by_wall_clock host k ctx now r owner recipient data
      threshold totalShares u contract metadata c k' r' :
  Before u now = true ->
  CreateCapsule host k ctx now r owner recipient data CapsuleType_TIME_LOCK
    threshold totalShares (Some u) contract metadata <> (Done c, k', r').
Proof.
  intros Hb. unfold CreateCapsule.
  destruct (negb (StringToBytes_ok host owner)); [discriminate|].
  destruct (negb (bool_decide (recipient = "")) && _); [discriminate|].
  destruct (maxDataSize <? length data)%nat; [discriminate|].
  destruct (GenerateKey r) as [[key r1]|]; [|discriminate].
  destruct (Encrypt host r1 data key) as [[enc| |] r2]; try discriminate.
  destruct (if bool_decide _ then _ else _) as [[h d]| |]; try discriminate.
  destruct (Shamir.SplitSecret _ _ _ _ _) as [[shares|] r3]; [|discriminate].
  cbn [capsuleCounter_Next].
  match goal with
  | |- context [Validate ?v now ?cap] =>
      assert (Hv : Validate v now cap <> None)
  end.
  { unfold Validate. cbn [ID Owner Recipient EncryptedData_ DataHash TotalShares
                          Threshold CapsuleType_ UnlockTime].
    rewrite Hb.
    repeat match goal with
           | |- (if ?b then _ else _) <> None => destruct b; [discriminate|]
           end.
    discriminate. }
  match goal with
  | |- context [Validate ?v now ?cap] => destruct (Validate v now cap)
  end; [discriminate|contradiction].
Qed.

(** ** The tick processor and the transfers *)

Lemma expire_capsule_pending t k key c :
  pendingTransfers (expire_capsule t k key c) = pendingTransfers k.
Proof.
  unfold expire_capsule.
  destruct (bool_decide _); [|reflexivity].
  destruct (CapsuleType_ c); try reflexivity.
  destruct (ExpiresAt c) as [e|]; [|reflexivity].
  destruct (After t e); reflexivity.
Qed.

Lemma expire_capsule_capsules t k key c :
  capsules k !! key = Some c ->
  capsules (expire_capsule t k key c) = <[key := tick_capsule t c]> (capsules k).
Proof.
  intros Hc. unfold expire_capsule, tick_capsule.
  destruct (bool_decide (Status c = _)); simpl;
    [|now rewrite insert_id].
  destruct (CapsuleType_ c); simpl; try now rewrite insert_id.
  destruct (ExpiresAt c) as [e|]; [|now rewrite insert_id].
  destruct (After t e); [reflexivity|now rewrite insert_id].
Qed.

Lemma walk_pending t keys k :
  pendingTransfers
    (fold_left (fun k key => match capsules k !! key with
                             | Some capsule => expire_capsule t k key capsule
                             | None => k
                             end) keys k)
  = pendingTransfers k.
Proof.
  revert k. induction keys as [|key keys IH]; intros k; simpl; [reflexivity|].
  rewrite IH. destruct (capsules k !! key); [apply expire_capsule_pending|reflexivity].
Qed.

Lemma walk_capsules t keys : forall k id,
  NoDup keys ->
  capsules
    (fold_left (fun k key => match capsules k !! key with
                             | Some capsule => expire_capsule t k key capsule
                             | None => k
                             end) keys k) !! id
  = if bool_decide (id ∈ keys) then tick_capsule t <$> capsules k !! id
    else capsules k !! id.
Proof.
  induction keys as [|key keys IH]; intros k id Hnd; cbn [fold_left].
  - case_bool_decide as Hin; [|reflexivity]. now apply elem_of_nil in Hin.
  - apply NoDup_cons in Hnd as [Hnotin Hnd].
    rewrite IH by assumption.
    assert (Hk : forall k' : Keeper,
               (capsules k' !! id = capsules k !! id \/
                (id = key /\ capsules k' !! id = tick_capsule t <$> capsules k !! id)) ->
               (id = key -> capsules k' !! id = tick_capsule t <$> capsules k !! id) ->
               (if bool_decide (id ∈ keys) then tick_capsule t <$> capsules k' !! id
                else capsules k' !! id)
               = (if bool_decide (id ∈ key :: keys)
                  then tick_capsule t <$> capsules k !! id else capsules k !! id)).
    { intros k' Hor Heq.
      destruct (decide (id = key)) as [->|Hne].
      - rewrite (bool_decide_false (key ∈ keys)) by assumption.
        rewrite (bool_decide_true (key ∈ key :: keys)) by apply list_elem_of_here.
        now apply Heq.
      - destruct Hor as [Hsame|[? _]]; [|contradiction]. rewrite Hsame.
        destruct (decide (id ∈ keys)) as [Hin|Hout].
        + rewrite !bool_decide_true; [reflexivity|now apply list_elem_of_further|assumption].
        + rewrite !bool_decide_false; [reflexivity| |assumption].
          intros [->|?]%elem_of_cons; contradiction. }
    apply Hk.
    + destruct (capsules k !! key) as [c|] eqn:Hc; [|now left].
      rewrite expire_capsule_capsules by assumption.
      destruct (decide (id = key)) as [->|Hne].
      * right. split; [reflexivity|]. now rewrite lookup_insert_eq, Hc.
      * left. now rewrite lookup_insert_ne by congruence.
    + intros ->. destruct (capsules k !! key) as [c|] eqn:Hc.
      * rewrite expire_capsule_capsules by assumption.
        now rewrite lookup_insert_eq.
      * exact Hc.
Qed.

Lemma Walk_keys_NoDup (m : gmap N TimeCapsule) : NoDup (Walk_keys m).
Proof.
  unfold Walk_keys. rewrite merge_sort_Permutation. apply NoDup_elements.
Qed.

Lemma Walk_keys_elem_of (m : gmap N TimeCapsule) id :
  id ∈ Walk_keys m <-> is_Some (m !! id).
Proof.
  unfold Walk_keys. rewrite merge_sort_Permutation, elem_of_elements.
  apply elem_of_dom.
Qed.

Lemma TransferCapsuleOwnership_found k ctx id c from to kind message :
  capsules k !! id = Some c ->
  exists k',
    TransferCapsuleOwnership k ctx id from to kind message = (Done tt, k') /\
    capsules k' = <[id := set_UpdatedAt (set_Owner c to) (BlockTime ctx)]> (capsules k) /\
    pendingTransfers k' = pendingTransfers k /\
    transferStats k' = transferStats (updateTransferStats k ctx kind).
Proof.
  intros Hc. unfold TransferCapsuleOwnership, GetCapsule. rewrite Hc.
  eexists. split; [reflexivity|]. repeat split.
Qed.

(** * Part IV: the statements of the specification *)

(** ** C1: opening a capsule *)

(** C1, at the input of scenario S1: the capsule is created (id 1, Active),
    and one second after [unlock_time] the recipient presents two valid
    shares. Every guard passes and the two shares combine to the key that
    encrypted the payload, but the open panics inside AES-GCM on the nonce
    that was never stored: no plaintext is returned and the capsule stays
    Active. *)
Theorem C1_open_panics_on_missing_nonce :
  let ctx := {| BlockTime := Scenario.unlock_time + Scenario.second;
                BlockHeight := 11 |} in
  (exists c r,
     Scenario.create Scenario.created_at Scenario.tape = (Done c, Scenario.created, r) /\
     open_guards Toy.host Scenario.created ctx 1 c "bob") /\
  length Scenario.two_shares = 2%nat /\
  Some (Shamir.CombineShares Shamir.NewShamirSecretSharing Scenario.two_shares)
  = (Shamir.Ok ∘ fst) <$> GenerateKey Scenario.tape /\
  OpenCapsule Toy.host Scenario.created ctx 1 "bob" Scenario.two_shares
  = (Panic "crypto/cipher: incorrect nonce length given to GCM", Scenario.created) /\
  Status <$> capsules Scenario.created !! 1%N = Some CapsuleStatus_ACTIVE.
Proof.
  cbv zeta. split; [|split; [|split; [|split]]].
  - eexists _, _. split; [vm_compute; reflexivity|].
    repeat split; vm_compute; reflexivity.
  - vm_compute. reflexivity.
  - vm_compute. reflexivity.
  - vm_compute. reflexivity.
  - vm_compute. reflexivity.
Qed.

(** ** C2: splitting and combining *)

(** C2, at a 32-byte key with a zero first byte: [SplitSecret] with T = 2,
    N = 3 returns three shares with x-coordinates 1, 2, 3; two of them, with
    distinct x-coordinates, combine without error, but to the last 31 bytes
    of the key, not to the key; [Decrypt], which wants a key of [keySize]
    bytes, then refuses the recombined key. *)
Theorem C2_leading_zero_byte_lost :
  length key_leading_zero = 32%nat /\
  SetBytes key_leading_zero < Shamir.prime Shamir.NewShamirSecretSharing /\
  map Shamir.X shares_leading_zero = [1; 2; 3] /\
  NoDup (map Shamir.X (take 2 shares_leading_zero)) /\
  Shamir.CombineShares Shamir.NewShamirSecretSharing (take 2 shares_leading_zero)
  = Shamir.Ok (drop 1 key_leading_zero) /\
  drop 1 key_leading_zero <> key_leading_zero /\
  (forall host encData,
     Decrypt host encData (drop 1 key_leading_zero)
     = Error (ErrWrapped "invalid key size")).
Proof.
  split; [reflexivity|]. split; [reflexivity|]. split; [reflexivity|].
  split; [|split; [|split]].
  - apply (bool_decide_unpack _). vm_compute. exact I.
  - vm_compute. reflexivity.
  - intros H. apply (f_equal length) in H. discriminate.
  - intros host encData. reflexivity.
Qed.

(** ** C3: the threshold *)

(** C3, as stated: of a split with threshold 2, a single share combines to a
    value without error, and all three shares combine too. *)
Lemma C3_combine_ignores_threshold :
  split_sample = [ {| Shamir.X := 1; Shamir.Y := 49 |};
                   {| Shamir.X := 2; Shamir.Y := 56 |};
                   {| Shamir.X := 3; Shamir.Y := 63 |} ] /\
  Shamir.CombineShares Shamir.NewShamirSecretSharing (take 1 split_sample)
  = Shamir.Ok [x31] /\
  Shamir.CombineShares Shamir.NewShamirSecretSharing split_sample
  = Shamir.Ok [x2a].
Proof. vm_compute. repeat split; reflexivity. Qed.

(** C3, amended: [CombineShares] has no notion of the threshold. It
    succeeds exactly when at least one share is given and the x-coordinates
    are pairwise distinct modulo the prime; given fewer than T shares of a
    split it returns a value instead of an error, and more than T shares
    succeed too. The rejection of fewer than T shares is made by
    [OpenCapsule], which answers InsufficientShares when fewer shares than
    the capsule's threshold are presented. *)
Theorem C3_combine_success (host : Host) (k : Keeper) (ctx : Ctx) (id : N)
        (c : TimeCapsule) (accessor : string) (shares : list Shamir.Share) :
  open_guards host k ctx id c accessor ->
  ((exists secret,
      Shamir.CombineShares Shamir.NewShamirSecretSharing shares = Shamir.Ok secret) <->
   (1 <= length shares)%nat /\
   (forall i j si sj, shares !! i = Some si -> shares !! j = Some sj -> i <> j ->
      Shamir.X si mod Shamir.prime Shamir.NewShamirSecretSharing
      <> Shamir.X sj mod Shamir.prime Shamir.NewShamirSecretSharing)) /\
  ((length shares < N.to_nat (Threshold c))%nat ->
   OpenCapsule host k ctx id accessor shares = (Error ErrInsufficientShares, k)).
Proof.
  intros Hg. split.
  - apply CombineShares_succeeds_prime.
  - intros Hlt. rewrite (OpenCapsule_after_guards _ _ _ _ _ _ _ Hg).
    destruct (Nat.ltb_spec (length shares) (N.to_nat (Threshold c))); [reflexivity|lia].
Qed.

Lemma C3_combine_success_witness :
  ((exists secret,
      Shamir.CombineShares Shamir.NewShamirSecretSharing (take 1 split_sample)
      = Shamir.Ok secret) <->
   (1 <= length (take 1 split_sample))%nat /\
   (forall i j si sj, take 1 split_sample !! i = Some si ->
      take 1 split_sample !! j = Some sj -> i <> j ->
      Shamir.X si mod Shamir.prime Shamir.NewShamirSecretSharing
      <> Shamir.X sj mod Shamir.prime Shamir.NewShamirSecretSharing)) /\
  ((length (take 1 split_sample)
    < N.to_nat (Threshold timelock_sample))%nat ->
   OpenCapsule Toy.host keeper_timelock {| BlockTime := 61; BlockHeight := 5 |} 1
     "bob" (take 1 split_sample)
   = (Error ErrInsufficientShares, keeper_timelock)).
Proof.
  apply (C3_combine_success Toy.host keeper_timelock
           {| BlockTime := 61; BlockHeight := 5 |} 1
           timelock_sample "bob" (take 1 split_sample)).
  repeat split.
Defined.

(** ** C4: the modulus *)

(** C4, as stated: the modulus constant is not the secp256k1 field prime. *)
Lemma C4_modulus_is_not_secp256k1 :
  secp256k1_prime = 2 ^ 256 - 2 ^ 32 - 977 /\
  Shamir.prime Shamir.NewShamirSecretSharing <> secp256k1_prime.
Proof. split; [reflexivity|]. vm_compute. discriminate. Qed.

(** C4, amended: the modulus constant of [NewShamirSecretSharing] is the
    prime number [2^256 - 189]; every share ordinate produced by
    [SplitSecret] is the polynomial's value reduced modulo that constant,
    and every integer interpolated by [CombineShares] lies below it. *)
Theorem C4_modulus_constant :
  Shamir.prime Shamir.NewShamirSecretSharing = 2 ^ 256 - 189 /\
  Z.prime (2 ^ 256 - 189) /\
  (forall coefficients x,
     Shamir.evaluatePolynomial Shamir.NewShamirSecretSharing coefficients x
     = poly_eval coefficients x mod (2 ^ 256 - 189)) /\
  (forall shares,
     match Shamir.combine_int Shamir.NewShamirSecretSharing shares with
     | Shamir.Ok z => 0 <= z < 2 ^ 256 - 189
     | Shamir.Fail _ => True
     end).
Proof.
  assert (E : Shamir.prime Shamir.NewShamirSecretSharing = 2 ^ 256 - 189)
    by reflexivity.
  split; [exact E|]. rewrite <- E. split; [apply NewShamir_prime_is_prime|]. split.
  - intros cs x. apply evaluatePolynomial_spec, NewShamir_prime_pos.
  - intros shares.
    destruct (Shamir.combine_int Shamir.NewShamirSecretSharing shares) as [z|e] eqn:H;
      [|exact I].
    eapply combine_int_range; [apply NewShamir_prime_pos|exact H].
Qed.

(** ** C5: the time predicate *)

(** C5, at a block time equal to [unlock_time]: the Active TimeLock capsule
    is not unlockable for [IsUnlockable], which [OpenCapsule] consults, and
    [TimeCondition.Evaluate] is false, while the keeper's other check,
    [VerifyAccessConditions], answers that the time condition is met. *)
Theorem C5_boundary_not_unlockable :
  Status timelock_sample = CapsuleStatus_ACTIVE /\
  CapsuleType_ timelock_sample = CapsuleType_TIME_LOCK /\
  UnlockTime timelock_sample = Some 60 /\
  IsUnlockable timelock_sample 60 = false /\
  TimeCondition_Evaluate {| tc_UnlockTime := 60; tc_Timezone := "" |} 60 = false /\
  fst (OpenCapsule Toy.host keeper_timelock {| BlockTime := 60; BlockHeight := 5 |}
         1 "bob" (take 2 split_sample)) = Error ErrConditionNotMet /\
  VerifyAccessConditions timelock_sample "bob" 60 = (true, TimeConditionMet) /\
  IsUnlockable timelock_sample 61 = true.
Proof. vm_compute. repeat split; reflexivity. Qed.

(** ** C6: who may open *)

(** C6, at a TimeLock capsule of owner alice and recipient bob after its
    unlock time, and at a Safe capsule of the same parties: the owner is
    refused the TimeLock capsule as Unauthorized although the predicate
    holds, and the recipient passes the authorization of the Safe capsule;
    the keeper's other check, [VerifyAccessConditions], decides both cases
    the other way. *)
Theorem C6_owner_refused_recipient_admitted :
  let ctx := {| BlockTime := 61; BlockHeight := 5 |} in
  Owner timelock_sample = "alice"%string /\
  Recipient timelock_sample = "bob"%string /\
  IsUnlockable timelock_sample 61 = true /\
  canAccess timelock_sample "alice" = false /\
  OpenCapsule Toy.host keeper_timelock ctx 1 "alice" (take 2 split_sample)
  = (Error ErrUnauthorized, keeper_timelock) /\
  VerifyAccessConditions timelock_sample "alice" 61 = (true, TimeConditionMet) /\
  CapsuleType_ safe_sample = CapsuleType_SAFE /\
  Owner safe_sample = "alice"%string /\
  canAccess safe_sample "bob" = true /\
  VerifyAccessConditions safe_sample "bob" 61 = (false, OnlyOwnerSafe).
Proof. vm_compute. repeat split; reflexivity. Qed.

(** ** C7: pending transfers *)

(** C7, as stated: after a successful approval a second [ApproveTransfer]
    succeeds again and repeats the ownership update (a second history
    entry's worth of statistics), and a later rejection overwrites the
    terminal status [approved] with [rejected]. *)
Lemma C7_terminal_status_is_overwritten :
  let ctx := {| BlockTime := 50; BlockHeight := 7 |} in
  let '(r1, k1) := ApproveTransfer keeper_pending ctx (approve_msg true) in
  let '(r2, k2) := ApproveTransfer k1 ctx (approve_msg true) in
  let '(r3, k3) := ApproveTransfer k1 ctx (approve_msg false) in
  r1 = Done true /\
  pt_Status <$> pendingTransfers k1 !! "t1"%string = Some "approved"%string /\
  TotalTransfers <$> transferStats k1 = Some 1%N /\
  r2 = Done true /\
  TotalTransfers <$> transferStats k2 = Some 2%N /\
  k2 <> k1 /\
  r3 = Done false /\
  pt_Status <$> pendingTransfers k3 !! "t1"%string = Some "rejected"%string.
Proof.
  vm_compute. repeat split; try reflexivity.
  intros H. injection H. discriminate.
Qed.

(** C7, amended: [ApproveTransfer] does not read the stored status of the
    pending transfer, so a terminal status is not final. For any stored
    record, whatever its status, a message from its [to] at a block time
    not after [expires_at] succeeds: with [approved = true] it performs the
    ownership update (again, if it was already performed) and stores the
    status [approved]; with [approved = false] it stores [rejected] and
    leaves the capsules alone. *)
Theorem C7_approve_ignores_status (k : Keeper) (ctx : Ctx)
        (msg : MsgApproveTransfer) (p : PendingTransfer) (c : TimeCapsule) :
  GetPendingTransfer k (msg_TransferID msg) = Some p ->
  After (BlockTime ctx) (pt_ExpiryTime p) = false ->
  pt_ToOwner p = msg_Approver msg ->
  capsules k !! msg_CapsuleID msg = Some c ->
  exists k',
    ApproveTransfer k ctx msg = (Done (msg_Approved msg), k') /\
    pendingTransfers k' !! msg_TransferID msg
    = Some (set_pt_Status p (if msg_Approved msg then "approved" else "rejected")) /\
    capsules k'
    = (if msg_Approved msg
       then <[msg_CapsuleID msg :=
                set_UpdatedAt (set_Owner c (pt_ToOwner p)) (BlockTime ctx)]> (capsules k)
       else capsules k) /\
    transferStats k'
    = (if msg_Approved msg
       then transferStats (updateTransferStats k ctx "approved")
       else transferStats k).
Proof.
  intros Hp Hexp Hto Hc. unfold ApproveTransfer. rewrite Hp, Hexp.
  rewrite bool_decide_true by assumption. cbn [negb].
  destruct (msg_Approved msg).
  - destruct (TransferCapsuleOwnership_found k ctx (msg_CapsuleID msg) c
                (pt_FromOwner p) (pt_ToOwner p) "approved" (pt_Message p) Hc)
      as (k' & Ht & Hcaps & Hpend & Hstats).
    cbn [pt_FromOwner pt_ToOwner pt_Message set_pt_Status]. rewrite Ht.
    eexists. split; [reflexivity|].
    cbn. rewrite lookup_insert_eq. auto.
  - eexists. split; [reflexivity|].
    cbn. rewrite lookup_insert_eq. auto.
Qed.

Lemma C7_approve_ignores_status_witness :
  let k1 := snd (ApproveTransfer keeper_pending
                   {| BlockTime := 50; BlockHeight := 7 |} (approve_msg true)) in
  exists k',
    ApproveTransfer k1 {| BlockTime := 60; BlockHeight := 8 |} (approve_msg true)
    = (Done true, k') /\
    pendingTransfers k' !! "t1"%string
    = Some (set_pt_Status (set_pt_Status pending_sample "approved") "approved") /\
    capsules k'
    = <[1%N := set_UpdatedAt
                 (set_Owner
                    (set_UpdatedAt
                       (set_Owner (Toy.capsule_of 1 CapsuleType_SAFE "alice" "" None) "bob")
                       50) "bob") 60]> (capsules k1) /\
    transferStats k'
    = transferStats (updateTransferStats k1 {| BlockTime := 60; BlockHeight := 8 |}
                       "approved").
Proof.
  apply (C7_approve_ignores_status
           (snd (ApproveTransfer keeper_pending
                   {| BlockTime := 50; BlockHeight := 7 |} (approve_msg true)))
           {| BlockTime := 60; BlockHeight := 8 |} (approve_msg true)
           (set_pt_Status pending_sample "approved")
           (set_UpdatedAt
              (set_Owner (Toy.capsule_of 1 CapsuleType_SAFE "alice" "" None) "bob") 50));
    reflexivity.
Defined.

(** ** C8: determinism *)

(** C8, at the input of scenario S1: the same message, block context and
    entropy, run with the wall clock before and after the requested
    [unlock_time], is accepted in one run and rejected in the other, so the
    two resulting states differ; and the same message run with different
    entropy stores different share records. *)
Theorem C8_create_depends_on_wall_clock :
  let run1 := Scenario.create Scenario.created_at Scenario.tape in
  let run2 := Scenario.create (Scenario.unlock_time + 1) Scenario.tape in
  let run3 := Scenario.create Scenario.created_at Scenario.tape' in
  (exists c, fst (fst run1) = Done c) /\
  fst (fst run2) = Error ErrInvalidCapsule /\
  is_Some (capsules (snd (fst run1)) !! 1%N) /\
  capsules (snd (fst run2)) !! 1%N = None /\
  (exists c, fst (fst run3) = Done c) /\
  keyShares (snd (fst run3)) !! (1%N, 0%N) <> keyShares (snd (fst run1)) !! (1%N, 0%N).
Proof.
  cbv zeta. split; [|split; [|split; [|split; [|split]]]].
  - eexists. vm_compute. reflexivity.
  - vm_compute. reflexivity.
  - eexists. vm_compute. reflexivity.
  - vm_compute. reflexivity.
  - eexists. vm_compute. reflexivity.
  - vm_compute. intros H. inversion H.
Qed.

(** ** C9: the tick processor *)

(** C9, as stated: a pending transfer whose [expires_at] is before the block
    time keeps the status [pending] across the block's tick. *)
Lemma C9_tick_leaves_pending_transfer :
  let ctx := {| BlockTime := 200; BlockHeight := 9 |} in
  pt_ExpiryTime pending_sample <= BlockTime ctx /\
  pendingTransfers keeper_pending !! "t1"%string = Some pending_sample /\
  pt_Status <$> pendingTransfers (BeginBlocker keeper_pending ctx) !! "t1"%string
  = Some "pending"%string.
Proof. vm_compute. repeat split; try reflexivity. discriminate. Qed.

(** C9, amended: the tick processor never writes the pending-transfer
    collection: after [BeginBlocker] every pending-transfer record is as it
    was before, whatever its [expires_at]. What the tick does is walk the
    capsules and mark Expired each Active DeadMansSwitch capsule whose
    [ExpiresAt] is set and strictly before the block time, leaving every
    other capsule unchanged. *)
Theorem C9_tick_processor (k : Keeper) (ctx : Ctx) :
  pendingTransfers (BeginBlocker k ctx) = pendingTransfers k /\
  (forall id, capsules (BeginBlocker k ctx) !! id
              = tick_capsule (BlockTime ctx) <$> capsules k !! id).
Proof.
  unfold BeginBlocker, processExpiredCapsules. split.
  - apply walk_pending.
  - intros id. rewrite walk_capsules by apply Walk_keys_NoDup.
    case_bool_decide as Hin; [reflexivity|].
    rewrite Walk_keys_elem_of in Hin.
    destruct (capsules k !! id) eqn:E; [|reflexivity].
    exfalso. apply Hin. rewrite <- not_eq_None_Some. eauto.
Qed.

(** ** C10: the shares that are used *)

(** C10: once the guards before the share count pass, [OpenCapsule]
    (1) depends on the presented list only through its first [Threshold]
    entries: two lists of at least [Threshold] shares with the same first
    [Threshold] entries give the same outcome and state, so later entries
    are never read; (2) gives the same outcome whatever the stored share
    records and the capsule's [share_holders] are; (3) fails with
    InvalidKeyShare when an x-coordinate occurs twice among the first
    [Threshold] entries, whatever shares follow. *)
Theorem C10_first_threshold_shares (host : Host) (k : Keeper) (ctx : Ctx)
        (id : N) (c : TimeCapsule) (accessor : string) :
  open_guards host k ctx id c accessor ->
  (forall shares shares',
     (N.to_nat (Threshold c) <= length shares)%nat ->
     (N.to_nat (Threshold c) <= length shares')%nat ->
     take (N.to_nat (Threshold c)) shares = take (N.to_nat (Threshold c)) shares' ->
     OpenCapsule host k ctx id accessor shares
     = OpenCapsule host k ctx id accessor shares') /\
  (forall records holders shares,
     fst (OpenCapsule host
            (set_capsules (set_keyShares k records)
               (<[id := set_ShareHolders c holders]> (capsules k)))
            ctx id accessor shares)
     = fst (OpenCapsule host k ctx id accessor shares)) /\
  (forall shares,
     (N.to_nat (Threshold c) <= length shares)%nat ->
     ~ NoDup (map Shamir.X (take (N.to_nat (Threshold c)) shares)) ->
     OpenCapsule host k ctx id accessor shares = (Error ErrInvalidKeyShare, k)).
Proof.
  intros Hg. split; [|split].
  - intros shares shares' Hl Hl' Htake.
    rewrite !(OpenCapsule_after_guards _ _ _ _ _ _ _ Hg), Htake.
    destruct (Nat.ltb_spec (length shares) (N.to_nat (Threshold c))); [lia|].
    destruct (Nat.ltb_spec (length shares') (N.to_nat (Threshold c))); [lia|].
    reflexivity.
  - intros records holders shares.
    assert (Hg' : open_guards host
                    (set_capsules (set_keyShares k records)
                       (<[id := set_ShareHolders c holders]> (capsules k)))
                    ctx id (set_ShareHolders c holders) accessor).
    { destruct Hg as (Hc & Ha & Hs & Hacc & Hu).
      repeat split; try assumption. cbn. apply lookup_insert_eq. }
    rewrite (OpenCapsule_after_guards _ _ _ _ _ _ _ Hg).
    rewrite (OpenCapsule_after_guards _ _ _ _ _ _ _ Hg').
    cbn [Threshold StorageType IPFSHash EncryptedData_ EncryptionAlgo DataHash
         set_ShareHolders].
    destruct (length shares <? N.to_nat (Threshold c))%nat; [reflexivity|].
    destruct (Shamir.CombineShares _ _); [|reflexivity].
    destruct (if bool_decide (StorageType c = "ipfs") then _ else _);
      try reflexivity.
    destruct (Decrypt host _ _); try reflexivity.
    destruct (negb _); reflexivity.
  - intros shares Hl Hdup.
    rewrite (OpenCapsule_after_guards _ _ _ _ _ _ _ Hg).
    destruct (Nat.ltb_spec (length shares) (N.to_nat (Threshold c))); [lia|].
    destruct (CombineShares_duplicate _ Hdup) as [e ->]. reflexivity.
Qed.

Lemma C10_first_threshold_shares_witness :
  let ctx := {| BlockTime := 61; BlockHeight := 5 |} in
  let T := N.to_nat (Threshold timelock_sample) in
  (forall shares shares',
     (T <= length shares)%nat -> (T <= length shares')%nat ->
     take T shares = take T shares' ->
     OpenCapsule Toy.host keeper_timelock ctx 1 "bob" shares
     = OpenCapsule Toy.host keeper_timelock ctx 1 "bob" shares') /\
  (forall records holders shares,
     fst (OpenCapsule Toy.host
            (set_capsules (set_keyShares keeper_timelock records)
               (<[1%N := set_ShareHolders timelock_sample holders]>
                  (capsules keeper_timelock)))
            ctx 1 "bob" shares)
     = fst (OpenCapsule Toy.host keeper_timelock ctx 1 "bob" shares)) /\
  (forall shares,
     (T <= length shares)%nat ->
     ~ NoDup (map Shamir.X (take T shares)) ->
     OpenCapsule Toy.host keeper_timelock ctx 1 "bob" shares
     = (Error ErrInvalidKeyShare, keeper_timelock)).
Proof.
  exact (C10_first_threshold_shares Toy.host keeper_timelock
           {| BlockTime := 61; BlockHeight := 5 |} 1 timelock_sample "bob"
           open_guards_timelock).
Defined.

(** The third part at work: the list repeats the first share and then holds
    all three valid shares; the open fails. *)
Example duplicate_before_valid_shares :
  shares_dup_then_valid
  = [ {| Shamir.X := 1; Shamir.Y := 49 |}; {| Shamir.X := 1; Shamir.Y := 49 |};
      {| Shamir.X := 2; Shamir.Y := 56 |}; {| Shamir.X := 3; Shamir.Y := 63 |} ] /\
  (exists secret,
     Shamir.CombineShares Shamir.NewShamirSecretSharing (drop 2 shares_dup_then_valid)
     = Shamir.Ok secret) /\
  fst (OpenCapsule Toy.host keeper_timelock {| BlockTime := 61; BlockHeight := 5 |}
         1 "bob" shares_dup_then_valid) = Error ErrInvalidKeyShare.
Proof. vm_compute. repeat split; eauto. Qed.

(** * Part V: further properties of the code *)

(** ** Serialized shares *)

Lemma SetBytes_app a b :
  SetBytes (a ++ b) = SetBytes a * 256 ^ Z.of_nat (length b) + SetBytes b.
Proof.
  induction b as [|x b IH] using rev_ind.
  - rewrite app_nil_r. cbn [length]. change (SetBytes []) with 0. cbn. lia.
  - rewrite app_assoc, !SetBytes_snoc, IH, length_app. cbn [length].
    rewrite Nat2Z.inj_add, Z.pow_add_r by lia. change (Z.of_nat 1) with 1. lia.
Qed.

Lemma Bytes_loop_app fuel : forall z acc,
  Bytes_loop fuel z acc = Bytes_loop fuel z [] ++ acc.
Proof.
  induction fuel as [|fuel IH]; intros z acc; cbn [Bytes_loop]; [reflexivity|].
  destruct (z =? 0); [reflexivity|].
  rewrite (IH _ (byte_of_Z z :: acc)), (IH _ [byte_of_Z z]).
  now rewrite <- app_assoc.
Qed.

Lemma Z_of_byte_of_Z z : Z_of_byte (byte_of_Z z) = z mod 256.
Proof.
  unfold Z_of_byte, byte_of_Z.
  pose proof (Z.mod_pos_bound z 256 ltac:(lia)) as Hb.
  destruct (Byte.of_N (Z.to_N (z mod 256))) as [b|] eqn:E.
  - apply Byte.to_of_N in E. rewrite E. lia.
  - apply Byte.of_N_None_iff in E. lia.
Qed.

Lemma SetBytes_Bytes_loop fuel : forall z,
  0 <= z < 256 ^ Z.of_nat fuel -> SetBytes (Bytes_loop fuel z []) = z.
Proof.
  induction fuel as [|fuel IH]; intros z Hz.
  - cbn in Hz. cbn. unfold SetBytes. cbn. lia.
  - cbn [Bytes_loop]. destruct (Z.eqb_spec z 0) as [->|Hnz]; [reflexivity|].
    rewrite Bytes_loop_app, SetBytes_snoc, Z_of_byte_of_Z.
    rewrite IH.
    + pose proof (Z.div_mod z 256 ltac:(lia)). lia.
    + rewrite Nat2Z.inj_succ, Z.pow_succ_r in Hz by lia.
      split; [apply Z.div_pos; lia|]. apply Z.div_lt_upper_bound; lia.
Qed.

Lemma Bytes_loop_length fuel : forall z n,
  0 <= z < 256 ^ Z.of_nat n -> (length (Bytes_loop fuel z []) <= n)%nat.
Proof.
  induction fuel as [|fuel IH]; intros z n Hz; cbn [Bytes_loop]; [cbn; lia|].
  destruct (Z.eqb_spec z 0) as [->|Hnz]; [cbn; lia|].
  rewrite Bytes_loop_app, length_app. cbn [length].
  destruct n as [|n]; [cbn in Hz; lia|].
  rewrite Nat2Z.inj_succ, Z.pow_succ_r in Hz by lia.
  specialize (IH (z / 256) n).
  assert (0 <= z / 256 < 256 ^ Z.of_nat n).
  { split; [apply Z.div_pos; lia|]. apply Z.div_lt_upper_bound; lia. }
  specialize (IH ltac:(assumption)). lia.
Qed.

Lemma log2_fuel z : 0 <= z -> z < 256 ^ Z.of_nat (Z.to_nat (Z.log2 z) + 1).
Proof.
  intros Hz. destruct (Z.eq_dec z 0) as [->|Hnz].
  - apply Z.pow_pos_nonneg; lia.
  - pose proof (Z.log2_nonneg z).
    pose proof (Z.log2_spec z ltac:(lia)) as [_ Hu].
    rewrite Nat2Z.inj_add, Z2Nat.id by lia. change (Z.of_nat 1) with 1.
    eapply Z.lt_le_trans; [exact Hu|].
    change 256 with (2 ^ 8). rewrite <- Z.pow_mul_r by lia.
    apply Z.pow_le_mono_r; lia.
Qed.

(** [SetBytes] undoes [Bytes] up to the sign. *)
Lemma SetBytes_Bytes z : SetBytes (Bytes z) = Z.abs z.
Proof.
  unfold Bytes. apply SetBytes_Bytes_loop.
  split; [lia|]. apply log2_fuel. lia.
Qed.

Lemma Bytes_length z k :
  0 <= k -> Z.log2 (Z.abs z) < 8 * k -> Z.of_nat (length (Bytes z)) <= k.
Proof.
  intros Hk H. unfold Bytes.
  pose proof (Bytes_loop_length (Z.to_nat (Z.log2 (Z.abs z)) + 1) (Z.abs z) (Z.to_nat k)) as Hl.
  rewrite Z2Nat.id in Hl by lia.
  assert (Z.abs z < 256 ^ k).
  { destruct (Z.eq_dec (Z.abs z) 0) as [->|Hnz]; [apply Z.pow_pos_nonneg; lia|].
    pose proof (Z.log2_spec (Z.abs z) ltac:(lia)) as [_ Hu].
    eapply Z.lt_le_trans; [exact Hu|].
    change 256 with (2 ^ 8). rewrite <- Z.pow_mul_r by lia.
    apply Z.pow_le_mono_r; lia. }
  specialize (Hl ltac:(lia)). lia.
Qed.

(** The two length bytes written by [shareToBytes] read back as the
    length. *)
Lemma length_prefix n rest :
  Z.of_nat n < 65536 ->
  let data := byte_of_Z (Z.shiftr (Z.of_nat n) 8) :: byte_of_Z (Z.of_nat n) :: rest in
  Z.to_nat (Z.lor (Z.shiftl (byte_at data 0) 8) (byte_at data 1)) = n.
Proof.
  intros Hn data. unfold data, byte_at. cbn [lookup list_lookup].
  rewrite !Z_of_byte_of_Z, Z.shiftr_div_pow2, Z.shiftl_mul_pow2 by lia.
  change (2 ^ 8) with 256.
  assert (Hq : 0 <= Z.of_nat n / 256 < 256).
  { split; [apply Z.div_pos; lia|]. apply Z.div_lt_upper_bound; lia. }
  rewrite (Z.mod_small (Z.of_nat n / 256)) by lia.
  pose proof (Z.mod_pos_bound (Z.of_nat n) 256 ltac:(lia)) as Hr.
  replace (Z.lor (Z.of_nat n / 256 * 256) (Z.of_nat n mod 256))
    with (Z.of_nat n / 256 * 256 + Z.of_nat n mod 256).
  - pose proof (Z.div_mod (Z.of_nat n) 256 ltac:(lia)). lia.
  - symmetry. rewrite <- Z.lxor_lor.
    + rewrite <- Z.add_nocarry_lxor; [reflexivity|].
      change 256 with (2 ^ 8). rewrite <- Z.shiftl_mul_pow2 by lia.
      apply Z.bits_inj'. intros i Hi. rewrite Z.land_spec, Z.bits_0.
      destruct (Z.lt_ge_cases i 8).
      * rewrite Z.shiftl_spec_low by lia. reflexivity.
      * rewrite (Z.mod_pow2_bits_high (Z.of_nat n) 8 i) by lia. apply andb_false_r.
    + change 256 with (2 ^ 8). rewrite <- Z.shiftl_mul_pow2 by lia.
      apply Z.bits_inj'. intros i Hi. rewrite Z.land_spec, Z.bits_0.
      destruct (Z.lt_ge_cases i 8).
      * rewrite Z.shiftl_spec_low by lia. reflexivity.
      * rewrite (Z.mod_pow2_bits_high (Z.of_nat n) 8 i) by lia. apply andb_false_r.
Qed.

Lemma bytesToShare_ShareToBytes_abs share junk :
  Z.of_nat (length (Bytes (Shamir.X share))) < 65536 ->
  Z.of_nat (length (Bytes (Shamir.Y share))) < 65536 ->
  bytesToShare (ShareToBytes share ++ junk)
  = Some {| Shamir.X := Z.abs (Shamir.X share); Shamir.Y := Z.abs (Shamir.Y share) |}.
Proof.
  intros Hx Hy. unfold ShareToBytes.
  set (xb := Bytes (Shamir.X share)) in *. set (yb := Bytes (Shamir.Y share)) in *.
  set (lx := length xb) in *. set (ly := length yb) in *.
  cbn [app]. rewrite <- !app_assoc. cbn [app].
  unfold bytesToShare.
  match goal with |- context [length ?d] => set (data := d) end.
  assert (Hlen : length data = (2 + lx + 2 + ly + length junk)%nat).
  { unfold data. cbn [length]. rewrite !length_app. cbn [length].
    rewrite length_app. fold lx ly. lia. }
  rewrite Hlen.
  destruct (Nat.ltb_spec (2 + lx + 2 + ly + length junk) 4); [lia|].
  assert (E1 : Z.to_nat (Z.lor (Z.shiftl (byte_at data 0) 8) (byte_at data 1)) = lx).
  { unfold data. apply (length_prefix lx). exact Hx. }
  rewrite E1.
  destruct (Nat.ltb_spec (2 + lx + 2 + ly + length junk) (2 + lx + 2)); [lia|].
  assert (Edrop : drop (2 + lx) data
                  = byte_of_Z (Z.shiftr (Z.of_nat ly) 8) :: byte_of_Z (Z.of_nat ly)
                    :: yb ++ junk).
  { unfold data. change (drop (2 + lx) (?a :: ?b :: ?l)) with (drop lx l).
    rewrite drop_app_length'; [reflexivity|reflexivity]. }
  assert (E2 : Z.to_nat (Z.lor (Z.shiftl (byte_at data (2 + lx)) 8)
                               (byte_at data (2 + lx + 1))) = ly).
  { assert (Eat : forall i, byte_at data (2 + lx + i) = byte_at (drop (2 + lx) data) i).
    { intros i. unfold byte_at. now rewrite lookup_drop. }
    rewrite <- (Nat.add_0_r (2 + lx)) at 1. rewrite !Eat, Edrop.
    apply (length_prefix ly (yb ++ junk) Hy). }
  rewrite E2.
  destruct (Nat.ltb_spec (2 + lx + 2 + ly + length junk) (2 + lx + 2 + ly)); [lia|].
  f_equal. f_equal.
  - unfold data. change (drop 2 (?a :: ?b :: ?l)) with l.
    rewrite take_app_length'; [|reflexivity].
    apply SetBytes_Bytes.
  - rewrite <- (drop_drop data 2 (2 + lx)), Edrop. change (drop 2 (?a :: ?b :: ?l)) with l.
    rewrite take_app_length'; [|reflexivity]. apply SetBytes_Bytes.
Qed.

(** X1. A share whose coordinates are not negative and have fewer than
    524280 bits (65535 bytes) is read back by [bytesToShare] from what
    [shareToBytes] wrote, whatever bytes follow it: trailing bytes are
    ignored. *)
Theorem bytesToShare_ShareToBytes (share : Shamir.Share) (junk : list byte) :
  0 <= Shamir.X share -> Z.log2 (Shamir.X share) < 524280 ->
  0 <= Shamir.Y share -> Z.log2 (Shamir.Y share) < 524280 ->
  bytesToShare (ShareToBytes share ++ junk) = Some share.
Proof.
  intros Hx Hlx Hy Hly.
  rewrite bytesToShare_ShareToBytes_abs.
  - destruct share as [x y]. cbn in *. now rewrite !Z.abs_eq by lia.
  - pose proof (Bytes_length (Shamir.X share) 65535) as H.
    rewrite Z.abs_eq in H by lia. lia.
  - pose proof (Bytes_length (Shamir.Y share) 65535) as H.
    rewrite Z.abs_eq in H by lia. lia.
Qed.

Lemma bytesToShare_ShareToBytes_witness :
  bytesToShare (ShareToBytes {| Shamir.X := 1; Shamir.Y := 49 |} ++ [xff; x00])
  = Some {| Shamir.X := 1; Shamir.Y := 49 |}.
Proof.
  apply (bytesToShare_ShareToBytes {| Shamir.X := 1; Shamir.Y := 49 |} [xff; x00]);
    cbn; lia.
Defined.

(** ** Splitting: parameters, entropy and the shape of the shares *)

Lemma draw_coefficients_drop sss : forall n r cs r',
  Shamir.draw_coefficients sss n r = Some (cs, r') ->
  (n <= length r)%nat /\ r' = drop n r.
Proof.
  induction n as [|n IH]; intros r cs r' H; cbn [Shamir.draw_coefficients] in H.
  - inversion H; subst. split; [lia|reflexivity].
  - destruct r as [|z r]; [discriminate|]. cbn [rand_Int] in H.
    destruct (Shamir.draw_coefficients sss n r) as [[cs1 r2]|] eqn:E; [|discriminate].
    inversion H; subst. destruct (IH _ _ _ E) as [Hl ->]. cbn [length drop]. split; [lia|reflexivity].
Qed.

Lemma int_below_prime N :
  N < 2 ^ 63 -> N < Shamir.prime Shamir.NewShamirSecretSharing.
Proof. intros H. eapply Z.lt_trans; [exact H|]. reflexivity. Qed.

(** X2. [SplitSecret] succeeds exactly when [1 <= T <= N], the secret read
    as a big-endian integer is below the prime, and the entropy source
    yields [T - 1] draws; it then returns [N] shares with the x-coordinates
    [1..N] and has consumed exactly [T - 1] draws. *)
Theorem SplitSecret_succeeds_iff (r : Reader) (secret : list byte) (T N : Z) :
  ((exists shares r',
      Shamir.SplitSecret Shamir.NewShamirSecretSharing r secret T N
      = (Shamir.Ok shares, r')) <->
   1 <= T <= N /\
   SetBytes secret < Shamir.prime Shamir.NewShamirSecretSharing /\
   (Z.to_nat (T - 1) <= length r)%nat) /\
  (forall shares r',
     Shamir.SplitSecret Shamir.NewShamirSecretSharing r secret T N
     = (Shamir.Ok shares, r') ->
     Z.of_nat (length shares) = N /\
     map Shamir.X shares = seqZ 1 N /\
     r' = drop (Z.to_nat (T - 1)) r).
Proof.
  split; [split|].
  - intros (shares & r' & H).
    pose proof (SplitSecret_Ok _ _ _ _ _ _ _ H) as (HT & Hs & _).
    split; [exact HT|]. split; [exact Hs|].
    unfold Shamir.SplitSecret in H.
    destruct (T >? N); [discriminate|]. destruct (T <? 1); [discriminate|].
    destruct (N <? 1); [discriminate|].
    destruct (SetBytes secret >=? _); [discriminate|].
    destruct (Shamir.draw_coefficients _ _ r) as [[cs r1]|] eqn:E; [|discriminate].
    now apply draw_coefficients_drop in E.
  - intros (HT & Hs & Hr). now apply SplitSecret_succeeds.
  - intros shares r' H.
    pose proof (SplitSecret_Ok _ _ _ _ _ _ _ H) as (HT & Hs & cs & Hcs & ->).
    split; [|split].
    + unfold Shamir.make_shares. rewrite length_map, length_seqZ. lia.
    + apply make_shares_X.
    + unfold Shamir.SplitSecret in H.
      destruct (T >? N); [discriminate|]. destruct (T <? 1); [discriminate|].
      destruct (N <? 1); [discriminate|].
      destruct (SetBytes secret >=? _); [discriminate|].
      destruct (Shamir.draw_coefficients _ _ r) as [[cs1 r1]|] eqn:E; [|discriminate].
      inversion H; subst. now apply draw_coefficients_drop in E.
Qed.

Lemma ValidateShares_loop_None sss shares : forall i,
  ValidateShares_loop sss i shares = None <->
  Forall (fun s => 0 < Shamir.X s < Shamir.prime sss /\ Shamir.Y s < Shamir.prime sss)
         shares.
Proof.
  induction shares as [|s rest IH]; intros i; cbn [ValidateShares_loop].
  - split; [constructor|reflexivity].
  - rewrite Forall_cons.
    destruct (Z.leb_spec (Shamir.X s) 0).
    { split; [discriminate|]. intros [[? ?] _]. lia. }
    destruct (Z.geb_spec (Shamir.X s) (Shamir.prime sss)); cbn [orb].
    { split; [discriminate|]. intros [[? ?] _]. lia. }
    destruct (Z.geb_spec (Shamir.Y s) (Shamir.prime sss)).
    { split; [discriminate|]. intros [[? ?] _]. lia. }
    rewrite IH. split; [intros; split; [lia|assumption]|intros [_ ?]; assumption].
Qed.

Lemma ValidateShares_None sss shares :
  ValidateShares sss shares = None <->
  shares <> [] /\
  Forall (fun s => 0 < Shamir.X s < Shamir.prime sss /\ Shamir.Y s < Shamir.prime sss)
         shares.
Proof.
  unfold ValidateShares. destruct shares as [|s rest].
  - cbn. split; [discriminate|intros [H _]; congruence].
  - cbn [length Nat.eqb]. rewrite ValidateShares_loop_None.
    split; [intros; split; [discriminate|assumption]|intros [_ ?]; assumption].
Qed.

(** X3. Whatever [SplitSecret] returns passes [ValidateShares]: the shares
    are at least one, every x-coordinate is positive and every coordinate
    is below the prime ([N] is an [int], hence below [2^63]). *)
Theorem SplitSecret_ValidateShares (r r' : Reader) (secret : list byte) (T N : Z)
        (shares : list Shamir.Share) :
  N < 2 ^ 63 ->
  Shamir.SplitSecret Shamir.NewShamirSecretSharing r secret T N
  = (Shamir.Ok shares, r') ->
  ValidateShares Shamir.NewShamirSecretSharing shares = None.
Proof.
  intros HN H. apply int_below_prime in HN.
  pose proof (SplitSecret_Ok _ _ _ _ _ _ _ H) as (HT & Hs & cs & Hcs & ->).
  apply ValidateShares_None. split.
  - intros E. apply (f_equal length) in E. unfold Shamir.make_shares in E.
    rewrite length_map, length_seqZ in E. cbn in E. lia.
  - apply Forall_forall. intros s Hin.
    apply make_shares_elem in Hin as [Hx Hy]; [|apply NewShamir_prime_is_prime].
    pose proof NewShamir_prime_pos.
    split; [lia|]. rewrite Hy. apply Z.mod_pos_bound. assumption.
Qed.

Lemma SplitSecret_ValidateShares_witness :
  ValidateShares Shamir.NewShamirSecretSharing split_sample = None.
Proof.
  apply (SplitSecret_ValidateShares [7] [] [x2a] 2 3 split_sample);
    [reflexivity|vm_compute; reflexivity].
Defined.

(** X4. Shares that pass [ValidateShares] and have pairwise different
    x-coordinates always combine: [CombineShares] returns a value, the
    modular inverse never fails. *)
Theorem ValidateShares_CombineShares (shares : list Shamir.Share) :
  ValidateShares Shamir.NewShamirSecretSharing shares = None ->
  NoDup (map Shamir.X shares) ->
  exists secret,
    Shamir.CombineShares Shamir.NewShamirSecretSharing shares = Shamir.Ok secret.
Proof.
  intros Hv Hnd. apply ValidateShares_None in Hv as [Hne Hall].
  apply CombineShares_succeeds_prime. split.
  - destruct shares; [congruence|cbn; lia].
  - intros i j si sj Hi Hj Hij.
    rewrite Forall_forall in Hall.
    pose proof (Hall si (list_elem_of_lookup_2 _ _ _ Hi)) as [Hxi _].
    pose proof (Hall sj (list_elem_of_lookup_2 _ _ _ Hj)) as [Hxj _].
    rewrite !Z.mod_small by lia. intros E.
    apply Hij. eapply NoDup_lookup; [exact Hnd| |].
    + rewrite list_lookup_fmap, Hi. reflexivity.
    + rewrite list_lookup_fmap, Hj. cbn. now rewrite E.
Qed.

Lemma ValidateShares_CombineShares_witness :
  exists secret,
    Shamir.CombineShares Shamir.NewShamirSecretSharing (take 2 split_sample)
    = Shamir.Ok secret.
Proof.
  apply (ValidateShares_CombineShares (take 2 split_sample)).
  - vm_compute. reflexivity.
  - apply (bool_decide_unpack _). vm_compute. exact I.
Defined.

Lemma strip_zeros_nonzero_head b rest :
  b <> x00 -> strip_zeros (b :: rest) = b :: rest.
Proof.
  intros Hb. cbn [strip_zeros].
  destruct (Byte.eqb b x00) eqn:E; [|reflexivity].
  apply Byte.byte_dec_bl in E. contradiction.
Qed.

(** X5. The round trip of the sharing: for every split and every selection
    of at least [T] of its shares with distinct x-coordinates,
    [CombineShares] returns the secret without its leading zero bytes;
    hence the secret itself when it is empty or starts with a byte other
    than zero. *)
Theorem SplitSecret_CombineShares_round_trip (r r' : Reader) (secret : list byte)
        (T N : Z) (shares S : list Shamir.Share) :
  N < 2 ^ 63 ->
  Shamir.SplitSecret Shamir.NewShamirSecretSharing r secret T N
  = (Shamir.Ok shares, r') ->
  (forall s, s ∈ S -> s ∈ shares) ->
  NoDup (map Shamir.X S) ->
  (Z.to_nat T <= length S)%nat ->
  Shamir.CombineShares Shamir.NewShamirSecretSharing S = Shamir.Ok (strip_zeros secret) /\
  (head secret <> Some x00 ->
   Shamir.CombineShares Shamir.NewShamirSecretSharing S = Shamir.Ok secret).
Proof.
  intros HN Hsplit Hsub Hnd Hlen. apply int_below_prime in HN.
  destruct (SplitSecret_CombineShares _ _ _ _ _ _ HN Hsplit) as (_ & _ & Hc).
  specialize (Hc S Hsub Hnd Hlen). split; [exact Hc|].
  intros Hhd. rewrite Hc. f_equal.
  destruct secret as [|b rest]; [reflexivity|].
  apply strip_zeros_nonzero_head. intros ->. now apply Hhd.
Qed.

Lemma SplitSecret_CombineShares_round_trip_witness :
  Shamir.CombineShares Shamir.NewShamirSecretSharing (drop 1 split_sample)
  = Shamir.Ok (strip_zeros [x2a]) /\
  (head [x2a] <> Some x00 ->
   Shamir.CombineShares Shamir.NewShamirSecretSharing (drop 1 split_sample)
   = Shamir.Ok [x2a]).
Proof.
  apply (SplitSecret_CombineShares_round_trip [7] [] [x2a] 2 3 split_sample
           (drop 1 split_sample)).
  - reflexivity.
  - vm_compute. reflexivity.
  - intros s Hs. apply list_elem_of_lookup in Hs as [i Hi].
    rewrite lookup_drop in Hi. now apply list_elem_of_lookup_2 in Hi.
  - apply (bool_decide_unpack _). vm_compute. exact I.
  - vm_compute. lia.
Defined.

(** ** Symmetric encryption: round trips *)

Lemma rand_Read_length : forall n r bs r',
  rand_Read r n = Some (bs, r') -> length bs = n /\ r' = drop n r.
Proof.
  induction n as [|n IH]; intros r bs r' H.
  - destruct r; cbn in H; inversion H; subst; split; reflexivity.
  - destruct r as [|z r]; [discriminate|]. cbn [rand_Read] in H.
    destruct (rand_Read r n) as [[bs1 r1]|] eqn:E; [|discriminate].
    inversion H; subst. destruct (IH _ _ _ E) as [Hl ->]. cbn [length drop].
    split; [now rewrite Hl|reflexivity].
Qed.

Lemma rand_Read_enough : forall n r,
  (n <= length r)%nat -> exists bs, rand_Read r n = Some (bs, drop n r).
Proof.
  induction n as [|n IH]; intros r Hr.
  - destruct r; eexists; reflexivity.
  - destruct r as [|z r]; [cbn in Hr; lia|]. cbn [length] in Hr. cbn [rand_Read].
    destruct (IH r ltac:(lia)) as [bs ->]. eexists. reflexivity.
Qed.

Lemma Toy_aead_correct : aead_correct Toy.host.
Proof.
  intros key nonce data.
  change (Toy.open key nonce (Toy.seal key nonce data) = Some data).
  unfold Toy.open, Toy.seal. rewrite reverse_app.
  change (reverse [xff]) with [xff]. cbn [app].
  change (Byte.eqb xff xff) with true. cbv iota. now rewrite reverse_involutive.
Qed.

Lemma Encrypt_Done host r data key :
  length key = keySize -> (NonceSize <= length r)%nat ->
  exists nonce,
    length nonce = NonceSize /\
    Encrypt host r data key
    = (Done {| Data := aead_seal host key nonce data; Nonce := nonce; Salt := [];
               Algorithm := "AES-256-GCM" |}, drop NonceSize r).
Proof.
  intros Hk Hr. unfold Encrypt. rewrite Hk, Nat.eqb_refl. cbn [negb].
  destruct (rand_Read_enough NonceSize r Hr) as [nonce E]. rewrite E.
  exists nonce. split; [|reflexivity]. now apply rand_Read_length in E.
Qed.

Lemma Decrypt_sealed host key nonce data salt :
  aead_correct host -> length key = keySize -> length nonce = NonceSize ->
  Decrypt host {| Data := aead_seal host key nonce data; Nonce := nonce;
                  Salt := salt; Algorithm := "AES-256-GCM" |} key
  = Done data.
Proof.
  intros Hlaw Hk Hn. unfold Decrypt, gcm_Open. cbn [Data Nonce Algorithm].
  rewrite Hk, Hn, !Nat.eqb_refl. cbn [negb].
  rewrite bool_decide_true by reflexivity. cbn [negb]. now rewrite Hlaw.
Qed.

(** X6. With a 32-byte key and 12 bytes of entropy for the nonce, [Encrypt]
    succeeds, labels its result AES-256-GCM with a 12-byte nonce, and
    [Decrypt] of that result under the same key returns the data (the
    cipher of the host being correct). A key of another length is refused
    by both. *)
Theorem Encrypt_Decrypt (host : Host) (r : Reader) (data key : list byte) :
  aead_correct host ->
  (length key = 32%nat -> (12 <= length r)%nat ->
   exists encData,
     Encrypt host r data key = (Done encData, drop 12 r) /\
     length (Nonce encData) = 12%nat /\
     Algorithm encData = "AES-256-GCM"%string /\
     Decrypt host encData key = Done data) /\
  (length key <> 32%nat ->
   Encrypt host r data key = (Error (ErrWrapped "invalid key size"), r) /\
   forall encData,
     Decrypt host encData key = Error (ErrWrapped "invalid key size")).
Proof.
  intros Hlaw. split.
  - intros Hk Hr. destruct (Encrypt_Done host r data key Hk Hr) as (nonce & Hn & E).
    eexists. split; [exact E|]. cbn [Nonce Algorithm].
    split; [exact Hn|]. split; [reflexivity|]. now apply Decrypt_sealed.
  - intros Hk. unfold Encrypt, Decrypt, keySize.
    destruct (Nat.eqb_spec (length key) 32); [contradiction|]. cbn [negb].
    split; [reflexivity|]. intros encData. reflexivity.
Qed.

Lemma Encrypt_Decrypt_witness :
  exists encData,
    Encrypt Toy.host (seqZ 1 13) Scenario.hello (replicate 32 x01)
    = (Done encData, drop 12 (seqZ 1 13)) /\
    length (Nonce encData) = 12%nat /\
    Algorithm encData = "AES-256-GCM"%string /\
    Decrypt Toy.host encData (replicate 32 x01) = Done Scenario.hello.
Proof.
  apply (proj1 (Encrypt_Decrypt Toy.host (seqZ 1 13) Scenario.hello
                  (replicate 32 x01) Toy_aead_correct));
    [reflexivity|vm_compute; lia].
Defined.

Lemma share_fits_round_trip s junk :
  share_fits s -> bytesToShare (ShareToBytes s ++ junk) = Some s.
Proof.
  intros [[Hx Hlx] [Hy Hly]]. rewrite bytesToShare_ShareToBytes_abs.
  - destruct s as [x y]. cbn in *. now rewrite !Z.abs_eq by lia.
  - pose proof (Bytes_length (Shamir.X s) 65535) as H.
    rewrite Z.abs_eq in H by lia. lia.
  - pose proof (Bytes_length (Shamir.Y s) 65535) as H.
    rewrite Z.abs_eq in H by lia. lia.
Qed.

Lemma EncryptShares_loop_round_trip host :
  aead_correct host ->
  forall shares keys r i,
    length shares = length keys ->
    Forall (fun key => length key = 32%nat) keys ->
    (12 * length shares <= length r)%nat ->
    Forall share_fits shares ->
    exists es,
      EncryptShares_loop host r i shares keys = (Done es, drop (12 * length shares) r) /\
      length es = length shares /\
      forall j s key, shares !! j = Some s -> keys !! j = Some key ->
        exists e bytes,
          es !! j = Some e /\ es_Index e = i + Z.of_nat j /\
          Decrypt host (es_EncryptedData e) key = Done bytes /\
          bytesToShare bytes = Some s.
Proof.
  intros Hlaw. induction shares as [|s shares IH]; intros keys r i Hlen Hk Hr Hfit.
  - destruct keys; [|discriminate]. exists []. cbn. split; [reflexivity|].
    split; [reflexivity|]. intros j s key Hj. discriminate.
  - destruct keys as [|key keys]; [discriminate|].
    apply Forall_cons in Hk as [Hk1 Hk]. apply Forall_cons in Hfit as [Hs Hfit].
    cbn [length] in Hr, Hlen. cbn [EncryptShares_loop].
    destruct (Encrypt_Done host r (ShareToBytes s) key Hk1 ltac:(unfold NonceSize; lia))
      as (nonce & Hn & E).
    rewrite E.
    destruct (IH keys (drop NonceSize r) (i + 1) ltac:(lia) Hk
                ltac:(rewrite length_drop; unfold NonceSize; lia) Hfit)
      as (es & Ees & Hles & Hall).
    rewrite Ees. eexists. split; [|split].
    + rewrite drop_drop. do 2 f_equal. unfold NonceSize. cbn [length]. lia.
    + cbn [length]. now rewrite Hles.
    + intros [|j] s' key' Hj Hkj; cbn in Hj, Hkj.
      * inversion Hj; inversion Hkj; subst. eexists _, _. cbn [lookup list_lookup].
        split; [reflexivity|]. cbn [es_Index es_EncryptedData]. split; [lia|].
        split; [now apply Decrypt_sealed|].
        rewrite <- (app_nil_r (ShareToBytes s')).
        now apply share_fits_round_trip.
      * destruct (Hall j s' key' Hj Hkj) as (e & bytes & He & Hi & Hd & Hb).
        exists e, bytes. cbn [lookup list_lookup]. split; [exact He|].
        split; [lia|]. split; assumption.
Qed.

(** X7. [EncryptShares] and back: with as many 32-byte keys as shares and
    12 bytes of entropy per share, [EncryptShares] returns one record per
    share, numbered from 0 in order, and decrypting record [j] under key
    [j] and parsing the bytes with [bytesToShare] gives share [j] back;
    with a different number of keys it fails without drawing entropy. *)
Theorem EncryptShares_round_trip (host : Host) (r : Reader)
        (shares : list Shamir.Share) (keys : list (list byte)) :
  aead_correct host ->
  Forall (fun key => length key = 32%nat) keys ->
  (12 * length shares <= length r)%nat ->
  Forall share_fits shares ->
  (length shares = length keys ->
   exists es,
     EncryptShares host r shares keys = (Done es, drop (12 * length shares) r) /\
     length es = length shares /\
     forall j s key, shares !! j = Some s -> keys !! j = Some key ->
       exists e bytes,
         es !! j = Some e /\ es_Index e = Z.of_nat j /\
         Decrypt host (es_EncryptedData e) key = Done bytes /\
         bytesToShare bytes = Some s) /\
  (length shares <> length keys ->
   exists e, EncryptShares host r shares keys = (Error e, r)).
Proof.
  intros Hlaw Hk Hr Hfit. unfold EncryptShares. split.
  - intros Hlen.
    destruct (Nat.eqb_spec (length shares) (length keys)); [|contradiction].
    cbn [negb].
    destruct (EncryptShares_loop_round_trip host Hlaw shares keys r 0 Hlen Hk Hr Hfit)
      as (es & E & Hl & Hall).
    exists es. split; [exact E|]. split; [exact Hl|].
    intros j s key Hj Hkj. destruct (Hall j s key Hj Hkj) as (e' & bytes & ? & ? & ? & ?).
    exists e', bytes. repeat split; assumption.
  - intros Hlen. destruct (Nat.eqb_spec (length shares) (length keys)); [contradiction|].
    cbn [negb]. eexists. reflexivity.
Qed.

Lemma split_sample_fits : Forall share_fits split_sample.
Proof.
  apply Forall_forall. intros s Hs.
  assert (E : split_sample = [ {| Shamir.X := 1; Shamir.Y := 49 |};
                               {| Shamir.X := 2; Shamir.Y := 56 |};
                               {| Shamir.X := 3; Shamir.Y := 63 |} ])
    by (vm_compute; reflexivity).
  rewrite E in Hs. unfold share_fits.
  repeat (apply elem_of_cons in Hs as [->|Hs]; [cbn; lia|]).
  now apply elem_of_nil in Hs.
Qed.

Lemma EncryptShares_round_trip_witness :
  let keys := replicate 3 (replicate 32 x01) in
  exists es,
    EncryptShares Toy.host (seqZ 1 40) split_sample keys
    = (Done es, drop (12 * length split_sample) (seqZ 1 40)) /\
    length es = length split_sample /\
    forall j s key, split_sample !! j = Some s -> keys !! j = Some key ->
      exists e bytes,
        es !! j = Some e /\ es_Index e = Z.of_nat j /\
        Decrypt Toy.host (es_EncryptedData e) key = Done bytes /\
        bytesToShare bytes = Some s.
Proof.
  apply (proj1 (EncryptShares_round_trip Toy.host (seqZ 1 40) split_sample
                  (replicate 3 (replicate 32 x01)) Toy_aead_correct
                  ltac:(repeat constructor) ltac:(vm_compute; lia)
                  split_sample_fits)).
  reflexivity.
Defined.

(** ** Password-based encryption *)


(** X8. Password-based encryption and back: with 28 bytes of entropy (a
    16-byte salt and the nonce), [EncryptWithPassword] succeeds and stores
    the salt in its result, and [DecryptWithPassword] of that result with
    the same password returns the data without drawing entropy; a record
    without salt, such as one made by [Encrypt], is refused. *)
Theorem EncryptWithPassword_DecryptWithPassword (host : Host)
        (scrypt_Key : string -> list byte -> nat -> option (list byte))
        (r r2 : Reader) (data : list byte) (password : string) :
  aead_correct host -> kdf_total scrypt_Key ->
  (28 <= length r)%nat ->
  (exists encData,
     EncryptWithPassword host scrypt_Key r data password = (Done encData, drop 28 r) /\
     length (Salt encData) = 16%nat /\
     DecryptWithPassword host scrypt_Key r2 encData password = (Done data, r2)) /\
  (forall encData,
     Salt encData = [] ->
     DecryptWithPassword host scrypt_Key r2 encData password
     = (Error (ErrWrapped "missing salt for password-based decryption"), r2)).
Proof.
  intros Hlaw Hkdf Hr. split.
  - unfold EncryptWithPassword.
    destruct (rand_Read_enough 16 r ltac:(lia)) as [salt Es]. rewrite Es.
    pose proof (rand_Read_length _ _ _ _ Es) as [Hsl _].
    unfold DeriveKeyFromPassword. rewrite Hsl. cbn [Nat.eqb].
    destruct (Hkdf password salt) as (key & Ek & Hkl). unfold keySize. rewrite Ek.
    destruct (Encrypt_Done host (drop 16 r) data key Hkl
                ltac:(rewrite length_drop; unfold NonceSize; lia)) as (nonce & Hn & E).
    rewrite E. eexists. split; [|split].
    + rewrite drop_drop. reflexivity.
    + exact Hsl.
    + unfold DecryptWithPassword, DeriveKeyFromPassword. cbn [Salt].
      rewrite Hsl. cbn [Nat.eqb]. unfold keySize. rewrite Ek.
      f_equal. cbn [Data Nonce Algorithm]. now apply Decrypt_sealed.
  - intros encData Hs. unfold DecryptWithPassword. rewrite Hs. reflexivity.
Qed.

Lemma toy_kdf_total : kdf_total toy_kdf.
Proof.
  intros password salt. eexists. split; [reflexivity|].
  rewrite length_take, length_app, length_replicate. lia.
Qed.

Lemma EncryptWithPassword_DecryptWithPassword_witness :
  (exists encData,
     EncryptWithPassword Toy.host toy_kdf (seqZ 1 30) Scenario.hello "pw"
     = (Done encData, drop 28 (seqZ 1 30)) /\
     length (Salt encData) = 16%nat /\
     DecryptWithPassword Toy.host toy_kdf [] encData "pw" = (Done Scenario.hello, [])) /\
  (forall encData,
     Salt encData = [] ->
     DecryptWithPassword Toy.host toy_kdf [] encData "pw"
     = (Error (ErrWrapped "missing salt for password-based decryption"), [])).
Proof.
  apply (EncryptWithPassword_DecryptWithPassword Toy.host toy_kdf (seqZ 1 30) []
           Scenario.hello "pw" Toy_aead_correct toy_kdf_total).
  vm_compute. lia.
Defined.

(** ** Creating a capsule *)

(** What a successful [CreateCapsule] went through. *)
Lemma CreateCapsule_Done_inv host k ctx now r owner recipient data capsuleType
      threshold totalShares unlockTime conditionContract metadata c k' r' :
  CreateCapsule host k ctx now r owner recipient data capsuleType threshold
    totalShares unlockTime conditionContract metadata = (Done c, k', r') ->
  exists key nonce shares r1 r2,
    rand_Read r 32 = Some (key, r1) /\
    rand_Read r1 12 = Some (nonce, r2) /\
    Shamir.SplitSecret Shamir.NewShamirSecretSharing r2 key
      (Z.of_N threshold) (Z.of_N totalShares) = (Shamir.Ok shares, r') /\
    (blockchainStorageThreshold <? length data)%nat = false /\
    StringToBytes_ok host owner = true /\
    c = new_capsule host ctx (capsuleCounter k) owner recipient data
          (aead_seal host key nonce data) capsuleType threshold totalShares
          unlockTime conditionContract metadata /\
    Validate (AccAddressFromBech32_ok host) now c = None /\
    k' = after_create k ctx c shares.
Proof.
  unfold CreateCapsule. intros H.
  destruct (StringToBytes_ok host owner) eqn:Eo; cbn [negb] in H; [|discriminate].
  destruct (negb (bool_decide (recipient = "")) && _); [discriminate|].
  destruct (maxDataSize <? length data)%nat; [discriminate|].
  unfold GenerateKey, keySize in H.
  destruct (rand_Read r 32) as [[key r1]|] eqn:Ek; [|discriminate].
  unfold Encrypt in H.
  destruct (negb (length key =? keySize)%nat); [discriminate|].
  unfold NonceSize in H.
  destruct (rand_Read r1 12) as [[nonce r2]|] eqn:En; [|discriminate].
  cbn [Data Algorithm] in H. unfold gcm_Seal in H.
  destruct (blockchainStorageThreshold <? length data)%nat eqn:Es.
  - (* the IPFS path stores no bytes on the capsule, and Validate refuses it *)
    rewrite bool_decide_true in H by reflexivity.
    destruct (ipfs_store host _ _) as [h|]; [|discriminate].
    destruct (Shamir.SplitSecret _ r2 key _ _) as [[shares|e] r3]; [|discriminate].
    unfold capsuleCounter_Next in H.
    match type of H with
    | context [Validate ?a ?n ?cap] => assert (Ev : Validate a n cap <> None)
    end.
    { unfold Validate. cbn [ID Owner Recipient EncryptedData_ length Nat.eqb].
      destruct (_ =? 0)%N; [discriminate|].
      destruct (negb _); [discriminate|].
      destruct (negb _ && _); [discriminate|]. discriminate. }
    destruct (Validate _ _ _); [discriminate|congruence].
  - rewrite bool_decide_false in H by discriminate.
    destruct (Shamir.SplitSecret _ r2 key _ _) as [[shares|e] r3] eqn:Ess; [|discriminate].
    unfold capsuleCounter_Next in H.
    destruct (Validate _ _ _) eqn:Ev; [discriminate|].
    inversion H; subst. exists key, nonce, shares, r1, r2.
    repeat split; try assumption; reflexivity.
Qed.

Lemma distributeKeyShares_loop_frame ctx id shares : forall k i,
  let k' := distributeKeyShares_loop k ctx id i shares in
  capsules k' = capsules k /\ userCapsules k' = userCapsules k /\
  capsuleCounter k' = capsuleCounter k /\
  transferHistory k' = transferHistory k /\
  pendingTransfers k' = pendingTransfers k /\
  transferStats k' = transferStats k /\
  length (events k') = (length (events k) + length shares)%nat.
Proof.
  induction shares as [|s shares IH]; intros k i; cbn [distributeKeyShares_loop].
  - cbn. repeat split; lia.
  - cbn zeta. match goal with |- context [distributeKeyShares_loop ?k0 _ _ _ _] =>
      destruct (IH k0 (i + 1)%N) as (E1 & E2 & E3 & E4 & E5 & E6 & E7) end.
    rewrite E1, E2, E3, E4, E5, E6, E7. cbn. rewrite length_app. cbn.
    repeat split; lia.
Qed.

Lemma distributeKeyShares_loop_lookup ctx id shares : forall k i id' j,
  keyShares (distributeKeyShares_loop k ctx id i shares) !! (id', j)
  = if bool_decide (id' = id /\ (i <= j < i + N.of_nat (length shares))%N)
    then share_record ctx id j <$> shares !! N.to_nat (j - i)
    else keyShares k !! (id', j).
Proof.
  induction shares as [|s shares IH]; intros k i id' j; cbn [distributeKeyShares_loop].
  - case_bool_decide as H; [|reflexivity]. cbn in H. lia.
  - cbn zeta. rewrite IH. cbn [length].
    case_bool_decide as H1; case_bool_decide as H2.
    + destruct H1 as [-> H1]. destruct H2 as [_ H2].
      replace (N.to_nat (j - i)) with (S (N.to_nat (j - (i + 1)))) by lia.
      reflexivity.
    + exfalso. apply H2. destruct H1 as [-> H1]. split; [reflexivity|lia].
    + destruct H2 as [-> H2]. assert (j = i) as -> by lia.
      cbn [keyShares set_keyShares EmitEvent]. rewrite lookup_insert_eq.
      replace (N.to_nat (i - i)) with 0%nat by lia. reflexivity.
    + cbn [keyShares set_keyShares EmitEvent]. rewrite lookup_insert_ne; [reflexivity|].
      intros E. inversion E; subst. apply H2. split; [reflexivity|lia].
Qed.

Lemma Validate_new_capsule host ctx id owner recipient data ct kind threshold
      totalShares unlockTime contract metadata now :
  Validate (AccAddressFromBech32_ok host) now
    (new_capsule host ctx id owner recipient data ct kind threshold totalShares
       unlockTime contract metadata) = None ->
  id <> 0%N /\ ct <> [] /\
  kind <> CapsuleType_DEAD_MANS_SWITCH /\ kind <> CapsuleType_MULTI_SIG /\
  (kind = CapsuleType_TIME_LOCK ->
   exists u, unlockTime = Some u /\ Before u now = false) /\
  (kind = CapsuleType_CONDITIONAL -> contract <> ""%string).
Proof.
  unfold Validate, new_capsule.
  cbn [ID Owner Recipient EncryptedData_ DataHash TotalShares Threshold
       CapsuleType_ UnlockTime ConditionContract RequiredSigs InactivityPeriod].
  destruct (N.eqb_spec id 0); [discriminate|].
  destruct (negb _); [discriminate|].
  destruct (negb _ && _); [discriminate|].
  destruct ct as [|b ct]; [discriminate|]. cbn [length Nat.eqb].
  destruct (bool_decide (HashData host data = "")); [discriminate|].
  destruct (totalShares <? threshold)%N; [discriminate|].
  destruct (totalShares =? 0)%N; [discriminate|].
  intros H. split; [assumption|]. split; [discriminate|].
  destruct kind; try discriminate; repeat split; try discriminate.
  - intros _. destruct unlockTime as [u|]; [|discriminate].
    exists u. split; [reflexivity|]. destruct (Before u now); [discriminate|reflexivity].
  - intros _ E. rewrite E in H. discriminate.
Qed.

(** X9. [CreateCapsule] never creates a DeadMansSwitch or a MultiSig
    capsule: it builds the record without an inactivity period and without
    required signatures, and [Validate] refuses such a record. *)
Theorem CreateCapsule_never_switch_or_multisig (host : Host) (k k' : Keeper)
        (ctx : Ctx) (now : Time) (r r' : Reader) (owner recipient : string)
        (data : list byte) (capsuleType : CapsuleType) (threshold totalShares : N)
        (unlockTime : option Time) (conditionContract : string)
        (metadata : gmap string string) (c : TimeCapsule) :
  capsuleType = CapsuleType_DEAD_MANS_SWITCH \/ capsuleType = CapsuleType_MULTI_SIG ->
  CreateCapsule host k ctx now r owner recipient data capsuleType threshold
    totalShares unlockTime conditionContract metadata <> (Done c, k', r').
Proof.
  intros Hk H. apply CreateCapsule_Done_inv in H
    as (key & nonce & shares & r1 & r2 & _ & _ & _ & _ & _ & -> & Hv & _).
  apply Validate_new_capsule in Hv as (_ & _ & H1 & H2 & _). tauto.
Qed.

Lemma CreateCapsule_never_switch_or_multisig_witness :
  ~ exists c k' r',
    CreateCapsule Toy.host Toy.empty_keeper Scenario.create_ctx Scenario.created_at
      Scenario.tape "alice" "bob" Scenario.hello CapsuleType_DEAD_MANS_SWITCH 2 3
      None "" ∅ = (Done c, k', r').
Proof.
  intros (c & k' & r' & H). revert H.
  apply (CreateCapsule_never_switch_or_multisig Toy.host Toy.empty_keeper k'
           Scenario.create_ctx Scenario.created_at Scenario.tape r' "alice" "bob"
           Scenario.hello CapsuleType_DEAD_MANS_SWITCH 2 3 None "" ∅ c).
  left. reflexivity.
Defined.

(** X10. [CreateCapsule] never succeeds for data of more than 1 MiB: such
    data goes to IPFS, the capsule record is built without the encrypted
    bytes, and [Validate] refuses a record whose encrypted data is empty. *)
Theorem CreateCapsule_never_above_one_MiB (host : Host) (k k' : Keeper)
        (ctx : Ctx) (now : Time) (r r' : Reader) (owner recipient : string)
        (data : list byte) (capsuleType : CapsuleType) (threshold totalShares : N)
        (unlockTime : option Time) (conditionContract : string)
        (metadata : gmap string string) (c : TimeCapsule) :
  1024 * 1024 < Z.of_nat (length data) ->
  CreateCapsule host k ctx now r owner recipient data capsuleType threshold
    totalShares unlockTime conditionContract metadata <> (Done c, k', r').
Proof.
  intros Hlen H. apply CreateCapsule_Done_inv in H
    as (key & nonce & shares & r1 & r2 & _ & _ & _ & Hs & _).
  apply Nat.ltb_ge in Hs. apply Nat2Z.inj_le in Hs.
  unfold blockchainStorageThreshold in Hs. rewrite Nat2Z.inj_mul in Hs.
  change (Z.of_nat 1024) with 1024 in Hs. lia.
Qed.

Lemma CreateCapsule_never_above_one_MiB_witness :
  ~ exists c k' r',
    CreateCapsule Toy.host Toy.empty_keeper Scenario.create_ctx Scenario.created_at
      Scenario.tape "alice" "bob" (replicate (Z.to_nat (1024 * 1024 + 1)) x00)
      CapsuleType_SAFE 2 3 None "" ∅ = (Done c, k', r').
Proof.
  intros (c & k' & r' & H). revert H.
  apply (CreateCapsule_never_above_one_MiB Toy.host Toy.empty_keeper k'
           Scenario.create_ctx Scenario.created_at Scenario.tape r' "alice" "bob"
           (replicate (Z.to_nat (1024 * 1024 + 1)) x00) CapsuleType_SAFE 2 3 None ""
           ∅ c).
  rewrite length_replicate, Z2Nat.id; lia.
Defined.

(** X11. While the capsule counter is 0, the value of the default genesis,
    [CreateCapsule] never succeeds: the sequence hands out 0 as the
    identifier and [Validate] refuses a capsule whose ID is zero. *)
Theorem CreateCapsule_never_with_counter_zero (host : Host) (k k' : Keeper)
        (ctx : Ctx) (now : Time) (r r' : Reader) (owner recipient : string)
        (data : list byte) (capsuleType : CapsuleType) (threshold totalShares : N)
        (unlockTime : option Time) (conditionContract : string)
        (metadata : gmap string string) (c : TimeCapsule) :
  capsuleCounter k = 0%N ->
  CreateCapsule host k ctx now r owner recipient data capsuleType threshold
    totalShares unlockTime conditionContract metadata <> (Done c, k', r').
Proof.
  intros Hk H. apply CreateCapsule_Done_inv in H
    as (key & nonce & shares & r1 & r2 & _ & _ & _ & _ & _ & -> & Hv & _).
  apply Validate_new_capsule in Hv as (H0 & _). contradiction.
Qed.

Lemma CreateCapsule_never_with_counter_zero_witness :
  ~ exists c k' r',
    CreateCapsule Toy.host (set_capsuleCounter Toy.empty_keeper 0)
      Scenario.create_ctx Scenario.created_at Scenario.tape "alice" "bob"
      Scenario.hello CapsuleType_SAFE 2 3 None "" ∅ = (Done c, k', r').
Proof.
  intros (c & k' & r' & H). revert H.
  apply (CreateCapsule_never_with_counter_zero Toy.host
           (set_capsuleCounter Toy.empty_keeper 0) k'
           Scenario.create_ctx Scenario.created_at Scenario.tape r' "alice" "bob"
           Scenario.hello CapsuleType_SAFE 2 3 None "" ∅ c).
  reflexivity.
Defined.

Lemma after_create_keyShares k ctx c shares id' j :
  keyShares (after_create k ctx c shares) !! (id', j)
  = if bool_decide (id' = ID c /\ (j < N.of_nat (length shares))%N)
    then share_record ctx (ID c) j <$> shares !! N.to_nat j
    else keyShares k !! (id', j).
Proof.
  unfold after_create, distributeKeyShares. cbn [keyShares EmitEvent].
  rewrite distributeKeyShares_loop_lookup.
  replace (N.to_nat (j - 0)) with (N.to_nat j) by lia.
  case_bool_decide as H1; case_bool_decide as H2; try reflexivity.
  - exfalso. apply H2. destruct H1. split; [assumption|lia].
  - exfalso. apply H1. destruct H2. split; [assumption|lia].
Qed.

Lemma after_create_frame k ctx c shares :
  let k' := after_create k ctx c shares in
  capsules k' = <[ID c := c]> (capsules k) /\
  userCapsules k' = {[(Owner c, ID c)]} ∪ userCapsules k /\
  capsuleCounter k' = wrap_uint64 (capsuleCounter k + 1) /\
  transferHistory k' = transferHistory k /\
  pendingTransfers k' = pendingTransfers k /\
  transferStats k' = transferStats k /\
  length (events k') = (length (events k) + length shares + 1)%nat.
Proof.
  unfold after_create, distributeKeyShares. cbn zeta.
  match goal with |- context [distributeKeyShares_loop ?k0 ctx (ID c) 0%N shares] =>
    destruct (distributeKeyShares_loop_frame ctx (ID c) shares k0 0%N)
      as (E1 & E2 & E3 & E4 & E5 & E6 & E7) end.
  cbn [capsules userCapsules capsuleCounter transferHistory pendingTransfers
       transferStats events EmitEvent].
  rewrite E1, E2, E3, E4, E5, E6, length_app, E7. cbn. repeat split; lia.
Qed.

Lemma SplitSecret_succeeds_iff_aux r secret T N shares r' :
  Shamir.SplitSecret Shamir.NewShamirSecretSharing r secret (Z.of_N T) (Z.of_N N)
  = (Shamir.Ok shares, r') ->
  (1 <= T <= N)%N /\ length shares = N.to_nat N /\ r' = drop (N.to_nat T - 1) r.
Proof.
  intros H.
  pose proof (SplitSecret_Ok _ _ _ _ _ _ _ H) as (HT & Hs & cs & Hcs & ->).
  split; [lia|]. split.
  - unfold Shamir.make_shares. rewrite length_map, length_seqZ. lia.
  - unfold Shamir.SplitSecret in H.
    destruct (_ >? _); [discriminate|]. destruct (_ <? 1); [discriminate|].
    destruct (_ <? 1); [discriminate|].
    destruct (SetBytes secret >=? _); [discriminate|].
    destruct (Shamir.draw_coefficients _ _ r) as [[cs1 r1]|] eqn:E; [|discriminate].
    inversion H; subst. apply draw_coefficients_drop in E as [_ ->].
    f_equal. lia.
Qed.

(** X12. What a successful [CreateCapsule] leaves behind: the capsule gets
    the counter's value as its identifier, which is not zero, and the
    counter moves on by one; the record is Active, stored on chain with the
    ciphertext of the data under a fresh 32-byte key and 12-byte nonce, and
    carries the requested parties, kind, unlock time and numbers of shares,
    with [1 <= threshold <= totalShares]; it is stored under its identifier
    and indexed under its owner; the transfer collections are untouched;
    and one event per share plus the creation event are emitted. *)
Theorem CreateCapsule_success (host : Host) (k k' : Keeper) (ctx : Ctx)
        (now : Time) (r r' : Reader) (owner recipient : string)
        (data : list byte) (capsuleType : CapsuleType) (threshold totalShares : N)
        (unlockTime : option Time) (conditionContract : string)
        (metadata : gmap string string) (c : TimeCapsule) :
  CreateCapsule host k ctx now r owner recipient data capsuleType threshold
    totalShares unlockTime conditionContract metadata = (Done c, k', r') ->
  (ID c = capsuleCounter k /\ ID c <> 0%N /\
   capsuleCounter k' = wrap_uint64 (capsuleCounter k + 1)) /\
  (Owner c = owner /\ Recipient c = recipient /\ CapsuleType_ c = capsuleType /\
   Status c = CapsuleStatus_ACTIVE /\ UnlockTime c = unlockTime /\
   ExpiresAt c = None /\ CreatedAt c = BlockTime ctx /\
   Threshold c = threshold /\ TotalShares c = totalShares /\
   (1 <= threshold <= totalShares)%N) /\
  (StorageType c = "blockchain"%string /\ DataHash c = HashData host data /\
   exists key nonce,
     length key = 32%nat /\ length nonce = 12%nat /\
     EncryptedData_ c = aead_seal host key nonce data) /\
  (capsules k' = <[ID c := c]> (capsules k) /\
   userCapsules k' = {[(owner, ID c)]} ∪ userCapsules k /\
   transferHistory k' = transferHistory k /\
   pendingTransfers k' = pendingTransfers k /\
   transferStats k' = transferStats k /\
   length (events k') = (length (events k) + N.to_nat totalShares + 1)%nat) /\
  r' = drop (32 + 12 + (N.to_nat threshold - 1)) r.
Proof.
  intros H. apply CreateCapsule_Done_inv in H
    as (key & nonce & shares & r1 & r2 & Ek & En & Ess & _ & _ & Ec & Hv & ->).
  pose proof (rand_Read_length _ _ _ _ Ek) as [Hkl ->].
  pose proof (rand_Read_length _ _ _ _ En) as [Hnl ->].
  destruct (SplitSecret_succeeds_iff_aux _ _ _ _ _ _ Ess) as (HT & Hlen & ->).
  destruct (after_create_frame k ctx c shares) as (E1 & E2 & E3 & E4 & E5 & E6 & E7).
  rewrite Ec in Hv. apply Validate_new_capsule in Hv as (H0 & _).
  subst c. cbn [ID Owner Recipient CapsuleType_ Status UnlockTime ExpiresAt CreatedAt
                Threshold TotalShares StorageType DataHash EncryptedData_ new_capsule] in *.
  split; [repeat split; assumption|].
  split; [repeat split; lia|].
  split; [split; [reflexivity|split; [reflexivity|eauto]]|].
  split.
  - repeat split; try assumption; rewrite ?E7; lia.
  - rewrite !drop_drop. f_equal; lia.
Qed.

Lemma scenario_created :
  Scenario.create Scenario.created_at Scenario.tape
  = (Done created_capsule, Scenario.created, []).
Proof. vm_compute. reflexivity. Qed.

Lemma CreateCapsule_success_witness :
  (ID created_capsule = capsuleCounter Toy.empty_keeper /\
   ID created_capsule <> 0%N /\
   capsuleCounter Scenario.created
   = wrap_uint64 (capsuleCounter Toy.empty_keeper + 1)) /\
  (Owner created_capsule = "alice"%string /\
   Recipient created_capsule = "bob"%string /\
   CapsuleType_ created_capsule = CapsuleType_TIME_LOCK /\
   Status created_capsule = CapsuleStatus_ACTIVE /\
   UnlockTime created_capsule = Some Scenario.unlock_time /\
   ExpiresAt created_capsule = None /\
   CreatedAt created_capsule = BlockTime Scenario.create_ctx /\
   Threshold created_capsule = 2%N /\ TotalShares created_capsule = 3%N /\
   (1 <= 2 <= 3)%N).
Proof.
  pose proof (CreateCapsule_success Toy.host Toy.empty_keeper Scenario.created
                Scenario.create_ctx Scenario.created_at Scenario.tape []
                "alice" "bob" Scenario.hello CapsuleType_TIME_LOCK 2 3
                (Some Scenario.unlock_time) "" ∅ created_capsule scenario_created)
    as (H1 & H2 & _).
  exact (conj H1 H2).
Defined.

Lemma mapM_lookup {A B} (f : A -> option B) (g : A -> B) (l : list A) :
  (forall x, x ∈ l -> f x = Some (g x)) -> mapM f l = Some (map g l).
Proof.
  intros H. apply mapM_Some. induction l as [|x l IH]; cbn; constructor.
  - apply H. left.
  - apply IH. intros y Hy. apply H. now right.
Qed.

(** X13. The key-share records that a successful [CreateCapsule] stores
    rebuild the encryption key: for every choice of at least [threshold]
    different share numbers below [totalShares] (a [uint32]), the records
    parse with [bytesToShare] and [CombineShares] of the parsed shares
    returns the 32-byte key without its leading zero bytes; the stored
    bytes are the data sealed under that key and a 12-byte nonce, which is
    what [Decrypt] opens when it is given that nonce. *)
Theorem CreateCapsule_shares_rebuild_key (host : Host) (k k' : Keeper) (ctx : Ctx)
        (now : Time) (r r' : Reader) (owner recipient : string)
        (data : list byte) (capsuleType : CapsuleType) (threshold totalShares : N)
        (unlockTime : option Time) (conditionContract : string)
        (metadata : gmap string string) (c : TimeCapsule) :
  aead_correct host ->
  (totalShares < 2 ^ 32)%N ->
  CreateCapsule host k ctx now r owner recipient data capsuleType threshold
    totalShares unlockTime conditionContract metadata = (Done c, k', r') ->
  exists key nonce,
    length key = 32%nat /\ length nonce = 12%nat /\
    EncryptedData_ c = aead_seal host key nonce data /\
    Decrypt host {| Data := EncryptedData_ c; Nonce := nonce; Salt := [];
                    Algorithm := EncryptionAlgo c |} key = Done data /\
    forall js : list N,
      NoDup js -> (forall j, j ∈ js -> (j < totalShares)%N) ->
      (N.to_nat threshold <= length js)%nat ->
      exists S,
        mapM (record_share k' (ID c)) js = Some S /\
        Shamir.CombineShares Shamir.NewShamirSecretSharing S
        = Shamir.Ok (strip_zeros key).
Proof.
  intros Hlaw Htot H. apply CreateCapsule_Done_inv in H
    as (key & nonce & shares & r1 & r2 & Ek & En & Ess & _ & _ & Ec & Hv & ->).
  pose proof (rand_Read_length _ _ _ _ Ek) as [Hkl _].
  pose proof (rand_Read_length _ _ _ _ En) as [Hnl _].
  exists key, nonce. split; [exact Hkl|]. split; [exact Hnl|].
  split; [now rewrite Ec|]. split.
  { rewrite Ec. cbn [EncryptedData_ EncryptionAlgo new_capsule].
    now apply Decrypt_sealed. }
  intros js Hnd Hjs Hlen.
  assert (HN : Z.of_N totalShares < Shamir.prime Shamir.NewShamirSecretSharing).
  { apply int_below_prime. lia. }
  destruct (SplitSecret_CombineShares _ _ _ _ _ _ HN Ess) as (Hl & HX & Hc).
  pose proof (SplitSecret_Ok _ _ _ _ _ _ _ Ess) as (HT & Hs & cs & Hcs & Hsh).
  (* the share behind each record *)
  assert (Hget : forall j, (j < totalShares)%N ->
            exists s, shares !! N.to_nat j = Some s /\
                      Shamir.X s = Z.of_N j + 1 /\
                      record_share (after_create k ctx c shares) (ID c) j = Some s).
  { intros j Hj.
    destruct (lookup_lt_is_Some_2 shares (N.to_nat j) ltac:(lia)) as [s Hsj].
    exists s. split; [exact Hsj|].
    assert (Hin : s ∈ shares) by (eapply list_elem_of_lookup_2; exact Hsj).
    assert (Hx : Shamir.X s = Z.of_N j + 1).
    { assert (E : map Shamir.X shares !! N.to_nat j = Some (Shamir.X s))
        by (rewrite list_lookup_fmap, Hsj; reflexivity).
      rewrite HX in E. apply lookup_seqZ in E as [-> _]. lia. }
    split; [exact Hx|].
    unfold record_share. rewrite after_create_keyShares.
    rewrite bool_decide_true by (split; [reflexivity|lia]).
    rewrite Hsj. cbn [fmap option_fmap option_map share_record ks_EncryptedShare].
    rewrite <- (app_nil_r (ShareToBytes s)). apply share_fits_round_trip.
    rewrite Hsh in Hin.
    apply make_shares_elem in Hin as [Hx' Hy]; [|apply NewShamir_prime_is_prime].
    pose proof NewShamir_prime_pos as Hp.
    pose proof (Z.mod_pos_bound (poly_eval (SetBytes key :: cs) (Shamir.X s)) _ Hp) as Hyb.
    rewrite <- Hy in Hyb.
    assert (Hlog : forall z, 0 <= z < Shamir.prime Shamir.NewShamirSecretSharing ->
                             Z.log2 z < 524280).
    { intros z Hz. destruct (Z.eq_dec z 0) as [->|]; [cbn; lia|].
      apply Z.log2_lt_pow2; [lia|].
      eapply Z.lt_trans; [apply Hz|]. eapply Z.lt_le_trans with (m := 2 ^ 256);
        [reflexivity|]. apply Z.pow_le_mono_r; lia. }
    split; (split; [lia|apply Hlog; lia]). }
  set (pick := fun j => default {| Shamir.X := 0; Shamir.Y := 0 |}
                                (shares !! N.to_nat j)).
  exists (map pick js). split.
  - apply mapM_lookup. intros j Hj.
    destruct (Hget j (Hjs j Hj)) as (s & Hsj & _ & Hrec).
    unfold pick. now rewrite Hsj.
  - apply Hc.
    + intros s Hs'. apply list_elem_of_fmap in Hs' as (j & -> & Hj).
      destruct (Hget j (Hjs j Hj)) as (s & Hsj & _ & _).
      unfold pick. rewrite Hsj. cbn. eapply list_elem_of_lookup_2; exact Hsj.
    + rewrite <- list_fmap_compose.
      apply NoDup_fmap_2_strong; [|exact Hnd].
      intros i j Hi Hj E. cbn in E.
      destruct (Hget i (Hjs i Hi)) as (si & Hsi & Hxi & _).
      destruct (Hget j (Hjs j Hj)) as (sj & Hsj & Hxj & _).
      unfold pick in E. rewrite Hsi, Hsj in E. cbn in E. lia.
    + rewrite length_map. lia.
Qed.

Lemma CreateCapsule_shares_rebuild_key_witness :
  exists key nonce,
    length key = 32%nat /\ length nonce = 12%nat /\
    EncryptedData_ created_capsule = aead_seal Toy.host key nonce Scenario.hello /\
    Decrypt Toy.host {| Data := EncryptedData_ created_capsule; Nonce := nonce;
                        Salt := []; Algorithm := EncryptionAlgo created_capsule |} key
    = Done Scenario.hello /\
    forall js : list N,
      NoDup js -> (forall j, j ∈ js -> (j < 3)%N) ->
      (N.to_nat 2 <= length js)%nat ->
      exists S,
        mapM (record_share Scenario.created (ID created_capsule)) js = Some S /\
        Shamir.CombineShares Shamir.NewShamirSecretSharing S
        = Shamir.Ok (strip_zeros key).
Proof.
  apply (CreateCapsule_shares_rebuild_key Toy.host Toy.empty_keeper Scenario.created
           Scenario.create_ctx Scenario.created_at Scenario.tape []
           "alice" "bob" Scenario.hello CapsuleType_TIME_LOCK 2 3
           (Some Scenario.unlock_time) "" ∅ created_capsule Toy_aead_correct).
  - reflexivity.
  - vm_compute. reflexivity.
Defined.

(** ** The dead man's switch and its heartbeat *)

Lemma wrap_int64_small z : - 2 ^ 63 <= z < 2 ^ 63 -> wrap_int64 z = z.
Proof. intros H. unfold wrap_int64. rewrite Z.mod_small; lia. Qed.

(** X14. [UpdateLastActivity] by the owner of a DeadMansSwitch capsule
    records the block time as the last activity and changes nothing else
    but [UpdatedAt]; from then on the capsule is unlockable exactly at the
    block times strictly more than the inactivity period (a number of
    seconds whose nanoseconds fit an [int64]) after that block time, if it
    is Active. Anyone else is refused as Unauthorized, another kind of
    capsule as InvalidCapsuleType, and the state is then unchanged. *)
Theorem UpdateLastActivity_defers_switch (k : Keeper) (ctx : Ctx) (id : N)
        (owner : string) (c : TimeCapsule) :
  capsules k !! id = Some c ->
  (Owner c <> owner -> UpdateLastActivity k ctx id owner = (Error ErrUnauthorized, k)) /\
  (Owner c = owner -> CapsuleType_ c <> CapsuleType_DEAD_MANS_SWITCH ->
   UpdateLastActivity k ctx id owner = (Error ErrInvalidCapsuleType, k)) /\
  (Owner c = owner -> CapsuleType_ c = CapsuleType_DEAD_MANS_SWITCH ->
   (0 < InactivityPeriod c)%N ->
   Z.of_N (InactivityPeriod c) * 1000000000 < 2 ^ 63 ->
   let c' := set_UpdatedAt (set_LastActivity c (Some (BlockTime ctx))) (BlockTime ctx) in
   UpdateLastActivity k ctx id owner
   = (Done tt, set_capsules k (<[id := c']> (capsules k))) /\
   forall t,
     IsUnlockable c' t = true <->
     Status c = CapsuleStatus_ACTIVE /\
     t > BlockTime ctx + Z.of_N (InactivityPeriod c) * 1000000000).
Proof.
  intros Hc. unfold UpdateLastActivity, GetCapsule. rewrite Hc. split; [|split].
  - intros Ho. now rewrite bool_decide_false.
  - intros Ho Ht. rewrite bool_decide_true by assumption. cbn [negb].
    now rewrite bool_decide_false.
  - intros Ho Ht Hp Hb. cbv zeta. rewrite !bool_decide_true by assumption.
    cbn [negb]. unfold UpdateActivity. rewrite bool_decide_true by assumption.
    split; [reflexivity|].
    intros t. unfold IsUnlockable.
    cbn [Status CapsuleType_ LastActivity InactivityPeriod set_UpdatedAt set_LastActivity].
    rewrite Ht. destruct (N.eqb_spec (InactivityPeriod c) 0); [lia|].
    rewrite (wrap_int64_small (Z.of_N _)) by lia.
    unfold Second. rewrite wrap_int64_small by lia.
    case_bool_decide as Hs; cbn [negb].
    + rewrite After_gt. tauto.
    + split; [discriminate|tauto].
Qed.

Lemma UpdateLastActivity_defers_switch_witness :
  let ctx := {| BlockTime := 5000000000; BlockHeight := 12 |} in
  let c' := set_UpdatedAt (set_LastActivity switch_sample (Some 5000000000))
                          5000000000 in
  UpdateLastActivity (keeper_with switch_sample) ctx 3 "alice"
  = (Done tt, set_capsules (keeper_with switch_sample)
                (<[3%N := c']> (capsules (keeper_with switch_sample)))) /\
  forall t,
    IsUnlockable c' t = true <->
    Status switch_sample = CapsuleStatus_ACTIVE /\
    t > 5000000000 + Z.of_N (InactivityPeriod switch_sample) * 1000000000.
Proof.
  apply (proj2 (proj2 (UpdateLastActivity_defers_switch (keeper_with switch_sample)
                         {| BlockTime := 5000000000; BlockHeight := 12 |} 3 "alice"
                         switch_sample eq_refl)));
    [reflexivity|reflexivity|reflexivity|reflexivity].
Defined.

(** ** Cancelling and transferring *)

Lemma OpenCapsule_not_active host k ctx id c accessor shares :
  capsules k !! id = Some c -> Status c <> CapsuleStatus_ACTIVE ->
  fst (OpenCapsule host k ctx id accessor shares)
  = Error (if StringToBytes_ok host accessor
           then ErrCapsuleAlreadyOpened else ErrUnauthorized).
Proof.
  intros Hc Hs. unfold OpenCapsule, GetCapsule. rewrite Hc.
  destruct (StringToBytes_ok host accessor); cbn [negb]; [|reflexivity].
  now rewrite bool_decide_false.
Qed.

(** X15. [CancelCapsule] by the owner of an Active capsule sets its status
    to Cancelled and its [UpdatedAt] to the block time, touches nothing
    else in the collections and emits one event; anyone else is refused as
    Unauthorized and a capsule that is not Active as InvalidCapsule, with
    the state unchanged. A Cancelled capsule is final for the handlers that
    check the status: cancelling again or transferring it directly fails
    with InvalidCapsule or Unauthorized, opening it fails with
    CapsuleAlreadyOpened (Unauthorized for a malformed accessor address),
    and the block tick leaves it as it is. *)
Theorem CancelCapsule_is_final (k : Keeper) (ctx : Ctx) (msg : MsgCancelCapsule)
        (c : TimeCapsule) :
  capsules k !! mcc_CapsuleID msg = Some c ->
  (Owner c <> mcc_Owner msg -> CancelCapsule k ctx msg = (Error ErrUnauthorized, k)) /\
  (Owner c = mcc_Owner msg -> Status c <> CapsuleStatus_ACTIVE ->
   CancelCapsule k ctx msg = (Error ErrInvalidCapsule, k)) /\
  (Owner c = mcc_Owner msg -> Status c = CapsuleStatus_ACTIVE ->
   let id := mcc_CapsuleID msg in
   let c' := set_UpdatedAt (set_Status c CapsuleStatus_CANCELLED) (BlockTime ctx) in
   exists k',
     CancelCapsule k ctx msg = (Done tt, k') /\
     capsules k' = <[id := c']> (capsules k) /\
     userCapsules k' = userCapsules k /\ keyShares k' = keyShares k /\
     capsuleCounter k' = capsuleCounter k /\
     pendingTransfers k' = pendingTransfers k /\
     transferHistory k' = transferHistory k /\
     length (events k') = S (length (events k)) /\
     (forall ctx2 msg2, mcc_CapsuleID msg2 = id ->
        exists e, CancelCapsule k' ctx2 msg2 = (Error e, k')) /\
     (forall ctx2 msg2, mtc_CapsuleID msg2 = id ->
        exists e, TransferCapsule k' ctx2 msg2 = (Error e, k')) /\
     (forall host ctx2 accessor shares,
        fst (OpenCapsule host k' ctx2 id accessor shares)
        = Error (if StringToBytes_ok host accessor
                 then ErrCapsuleAlreadyOpened else ErrUnauthorized)) /\
     (forall ctx2, capsules (BeginBlocker k' ctx2) !! id = Some c')).
Proof.
  intros Hc. unfold CancelCapsule at 1 2, GetCapsule. rewrite Hc. split; [|split].
  - intros Ho. now rewrite bool_decide_false.
  - intros Ho Hs. rewrite bool_decide_true by assumption. cbn [negb].
    now rewrite bool_decide_false.
  - intros Ho Hs. cbv zeta. unfold CancelCapsule at 1, GetCapsule. rewrite Hc.
    rewrite !bool_decide_true by assumption. cbn [negb].
    eexists. split; [reflexivity|].
    cbn [capsules userCapsules keyShares capsuleCounter pendingTransfers
         transferHistory events EmitEvent set_capsules].
    repeat split.
    + rewrite length_app. cbn. lia.
    + intros ctx2 msg2 Hid. unfold CancelCapsule, GetCapsule.
      cbn [capsules EmitEvent set_capsules]. rewrite Hid, lookup_insert_eq.
      destruct (bool_decide (Owner _ = mcc_Owner msg2)); cbn [negb]; eauto.
    + intros ctx2 msg2 Hid. unfold TransferCapsule, GetCapsule.
      cbn [capsules EmitEvent set_capsules]. rewrite Hid, lookup_insert_eq.
      destruct (bool_decide (Owner _ = mtc_CurrentOwner msg2)); cbn [negb]; eauto.
    + intros host ctx2 accessor shares.
      apply OpenCapsule_not_active
        with (c := set_UpdatedAt (set_Status c CapsuleStatus_CANCELLED) (BlockTime ctx)).
      * cbn [capsules EmitEvent set_capsules]. apply lookup_insert_eq.
      * discriminate.
    + intros ctx2. unfold BeginBlocker, processExpiredCapsules.
      rewrite walk_capsules by apply Walk_keys_NoDup.
      cbn [capsules EmitEvent set_capsules]. rewrite lookup_insert_eq.
      destruct (bool_decide _); reflexivity.
Qed.

Lemma CancelCapsule_is_final_witness :
  let msg := {| mcc_Owner := "alice"; mcc_CapsuleID := 1; mcc_Reason := "" |} in
  let ctx := {| BlockTime := 7; BlockHeight := 2 |} in
  let c' := set_UpdatedAt (set_Status timelock_sample CapsuleStatus_CANCELLED) 7 in
  exists k',
    CancelCapsule keeper_timelock ctx msg = (Done tt, k') /\
    capsules k' = <[1%N := c']> (capsules keeper_timelock) /\
    userCapsules k' = userCapsules keeper_timelock /\
    keyShares k' = keyShares keeper_timelock /\
    capsuleCounter k' = capsuleCounter keeper_timelock /\
    pendingTransfers k' = pendingTransfers keeper_timelock /\
    transferHistory k' = transferHistory keeper_timelock /\
    length (events k') = S (length (events keeper_timelock)) /\
    (forall ctx2 msg2, mcc_CapsuleID msg2 = 1%N ->
       exists e, CancelCapsule k' ctx2 msg2 = (Error e, k')) /\
    (forall ctx2 msg2, mtc_CapsuleID msg2 = 1%N ->
       exists e, TransferCapsule k' ctx2 msg2 = (Error e, k')) /\
    (forall host ctx2 accessor shares,
       fst (OpenCapsule host k' ctx2 1 accessor shares)
       = Error (if StringToBytes_ok host accessor
                then ErrCapsuleAlreadyOpened else ErrUnauthorized)) /\
    (forall ctx2, capsules (BeginBlocker k' ctx2) !! 1%N = Some c').
Proof.
  apply (proj2 (proj2 (CancelCapsule_is_final keeper_timelock
                         {| BlockTime := 7; BlockHeight := 2 |}
                         {| mcc_Owner := "alice"; mcc_CapsuleID := 1; mcc_Reason := "" |}
                         timelock_sample eq_refl)));
    reflexivity.
Defined.

(** X16. [TransferCapsule] by the owner of an Active capsule makes the new
    owner the owner, moves the index entry from the old owner to the new
    one and emits one event, but writes neither a history record nor the
    statistics; anyone else is refused as Unauthorized and a capsule that
    is not Active as InvalidCapsule, with the state unchanged. *)
Theorem TransferCapsule_moves_ownership (k : Keeper) (ctx : Ctx)
        (msg : MsgTransferCapsule) (c : TimeCapsule) :
  capsules k !! mtc_CapsuleID msg = Some c ->
  (Owner c <> mtc_CurrentOwner msg ->
   TransferCapsule k ctx msg = (Error ErrUnauthorized, k)) /\
  (Owner c = mtc_CurrentOwner msg -> Status c <> CapsuleStatus_ACTIVE ->
   TransferCapsule k ctx msg = (Error ErrInvalidCapsule, k)) /\
  (Owner c = mtc_CurrentOwner msg -> Status c = CapsuleStatus_ACTIVE ->
   let id := mtc_CapsuleID msg in
   exists k',
     TransferCapsule k ctx msg = (Done tt, k') /\
     capsules k'
     = <[id := set_UpdatedAt (set_Owner c (mtc_NewOwner msg)) (BlockTime ctx)]>
         (capsules k) /\
     userCapsules k'
     = {[(mtc_NewOwner msg, id)]} ∪ (userCapsules k ∖ {[(mtc_CurrentOwner msg, id)]}) /\
     transferHistory k' = transferHistory k /\
     transferStats k' = transferStats k /\
     pendingTransfers k' = pendingTransfers k /\
     keyShares k' = keyShares k /\
     length (events k') = S (length (events k))).
Proof.
  intros Hc. unfold TransferCapsule, GetCapsule. rewrite Hc. split; [|split].
  - intros Ho. now rewrite bool_decide_false.
  - intros Ho Hs. rewrite bool_decide_true by assumption. cbn [negb].
    now rewrite bool_decide_false.
  - intros Ho Hs. cbv zeta. rewrite !bool_decide_true by assumption. cbn [negb].
    eexists. split; [reflexivity|].
    cbn [capsules userCapsules keyShares transferStats pendingTransfers
         transferHistory events EmitEvent set_capsules set_userCapsules].
    repeat split. rewrite length_app. cbn. lia.
Qed.

Lemma TransferCapsule_moves_ownership_witness :
  let msg := {| mtc_CurrentOwner := "alice"; mtc_NewOwner := "carol";
                mtc_CapsuleID := 1 |} in
  let ctx := {| BlockTime := 7; BlockHeight := 2 |} in
  let k := keeper_indexed timelock_sample in
  exists k',
    TransferCapsule k ctx msg = (Done tt, k') /\
    capsules k'
    = <[1%N := set_UpdatedAt (set_Owner timelock_sample "carol") 7]> (capsules k) /\
    userCapsules k'
    = {[("carol"%string, 1%N)]} ∪ (userCapsules k ∖ {[("alice"%string, 1%N)]}) /\
    transferHistory k' = transferHistory k /\
    transferStats k' = transferStats k /\
    pendingTransfers k' = pendingTransfers k /\
    keyShares k' = keyShares k /\
    length (events k') = S (length (events k)).
Proof.
  apply (proj2 (proj2 (TransferCapsule_moves_ownership (keeper_indexed timelock_sample)
                         {| BlockTime := 7; BlockHeight := 2 |}
                         {| mtc_CurrentOwner := "alice"; mtc_NewOwner := "carol";
                            mtc_CapsuleID := 1 |}
                         timelock_sample eq_refl)));
    reflexivity.
Defined.

(** ** Batch transfers *)

Lemma TransferCapsuleOwnership_capsules k ctx id c from to kind message :
  capsules k !! id = Some c ->
  exists k',
    TransferCapsuleOwnership k ctx id from to kind message = (Done tt, k') /\
    capsules k' = <[id := set_UpdatedAt (set_Owner c to) (BlockTime ctx)]> (capsules k).
Proof.
  intros Hc. destruct (TransferCapsuleOwnership_found k ctx id c from to kind message Hc)
    as (k' & E & Ec & _). eauto.
Qed.

Lemma BatchTransfer_loop_spec ctx owner transfers : forall k tr fl tr' fl' k',
  BatchTransfer_loop k ctx owner transfers tr fl = (tr', fl', k') ->
  exists tn fn,
    tr' = tr ++ tn /\ fl' = fl ++ fn /\
    tn ++ map ft_CapsuleID fn ≡ₚ map ct_CapsuleID transfers /\
    (forall id, id ∉ tn -> capsules k' !! id = capsules k !! id) /\
    (forall id, id ∈ tn ->
       exists c' t, capsules k' !! id = Some c' /\ t ∈ transfers /\
                    ct_CapsuleID t = id /\ Owner c' = ct_NewOwner t).
Proof.
  induction transfers as [|t rest IH]; intros k tr fl tr' fl' k' H;
    cbn [BatchTransfer_loop] in H.
  - inversion H; subst. exists [], []. rewrite !app_nil_r. cbn.
    repeat split; try reflexivity. intros id Hid. now apply elem_of_nil in Hid.
  - assert (Hfail : forall reason,
              BatchTransfer_loop k ctx owner rest tr
                (fl ++ [{| ft_CapsuleID := ct_CapsuleID t; ft_Reason := reason |}])
              = (tr', fl', k') ->
              exists tn fn,
                tr' = tr ++ tn /\ fl' = fl ++ fn /\
                tn ++ map ft_CapsuleID fn ≡ₚ map ct_CapsuleID (t :: rest) /\
                (forall id, id ∉ tn -> capsules k' !! id = capsules k !! id) /\
                (forall id, id ∈ tn ->
                   exists c' t0, capsules k' !! id = Some c' /\ t0 ∈ t :: rest /\
                                 ct_CapsuleID t0 = id /\ Owner c' = ct_NewOwner t0)).
    { intros reason Hr. apply IH in Hr as (tn & fn & -> & -> & Hp & Hu & Ho).
      exists tn, ({| ft_CapsuleID := ct_CapsuleID t; ft_Reason := reason |} :: fn).
      split; [reflexivity|]. split; [now rewrite <- app_assoc|]. split.
      - cbn [map ft_CapsuleID]. rewrite <- Hp.
        now rewrite Permutation_middle.
      - split; [exact Hu|]. intros id Hid.
        destruct (Ho id Hid) as (c' & t0 & ? & ? & ? & ?).
        exists c', t0. repeat split; try assumption. now right. }
    cbv zeta in H.
    destruct (GetCapsule k (ct_CapsuleID t)) as [capsule|e|m] eqn:Eg;
      [|now apply Hfail in H|now apply Hfail in H].
    destruct (negb (bool_decide (Owner capsule = owner))); [now apply Hfail in H|].
    destruct (negb (bool_decide (Status capsule = CapsuleStatus_ACTIVE)));
      [now apply Hfail in H|].
    unfold GetCapsule in Eg.
    destruct (capsules k !! ct_CapsuleID t) as [c|] eqn:Ec; [|discriminate].
    inversion Eg; subst capsule.
    destruct (TransferCapsuleOwnership_capsules k ctx (ct_CapsuleID t) c owner
                (ct_NewOwner t) "batch" (ct_Message t) Ec) as (k1 & E1 & Ec1).
    rewrite E1 in H.
    apply IH in H as (tn & fn & -> & -> & Hp & Hu & Ho).
    exists (ct_CapsuleID t :: tn), fn.
    split; [now rewrite <- app_assoc|]. split; [reflexivity|]. split.
    + cbn [map app]. now rewrite Hp.
    + split.
      * intros id Hid. apply not_elem_of_cons in Hid as [Hne Hid].
        rewrite (Hu id Hid), Ec1. now apply lookup_insert_ne.
      * intros id Hid. destruct (decide (id ∈ tn)) as [Hin|Hnin].
        -- destruct (Ho id Hin) as (c' & t0 & ? & ? & ? & ?).
           exists c', t0. repeat split; try assumption. now right.
        -- apply elem_of_cons in Hid as [->|Hid]; [|contradiction].
           rewrite (Hu _ Hnin), Ec1, lookup_insert_eq.
           eexists _, t. split; [reflexivity|]. split; [left|]. split; reflexivity.
Qed.

(** X17. [BatchTransferCapsules] accounts for every item: unless a fee that
    is not zero cannot be charged, the message succeeds whatever happens to
    the items; every requested identifier is reported once, as transferred
    or as failed; a capsule that is not reported as transferred is stored as
    before, and a capsule reported as transferred is owned by the new owner
    of one of its items. With a zero fee the bank is not consulted. *)
Theorem BatchTransferCapsules_accounts (SendCoins : string -> Coins -> bool)
        (k : Keeper) (ctx : Ctx) (msg : MsgBatchTransferCapsules) :
  Coins_IsZero (mbt_TransferFee msg) = true \/
  SendCoins (mbt_CurrentOwner msg) (mbt_TransferFee msg) = true ->
  exists resp k',
    BatchTransferCapsules SendCoins k ctx msg = (Done resp, k') /\
    TransferredCapsules resp ++ map ft_CapsuleID (FailedTransfers resp)
    ≡ₚ map ct_CapsuleID (mbt_Transfers msg) /\
    (forall id, id ∉ TransferredCapsules resp ->
       capsules k' !! id = capsules k !! id) /\
    (forall id, id ∈ TransferredCapsules resp ->
       exists c' t, capsules k' !! id = Some c' /\ t ∈ mbt_Transfers msg /\
                    ct_CapsuleID t = id /\ Owner c' = ct_NewOwner t).
Proof.
  intros Hfee. unfold BatchTransferCapsules.
  destruct (BatchTransfer_loop k ctx (mbt_CurrentOwner msg) (mbt_Transfers msg) [] [])
    as [[tr fl] k1] eqn:E.
  apply BatchTransfer_loop_spec in E as (tn & fn & -> & -> & Hp & Hu & Ho).
  cbn [app] in *.
  assert (Hok : negb (Coins_IsZero (mbt_TransferFee msg)) &&
                negb (SendCoins (mbt_CurrentOwner msg) (mbt_TransferFee msg)) = false).
  { destruct Hfee as [-> | ->]; [reflexivity|apply andb_false_r]. }
  rewrite Hok. eexists _, _. split; [reflexivity|].
  cbn [TransferredCapsules FailedTransfers capsules EmitEvent]. auto.
Qed.

Lemma BatchTransferCapsules_accounts_witness :
  let msg := {| mbt_CurrentOwner := "alice";
                mbt_Transfers := [ {| ct_CapsuleID := 1; ct_NewOwner := "carol";
                                      ct_Message := "" |};
                                   {| ct_CapsuleID := 9; ct_NewOwner := "dave";
                                      ct_Message := "" |} ];
                mbt_TransferFee := []; mbt_RequireApproval := false |} in
  let k := keeper_indexed timelock_sample in
  exists resp k',
    BatchTransferCapsules (fun _ _ => false) k
      {| BlockTime := 7; BlockHeight := 2 |} msg = (Done resp, k') /\
    TransferredCapsules resp ++ map ft_CapsuleID (FailedTransfers resp)
    ≡ₚ map ct_CapsuleID (mbt_Transfers msg) /\
    (forall id, id ∉ TransferredCapsules resp ->
       capsules k' !! id = capsules k !! id) /\
    (forall id, id ∈ TransferredCapsules resp ->
       exists c' t, capsules k' !! id = Some c' /\ t ∈ mbt_Transfers msg /\
                    ct_CapsuleID t = id /\ Owner c' = ct_NewOwner t).
Proof.
  apply (BatchTransferCapsules_accounts (fun _ _ => false)
           (keeper_indexed timelock_sample) {| BlockTime := 7; BlockHeight := 2 |}
           {| mbt_CurrentOwner := "alice";
              mbt_Transfers := [ {| ct_CapsuleID := 1; ct_NewOwner := "carol";
                                    ct_Message := "" |};
                                 {| ct_CapsuleID := 9; ct_NewOwner := "dave";
                                    ct_Message := "" |} ];
              mbt_TransferFee := []; mbt_RequireApproval := false |}).
  left. reflexivity.
Defined.

(** ** Listing the capsules of a user *)









(** ** Validating presented key shares *)

Lemma ValidateKeyShares_loop_None k id shares : forall i,
  ValidateKeyShares_loop k id i shares = None <->
  Forall (fun share =>
            ks_CapsuleID share = id /\
            exists stored, keyShares k !! (id, ks_ShareIndex share) = Some stored /\
                           ks_NodeID stored = ks_NodeID share) shares.
Proof.
  induction shares as [|s rest IH]; intros i; cbn [ValidateKeyShares_loop].
  - split; [constructor|reflexivity].
  - rewrite Forall_cons. destruct (N.eqb_spec (ks_CapsuleID s) id) as [E|E]; cbn [negb].
    + rewrite E.
      destruct (keyShares k !! (id, ks_ShareIndex s)) as [stored|] eqn:Es.
      * case_bool_decide as Hn; cbn [negb].
        -- rewrite IH. split; [intros; split; [eauto|assumption]|intros [_ ?]; assumption].
        -- split; [discriminate|]. intros [[_ (st & Hst & Hnode)] _].
           inversion Hst; subst. contradiction.
      * split; [discriminate|]. intros [[_ (st & Hst & _)] _]. discriminate.
    + split; [discriminate|]. intros [[? _] _]. contradiction.
Qed.

(** X19. [ValidateKeyShares] accepts a list of presented key shares exactly
    when the list is not empty, the capsule exists, the list has at least
    [Threshold] entries, and every entry names the capsule and a stored
    share index whose node identifier it repeats. It reads neither the
    share bytes nor whether entries repeat: [n] copies of one entry with
    any bytes pass as soon as [n] reaches the threshold. *)
Theorem ValidateKeyShares_checks (k : Keeper) (id : N) (shares : list KeyShare) :
  (ValidateKeyShares k id shares = None <->
   shares <> [] /\
   (exists c, capsules k !! id = Some c /\
              (N.to_nat (Threshold c) <= length shares)%nat) /\
   Forall (fun share =>
             ks_CapsuleID share = id /\
             exists stored, keyShares k !! (id, ks_ShareIndex share) = Some stored /\
                            ks_NodeID stored = ks_NodeID share) shares) /\
  (forall c stored j bytes t n,
     capsules k !! id = Some c -> keyShares k !! (id, j) = Some stored ->
     (1 <= n)%nat -> (N.to_nat (Threshold c) <= n)%nat ->
     shares = replicate n {| ks_CapsuleID := id; ks_ShareIndex := j;
                             ks_NodeID := ks_NodeID stored;
                             ks_EncryptedShare := bytes; ks_CreatedAt := t |} ->
     ValidateKeyShares k id shares = None).
Proof.
  assert (Hiff : ValidateKeyShares k id shares = None <->
    shares <> [] /\
    (exists c, capsules k !! id = Some c /\
               (N.to_nat (Threshold c) <= length shares)%nat) /\
    Forall (fun share =>
              ks_CapsuleID share = id /\
              exists stored, keyShares k !! (id, ks_ShareIndex share) = Some stored /\
                             ks_NodeID stored = ks_NodeID share) shares).
  { unfold ValidateKeyShares, GetCapsule.
    destruct shares as [|s rest] eqn:Es.
    { cbn. split; [discriminate|]. intros [H _]. congruence. }
    rewrite <- Es. assert (Hl : (length shares =? 0)%nat = false) by now subst.
    rewrite Hl.
    destruct (capsules k !! id) as [c|] eqn:Ec.
    - destruct (Nat.ltb_spec (length shares) (N.to_nat (Threshold c))).
      + split; [discriminate|]. intros (_ & (c' & Hc' & Hlen) & _).
        inversion Hc'; subst c'. lia.
      + rewrite ValidateKeyShares_loop_None. split.
        * intros H'. split; [subst; discriminate|]. split; [eauto|assumption].
        * intros (_ & _ & H'). assumption.
    - split; [discriminate|]. intros (_ & (c' & Hc' & _) & _). discriminate. }
  split; [exact Hiff|].
  intros c stored j bytes t n Hc Hst Hn Hth ->. apply Hiff. split; [|split].
  - destruct n; [lia|discriminate].
  - exists c. split; [assumption|]. now rewrite length_replicate.
  - apply Forall_replicate. cbn. eauto.
Qed.

(** ** The emergency deletion and its confirmation code *)













(** X21. [EmergencyDeleteContract] succeeds only for the owner of an Active
    Conditional capsule with a condition contract and an accepted
    confirmation code. It then records the action under
    ["emergency_<id>_<height>"] as not reversible, empties the contract and
    sets the status to Unlocked. The capsule is not "immediately
    accessible" for that: every later [OpenCapsule] on it fails with
    CapsuleAlreadyOpened (Unauthorized for a malformed accessor address),
    and every later emergency deletion on it fails. *)
Theorem EmergencyDeleteContract_unlocks (k : Keeper)
        (actions : gmap string EmergencyAction) (ctx : Ctx) (id : N)
        (creator reason code : string) :
  (forall k' actions',
     EmergencyDeleteContract k actions ctx id creator reason code
     = (Done tt, k', actions') ->
     exists c, capsules k !! id = Some c /\ Owner c = creator /\
               CapsuleType_ c = CapsuleType_CONDITIONAL /\
               ConditionContract c <> ""%string /\
               Status c = CapsuleStatus_ACTIVE /\
               validateConfirmationCode code id creator = true) /\
  (forall c,
     capsules k !! id = Some c -> Owner c = creator ->
     CapsuleType_ c = CapsuleType_CONDITIONAL ->
     ConditionContract c <> ""%string ->
     Status c = CapsuleStatus_ACTIVE ->
     validateConfirmationCode code id creator = true ->
     let c' := set_UpdatedAt
                 (set_Status (set_ConditionContract c "") CapsuleStatus_UNLOCKED)
                 (BlockTime ctx) in
     let deletionID :=
       ("emergency_" +:+ fmt_d id +:+ "_" +:+ fmt_dZ (BlockHeight ctx))%string in
     exists k' actions' action,
       EmergencyDeleteContract k actions ctx id creator reason code
       = (Done tt, k', actions') /\
       capsules k' = <[id := c']> (capsules k) /\
       actions' = <[deletionID := action]> actions /\
       ea_CapsuleID action = id /\ ea_Creator action = creator /\
       ea_ConfirmationCode action = code /\ ea_IsReversible action = false /\
       (forall host ctx2 accessor shares,
          fst (OpenCapsule host k' ctx2 id accessor shares)
          = Error (if StringToBytes_ok host accessor
                   then ErrCapsuleAlreadyOpened else ErrUnauthorized)) /\
       (forall actions2 ctx2 creator2 reason2 code2,
          exists e,
            EmergencyDeleteContract k' actions2 ctx2 id creator2 reason2 code2
            = (Error e, k', actions2))).
Proof.
  split.
  - intros k' actions' H. unfold EmergencyDeleteContract, GetCapsule in H.
    destruct (capsules k !! id) as [c|]; [|discriminate].
    case_bool_decide as Ho; cbn [negb] in H; [|discriminate].
    case_bool_decide as Ht; cbn [negb] in H; [|discriminate].
    case_bool_decide as Hcc; [discriminate|].
    case_bool_decide as Hs; cbn [negb] in H; [|discriminate].
    destruct (validateConfirmationCode code id creator) eqn:Hv; [|discriminate].
    exists c. repeat split; assumption.
  - intros c Hc Ho Ht Hcc Hs Hv. cbv zeta.
    unfold EmergencyDeleteContract at 1, GetCapsule. rewrite Hc, Hv.
    rewrite (bool_decide_false (ConditionContract c = "")) by assumption.
    rewrite (bool_decide_true (Owner c = creator)) by assumption.
    rewrite (bool_decide_true (CapsuleType_ c = _)) by assumption.
    rewrite (bool_decide_true (Status c = _)) by assumption. cbn [negb].
    eexists _, _, _. split; [reflexivity|].
    cbn [capsules EmitEvent set_capsules ea_CapsuleID ea_Creator ea_ConfirmationCode
         ea_IsReversible].
    repeat split.
    + intros host ctx2 accessor shares.
      eapply OpenCapsule_not_active.
      * cbn [capsules EmitEvent set_capsules]. apply lookup_insert_eq.
      * discriminate.
    + intros actions2 ctx2 creator2 reason2 code2.
      unfold EmergencyDeleteContract, GetCapsule.
      cbn [capsules EmitEvent set_capsules]. rewrite lookup_insert_eq.
      cbn [Owner CapsuleType_ ConditionContract set_UpdatedAt set_Status
           set_ConditionContract].
      destruct (negb (bool_decide (Owner c = creator2))); [eauto|].
      destruct (negb (bool_decide (CapsuleType_ c = CapsuleType_CONDITIONAL))); [eauto|].
      rewrite bool_decide_true by reflexivity. eauto.
Qed.

Lemma EmergencyDeleteContract_unlocks_witness :
  let ctx := {| BlockTime := 9; BlockHeight := 3 |} in
  let k := keeper_with conditional_sample in
  let c' := set_UpdatedAt
              (set_Status (set_ConditionContract conditional_sample "")
                          CapsuleStatus_UNLOCKED) 9 in
  exists k' actions' action,
    EmergencyDeleteContract k ∅ ctx 4 (Owner conditional_sample) "lost"
      "EMERGENCY_DELETE_4_qypqxpq9" = (Done tt, k', actions') /\
    capsules k' = <[4%N := c']> (capsules k) /\
    actions' = <[("emergency_" +:+ fmt_d 4 +:+ "_" +:+ fmt_dZ 3)%string := action]> ∅ /\
    ea_CapsuleID action = 4%N /\ ea_Creator action = Owner conditional_sample /\
    ea_ConfirmationCode action = "EMERGENCY_DELETE_4_qypqxpq9"%string /\
    ea_IsReversible action = false /\
    (forall host ctx2 accessor shares,
       fst (OpenCapsule host k' ctx2 4 accessor shares)
       = Error (if StringToBytes_ok host accessor
                then ErrCapsuleAlreadyOpened else ErrUnauthorized)) /\
    (forall actions2 ctx2 creator2 reason2 code2,
       exists e,
         EmergencyDeleteContract k' actions2 ctx2 4 creator2 reason2 code2
         = (Error e, k', actions2)).
Proof.
  apply (proj2 (EmergencyDeleteContract_unlocks (keeper_with conditional_sample) ∅
                  {| BlockTime := 9; BlockHeight := 3 |} 4
                  (Owner conditional_sample) "lost" "EMERGENCY_DELETE_4_qypqxpq9")
           conditional_sample);
    try reflexivity. discriminate.
Defined.

(** ** The registered invariants *)

Lemma existsb_false {A} (f : A -> bool) (l : list A) :
  existsb f l = false <-> forall x, x ∈ l -> f x = false.
Proof.
  induction l as [|a l IH]; cbn [existsb].
  - split; [|reflexivity]. intros _ x H. now apply elem_of_nil in H.
  - rewrite orb_false_iff, IH. split.
    + intros [Ha Hl] x [->|H]%elem_of_cons; auto.
    + intros H. split; [apply H; left|intros x Hx; apply H; now right].
Qed.

Lemma Walk_index_elem_of s key : key ∈ Walk_index s <-> key ∈ s.
Proof.
  unfold Walk_index. rewrite merge_sort_Permutation. apply elem_of_elements.
Qed.

(** What the first walk of [CapsuleUserIndexInvariant] records. *)
Lemma userIndexed_spec (k : Keeper) (entries : list (string * N)) :
  forall (m : gmap N string) id,
    let m' :=
      fold_left
        (fun m (key : string * N) =>
           let (owner, capsuleID) := key in
           match GetCapsule k capsuleID with
           | Done _ => <[capsuleID := owner]> m
           | _ => m
           end) entries m in
    (forall o, m' !! id = Some o -> m !! id = Some o \/ (o, id) ∈ entries) /\
    (is_Some (m !! id) -> is_Some (m' !! id)) /\
    (forall o, (o, id) ∈ entries -> is_Some (capsules k !! id) -> is_Some (m' !! id)).
Proof.
  induction entries as [|[owner cid] entries IH]; intros m id; cbn [fold_left].
  - cbn zeta. repeat split; auto. intros o H. now apply elem_of_nil in H.
  - cbn zeta. destruct (capsules k !! cid) as [c|] eqn:Hc.
    + assert (Hg : GetCapsule k cid = Done c) by (unfold GetCapsule; now rewrite Hc).
      rewrite Hg.
      destruct (IH (<[cid := owner]> m) id) as (H1 & H2 & H3). repeat split.
      * intros o Ho. destruct (H1 o Ho) as [H|H]; [|right; now right].
        apply lookup_insert_Some in H as [[<- <-]|[_ H]]; [right; left|now left].
      * intros Hm. apply H2. destruct (decide (cid = id)) as [->|Hne].
        -- rewrite lookup_insert_eq. eauto.
        -- now rewrite lookup_insert_ne.
      * intros o [E|Hin]%elem_of_cons Hex; [|eauto].
        inversion E; subst. apply H2. rewrite lookup_insert_eq. eauto.
    + assert (Hg : GetCapsule k cid = Error ErrCapsuleNotFound)
        by (unfold GetCapsule; now rewrite Hc).
      rewrite Hg.
      destruct (IH m id) as (H1 & H2 & H3). repeat split.
      * intros o Ho. destruct (H1 o Ho) as [H|H]; [now left|right; now right].
      * assumption.
      * intros o [E|Hin]%elem_of_cons Hex; [|eauto].
        inversion E; subst. rewrite Hc in Hex. now destruct Hex.
Qed.

(** The invariant holds exactly when the index and the owners agree. *)
Lemma CapsuleUserIndexInvariant_spec k :
  CapsuleUserIndexInvariant k = false <-> index_consistent k.
Proof.
  unfold CapsuleUserIndexInvariant, index_consistent. cbn zeta.
  rewrite orb_false_iff, !existsb_false. split.
  - intros [H1 H2].
    assert (G1 : forall owner id, (owner, id) ∈ userCapsules k ->
                   exists c, capsules k !! id = Some c /\ Owner c = owner).
    { intros owner id Hin. apply Walk_index_elem_of, H1 in Hin.
      unfold GetCapsule in Hin. destruct (capsules k !! id) as [c|]; [|discriminate].
      exists c. split; [reflexivity|].
      apply negb_false_iff, bool_decide_eq_true in Hin. exact Hin. }
    split; [exact G1|].
    intros id c Hc.
    assert (Hin : id ∈ Walk_keys (capsules k)) by (apply Walk_keys_elem_of; eauto).
    specialize (H2 id Hin). rewrite Hc in H2.
    destruct (userIndexed_spec k (Walk_index (userCapsules k)) ∅ id) as (S1 & _ & _).
    cbn zeta in S1.
    destruct (_ !! id) as [o|] eqn:Ho; [|discriminate].
    apply negb_false_iff, bool_decide_eq_true in H2. subst o.
    destruct (S1 _ eq_refl) as [H|H]; [now rewrite lookup_empty in H|].
    now apply Walk_index_elem_of in H.
  - intros [G1 G2]. split.
    + intros [owner id] Hin. apply Walk_index_elem_of, G1 in Hin as (c & Hc & <-).
      unfold GetCapsule. rewrite Hc. apply negb_false_iff, bool_decide_eq_true.
      reflexivity.
    + intros id Hin. apply Walk_keys_elem_of in Hin as [c Hc]. rewrite Hc.
      destruct (userIndexed_spec k (Walk_index (userCapsules k)) ∅ id) as (S1 & _ & S3).
      cbn zeta in S1, S3.
      destruct (S3 (Owner c)) as [o Ho]; [apply Walk_index_elem_of; eauto|eauto|].
      rewrite Ho. apply negb_false_iff, bool_decide_eq_true.
      destruct (S1 _ Ho) as [H|H]; [now rewrite lookup_empty in H|].
      apply Walk_index_elem_of, G1 in H as (c' & Hc' & <-). congruence.
Qed.

(** Rewriting a capsule without touching its owner keeps the index
    consistent. *)
Lemma index_consistent_update k k' id c c' :
  index_consistent k ->
  capsules k !! id = Some c ->
  Owner c' = Owner c ->
  capsules k' = <[id := c']> (capsules k) ->
  userCapsules k' = userCapsules k ->
  index_consistent k'.
Proof.
  intros [G1 G2] Hc Ho Ec Eu. unfold index_consistent. rewrite Ec, Eu. split.
  - intros owner j Hin. destruct (G1 _ _ Hin) as (d & Hd & <-).
    destruct (decide (j = id)) as [->|Hne].
    + exists c'. rewrite lookup_insert_eq. split; congruence.
    + exists d. rewrite lookup_insert_ne by congruence. auto.
  - intros j d Hd. apply lookup_insert_Some in Hd as [[<- <-]|[_ Hd]]; [|auto].
    rewrite Ho. auto.
Qed.

(** Moving a capsule and its index entry from its owner to another keeps
    the index consistent. *)
Lemma index_consistent_move k k' id c c' :
  index_consistent k ->
  capsules k !! id = Some c ->
  capsules k' = <[id := c']> (capsules k) ->
  userCapsules k' = {[(Owner c', id)]} ∪ (userCapsules k ∖ {[(Owner c, id)]}) ->
  index_consistent k'.
Proof.
  intros [G1 G2] Hc Ec Eu. unfold index_consistent. rewrite Ec, Eu. split.
  - intros owner j [Hin|Hin]%elem_of_union.
    + apply elem_of_singleton in Hin. inversion Hin; subst.
      exists c'. now rewrite lookup_insert_eq.
    + apply elem_of_difference in Hin as [Hin Hne].
      destruct (G1 _ _ Hin) as (d & Hd & <-).
      destruct (decide (j = id)) as [->|Hj].
      * exfalso. apply Hne, elem_of_singleton. congruence.
      * exists d. now rewrite lookup_insert_ne by congruence.
  - intros j d Hd. apply lookup_insert_Some in Hd as [[<- <-]|[Hj Hd]].
    + apply elem_of_union_l. now apply elem_of_singleton.
    + apply elem_of_union_r, elem_of_difference. split; [auto|].
      intros E%elem_of_singleton. inversion E. congruence.
Qed.

(** X22. [CreateCapsule] keeps the user index invariant when the counter
    names an identifier that no stored capsule has. *)
Theorem CreateCapsule_keeps_user_index (host : Host) (k k' : Keeper) (ctx : Ctx)
        (now : Time) (r r' : Reader) (owner recipient : string)
        (data : list byte) (capsuleType : CapsuleType) (threshold totalShares : N)
        (unlockTime : option Time) (conditionContract : string)
        (metadata : gmap string string) (c : TimeCapsule) :
  CapsuleUserIndexInvariant k = false ->
  capsules k !! capsuleCounter k = None ->
  CreateCapsule host k ctx now r owner recipient data capsuleType threshold
    totalShares unlockTime conditionContract metadata = (Done c, k', r') ->
  CapsuleUserIndexInvariant k' = false.
Proof.
  rewrite !CapsuleUserIndexInvariant_spec. intros [G1 G2] Hfresh H.
  apply CreateCapsule_Done_inv in H
    as (key & nonce & shares & r1 & r2 & _ & _ & _ & _ & _ & Ec & _ & ->).
  destruct (after_create_frame k ctx c shares) as (E1 & E2 & _).
  assert (Eid : ID c = capsuleCounter k) by now subst c.
  unfold index_consistent. rewrite E1, E2, Eid. split.
  - intros o j [Hin|Hin]%elem_of_union.
    + apply elem_of_singleton in Hin. inversion Hin; subst o j.
      exists c. now rewrite lookup_insert_eq.
    + destruct (G1 _ _ Hin) as (d & Hd & <-). exists d.
      rewrite lookup_insert_ne by congruence. auto.
  - intros j d Hd. apply lookup_insert_Some in Hd as [[<- <-]|[_ Hd]].
    + apply elem_of_union_l. now apply elem_of_singleton.
    + apply elem_of_union_r. auto.
Qed.

Lemma CreateCapsule_keeps_user_index_witness :
  CapsuleUserIndexInvariant Scenario.created = false.
Proof.
  apply (CreateCapsule_keeps_user_index Toy.host Toy.empty_keeper Scenario.created
           Scenario.create_ctx Scenario.created_at Scenario.tape []
           "alice" "bob" Scenario.hello CapsuleType_TIME_LOCK 2 3
           (Some Scenario.unlock_time) "" ∅ created_capsule);
    [vm_compute; reflexivity|reflexivity|exact scenario_created].
Defined.

(** X23. [TransferCapsule] keeps the user index invariant: it moves the
    index entry together with the owner. *)
Theorem TransferCapsule_keeps_user_index (k k' : Keeper) (ctx : Ctx)
        (msg : MsgTransferCapsule) (o : Outcome unit) :
  CapsuleUserIndexInvariant k = false ->
  TransferCapsule k ctx msg = (o, k') ->
  CapsuleUserIndexInvariant k' = false.
Proof.
  rewrite !CapsuleUserIndexInvariant_spec. intros G H.
  unfold TransferCapsule, GetCapsule in H.
  destruct (capsules k !! mtc_CapsuleID msg) as [c|] eqn:Hc; [|congruence].
  case_bool_decide as Ho; cbn [negb] in H; [|congruence].
  destruct (negb (bool_decide (Status c = _))); [congruence|].
  inversion H; subst o k'; clear H.
  eapply (index_consistent_move k _ (mtc_CapsuleID msg) c); [exact G|exact Hc|reflexivity|].
  cbn [userCapsules EmitEvent set_userCapsules set_capsules Owner set_UpdatedAt set_Owner].
  now rewrite Ho.
Qed.

Lemma TransferCapsule_keeps_user_index_witness :
  let ctx := {| BlockTime := 5; BlockHeight := 1 |} in
  let msg := {| mtc_CurrentOwner := "alice"; mtc_NewOwner := "carol";
                mtc_CapsuleID := 1 |} in
  CapsuleUserIndexInvariant
    (snd (TransferCapsule (keeper_indexed timelock_sample) ctx msg)) = false.
Proof.
  intros ctx msg.
  apply (TransferCapsule_keeps_user_index (keeper_indexed timelock_sample)
           (snd (TransferCapsule (keeper_indexed timelock_sample) ctx msg))
           ctx msg (Done tt));
    vm_compute; reflexivity.
Defined.

Lemma TransferCapsuleOwnership_index k ctx id c from to kind message :
  capsules k !! id = Some c ->
  exists k',
    TransferCapsuleOwnership k ctx id from to kind message = (Done tt, k') /\
    capsules k' = <[id := set_UpdatedAt (set_Owner c to) (BlockTime ctx)]> (capsules k) /\
    userCapsules k' = {[(to, id)]} ∪ (userCapsules k ∖ {[(from, id)]}) /\
    pendingTransfers k' = pendingTransfers k.
Proof.
  intros Hc. unfold TransferCapsuleOwnership, GetCapsule. rewrite Hc.
  eexists. split; [reflexivity|]. repeat split.
Qed.

(** X24. [ApproveTransfer] breaks the user index invariant when the
    pending transfer names as sender someone who does not own the capsule
    of the message: the capsule goes to the approver while the entry of
    its owner stays in the index. *)
Theorem ApproveTransfer_breaks_user_index (k k' : Keeper) (ctx : Ctx)
        (msg : MsgApproveTransfer) (pt : PendingTransfer) (c : TimeCapsule) :
  CapsuleUserIndexInvariant k = false ->
  pendingTransfers k !! msg_TransferID msg = Some pt ->
  capsules k !! msg_CapsuleID msg = Some c ->
  Owner c <> pt_FromOwner pt ->
  Owner c <> pt_ToOwner pt ->
  ApproveTransfer k ctx msg = (Done true, k') ->
  CapsuleUserIndexInvariant k' = true.
Proof.
  intros G Hpt Hc Hfrom Hto H.
  apply not_false_iff_true. rewrite CapsuleUserIndexInvariant_spec.
  apply CapsuleUserIndexInvariant_spec in G. destruct G as [G1 G2].
  unfold ApproveTransfer, GetPendingTransfer in H. rewrite Hpt in H.
  destruct (After _ _); [discriminate|].
  destruct (negb (bool_decide (pt_ToOwner pt = _))); [discriminate|].
  destruct (msg_Approved msg) eqn:Ha.
  - destruct (TransferCapsuleOwnership_index k ctx (msg_CapsuleID msg) c
                (pt_FromOwner pt) (pt_ToOwner pt) "approved" (pt_Message pt) Hc)
      as (k1 & E & Ec & Eu & _).
    cbn [pt_FromOwner pt_ToOwner pt_Message set_pt_Status] in H. rewrite E in H.
    inversion H; subst k'; clear H.
    intros [G1' _].
    destruct (G1' (Owner c) (msg_CapsuleID msg)) as (d & Hd & Hod).
    + cbn [userCapsules EmitEvent SetPendingTransfer set_pendingTransfers].
      rewrite Eu. apply elem_of_union_r, elem_of_difference. split; [eauto|].
      intros E'%elem_of_singleton. inversion E'. contradiction.
    + cbn [capsules EmitEvent SetPendingTransfer set_pendingTransfers] in Hd.
      rewrite Ec, lookup_insert_eq in Hd. inversion Hd; subst d.
      cbn [Owner set_UpdatedAt set_Owner] in Hod. congruence.
  - inversion H.
Qed.

Lemma ApproveTransfer_breaks_user_index_witness :
  let ctx := {| BlockTime := 5; BlockHeight := 1 |} in
  CapsuleUserIndexInvariant
    (snd (ApproveTransfer keeper_stale_pending ctx (approve_msg true))) = true.
Proof.
  intros ctx.
  apply (ApproveTransfer_breaks_user_index keeper_stale_pending
           (snd (ApproveTransfer keeper_stale_pending ctx (approve_msg true)))
           ctx (approve_msg true) pending_sample
           (Toy.capsule_of 1 CapsuleType_SAFE "carol" "" None));
    [vm_compute; reflexivity|reflexivity|reflexivity|discriminate|discriminate
    |vm_compute; reflexivity].
Defined.

(** The number of records under [id] after [distributeKeyShares] has
    written [shares] from index [i] on. *)
Lemma distributeKeyShares_loop_count ctx id shares : forall k i,
  (forall j, (i <= j)%N -> keyShares k !! (id, j) = None) ->
  size (filter (fun kv : N * N * KeyShare => fst (fst kv) = id)
               (keyShares (distributeKeyShares_loop k ctx id i shares)))
  = (size (filter (fun kv : N * N * KeyShare => fst (fst kv) = id) (keyShares k))
     + length shares)%nat.
Proof.
  induction shares as [|s shares IH]; intros k i Hfree; cbn [distributeKeyShares_loop].
  - cbn [length]. lia.
  - cbn zeta. rewrite IH.
    + cbn [keyShares set_keyShares EmitEvent length].
      rewrite map_filter_insert_True by reflexivity.
      rewrite map_size_insert_None; [lia|].
      apply map_lookup_filter_None. left. apply Hfree. lia.
    + intros j Hj. cbn [keyShares set_keyShares EmitEvent].
      rewrite lookup_insert_ne; [apply Hfree; lia|].
      intros E. inversion E. lia.
Qed.

Lemma distributeKeyShares_loop_others ctx id id' shares : forall k i,
  id' <> id ->
  filter (fun kv : N * N * KeyShare => fst (fst kv) = id')
         (keyShares (distributeKeyShares_loop k ctx id i shares))
  = filter (fun kv : N * N * KeyShare => fst (fst kv) = id') (keyShares k).
Proof.
  induction shares as [|s shares IH]; intros k i Hne; cbn [distributeKeyShares_loop].
  - reflexivity.
  - cbn zeta. rewrite IH by assumption.
    cbn [keyShares set_keyShares EmitEvent].
    apply map_filter_insert_not. intros y. cbn. congruence.
Qed.

Lemma shareCount_after_create k ctx c shares id :
  no_shares_of k (ID c) ->
  shareCount (after_create k ctx c shares) id
  = if bool_decide (id = ID c) then wrap_uint32 (N.of_nat (length shares))
    else shareCount k id.
Proof.
  intros Hfree. unfold shareCount, after_create, distributeKeyShares.
  cbn [keyShares EmitEvent]. case_bool_decide as Hid.
  - subst id. rewrite distributeKeyShares_loop_count.
    + cbn [keyShares set_userCapsules set_capsules set_capsuleCounter].
      replace (size (filter _ (keyShares k))) with 0%nat; [reflexivity|].
      symmetry. apply map_size_empty_iff, map_empty. intros [id j].
      apply map_lookup_filter_None.
      destruct (decide (id = ID c)) as [->|Hne]; [left; apply Hfree|].
      right. intros x _. cbn. exact Hne.
    + intros j _. apply Hfree.
  - now rewrite distributeKeyShares_loop_others.
Qed.

(** X25. [CreateCapsule] keeps the key shares invariant when no record is
    stored under the identifier that the counter names: the new capsule
    has exactly [totalShares] records, and the count of no other capsule
    changes. The count is a [uint32], as [totalShares] is. *)
Theorem CreateCapsule_keeps_key_shares (host : Host) (k k' : Keeper) (ctx : Ctx)
        (now : Time) (r r' : Reader) (owner recipient : string)
        (data : list byte) (capsuleType : CapsuleType) (threshold totalShares : N)
        (unlockTime : option Time) (conditionContract : string)
        (metadata : gmap string string) (c : TimeCapsule) :
  CapsuleKeySharesInvariant k = false ->
  no_shares_of k (capsuleCounter k) ->
  (totalShares < 2 ^ 32)%N ->
  CreateCapsule host k ctx now r owner recipient data capsuleType threshold
    totalShares unlockTime conditionContract metadata = (Done c, k', r') ->
  CapsuleKeySharesInvariant k' = false.
Proof.
  unfold CapsuleKeySharesInvariant. rewrite !existsb_false.
  intros G Hfree Hrange H.
  apply CreateCapsule_Done_inv in H
    as (key & nonce & shares & r1 & r2 & _ & _ & Hs & _ & _ & Ec & _ & ->).
  assert (Eid : ID c = capsuleCounter k) by now subst c.
  assert (Ets : TotalShares c = totalShares) by now subst c.
  assert (Hlen : N.of_nat (length shares) = totalShares).
  { apply SplitSecret_Ok in Hs as (HT & _ & cs & _ & ->).
    unfold Shamir.make_shares. rewrite length_map, length_seqZ. lia. }
  destruct (after_create_frame k ctx c shares) as (E1 & _).
  intros id Hin. apply Walk_keys_elem_of in Hin as [d Hd]. rewrite Hd.
  rewrite shareCount_after_create by now rewrite Eid.
  rewrite E1 in Hd. case_bool_decide as Hid.
  - subst id. rewrite lookup_insert_eq in Hd. inversion Hd; subst d.
    rewrite Hlen, Ets. unfold wrap_uint32. rewrite N.mod_small by assumption.
    now rewrite N.eqb_refl.
  - rewrite lookup_insert_ne in Hd by congruence.
    specialize (G id). rewrite Hd in G. apply G. apply Walk_keys_elem_of. eauto.
Qed.

Lemma CreateCapsule_keeps_key_shares_witness :
  CapsuleKeySharesInvariant Scenario.created = false.
Proof.
  apply (CreateCapsule_keeps_key_shares Toy.host Toy.empty_keeper Scenario.created
           Scenario.create_ctx Scenario.created_at Scenario.tape []
           "alice" "bob" Scenario.hello CapsuleType_TIME_LOCK 2 3
           (Some Scenario.unlock_time) "" ∅ created_capsule);
    [vm_compute; reflexivity|intros j; reflexivity|reflexivity|exact scenario_created].
Defined.

Lemma EmergencyDeleteContract_Done_inv k actions ctx id creator reason code k' actions' :
  EmergencyDeleteContract k actions ctx id creator reason code = (Done tt, k', actions') ->
  exists c,
    capsules k !! id = Some c /\ CapsuleType_ c = CapsuleType_CONDITIONAL /\
    capsules k'
    = <[id := set_UpdatedAt
                (set_Status (set_ConditionContract c "") CapsuleStatus_UNLOCKED)
                (BlockTime ctx)]> (capsules k).
Proof.
  intros H. unfold EmergencyDeleteContract, GetCapsule in H.
  destruct (capsules k !! id) as [c|]; [|discriminate].
  destruct (negb (bool_decide (Owner c = creator))); [discriminate|].
  case_bool_decide as Ht; cbn [negb] in H; [|discriminate].
  destruct (bool_decide (ConditionContract c = "")); [discriminate|].
  destruct (negb (bool_decide (Status c = _))); [discriminate|].
  destruct (negb (validateConfirmationCode code id creator)); [discriminate|].
  inversion H; subst. exists c. repeat split. exact Ht.
Qed.

(** X26. Every successful [EmergencyDeleteContract] breaks the status
    consistency invariant: it leaves a Conditional capsule without a
    condition contract, which the invariant reports. *)
Theorem EmergencyDeleteContract_breaks_status_invariant (k k' : Keeper)
        (actions actions' : gmap string EmergencyAction) (ctx ctx' : Ctx) (id : N)
        (creator reason code : string) :
  EmergencyDeleteContract k actions ctx id creator reason code
  = (Done tt, k', actions') ->
  CapsuleStatusConsistencyInvariant k' ctx' = true.
Proof.
  intros H. apply EmergencyDeleteContract_Done_inv in H as (c & Hc & Ht & Ec).
  unfold CapsuleStatusConsistencyInvariant. apply existsb_exists.
  exists id. split.
  - apply list_elem_of_In, Walk_keys_elem_of. rewrite Ec, lookup_insert_eq. eauto.
  - rewrite Ec, lookup_insert_eq. unfold status_inconsistent.
    cbn [CapsuleType_ ConditionContract set_UpdatedAt set_Status set_ConditionContract].
    rewrite Ht. rewrite (bool_decide_true (""%string = ""%string)) by reflexivity.
    apply orb_true_r.
Qed.

Lemma EmergencyDeleteContract_breaks_status_invariant_witness :
  let ctx := {| BlockTime := 9; BlockHeight := 3 |} in
  let run := EmergencyDeleteContract (keeper_with conditional_sample) ∅ ctx 4
               (Owner conditional_sample) "lost" "EMERGENCY_DELETE_4_qypqxpq9" in
  CapsuleStatusConsistencyInvariant (keeper_with conditional_sample) ctx = false /\
  CapsuleStatusConsistencyInvariant (snd (fst run)) ctx = true.
Proof.
  intros ctx run. split; [vm_compute; reflexivity|].
  apply (EmergencyDeleteContract_breaks_status_invariant
           (keeper_with conditional_sample) (snd (fst run)) ∅ (snd run) ctx ctx 4
           (Owner conditional_sample) "lost" "EMERGENCY_DELETE_4_qypqxpq9").
  vm_compute. reflexivity.
Defined.

(** The test of the cancelled and expired capsules never fires: a capsule
    that is not Active is not unlockable. *)
Lemma status_inconsistent_no_time t c :
  status_inconsistent t c
  = ((TotalShares c <? Threshold c)%N ||
     match CapsuleType_ c with
     | CapsuleType_TIME_LOCK =>
         match UnlockTime c with None => true | Some _ => false end
     | CapsuleType_CONDITIONAL => bool_decide (ConditionContract c = "")
     | CapsuleType_MULTI_SIG => (RequiredSigs c =? 0)%N
     | CapsuleType_DEAD_MANS_SWITCH =>
         (InactivityPeriod c =? 0)%N || bool_decide (Recipient c = "")
     | _ => false
     end).
Proof.
  unfold status_inconsistent.
  replace ((bool_decide (Status c = CapsuleStatus_CANCELLED) ||
            bool_decide (Status c = CapsuleStatus_EXPIRED)) &&
           IsUnlockable c t) with false; [reflexivity|].
  unfold IsUnlockable. destruct (Status c); reflexivity.
Qed.

Lemma status_inconsistent_tick t t' c :
  status_inconsistent t' (tick_capsule t c) = status_inconsistent t' c.
Proof.
  rewrite !status_inconsistent_no_time. unfold tick_capsule.
  destruct (_ && _ && _); reflexivity.
Qed.

Lemma walk_frame t keys : forall k,
  let k' := fold_left (fun k key => match capsules k !! key with
                                    | Some capsule => expire_capsule t k key capsule
                                    | None => k
                                    end) keys k in
  userCapsules k' = userCapsules k /\ keyShares k' = keyShares k.
Proof.
  induction keys as [|key keys IH]; intros k; cbn [fold_left]; [now split|].
  cbn zeta. destruct (IH (match capsules k !! key with
                          | Some capsule => expire_capsule t k key capsule
                          | None => k
                          end)) as [E1 E2].
  rewrite E1, E2. destruct (capsules k !! key) as [c|]; [|now split].
  unfold expire_capsule. destruct (bool_decide _); [|now split].
  destruct (CapsuleType_ c); try now split.
  destruct (ExpiresAt c) as [e|]; [|now split].
  destruct (After t e); now split.
Qed.

Lemma BeginBlocker_lookup k ctx id :
  capsules (BeginBlocker k ctx) !! id = tick_capsule (BlockTime ctx) <$> capsules k !! id.
Proof.
  unfold BeginBlocker, processExpiredCapsules. cbn zeta.
  rewrite walk_capsules by apply Walk_keys_NoDup.
  case_bool_decide as Hin; [reflexivity|].
  destruct (capsules k !! id) eqn:E; [|reflexivity].
  exfalso. apply Hin, Walk_keys_elem_of. eauto.
Qed.

Lemma BeginBlocker_keys k ctx :
  Walk_keys (capsules (BeginBlocker k ctx)) = Walk_keys (capsules k).
Proof.
  unfold Walk_keys. f_equal. f_equal. apply set_eq. intros id.
  rewrite !elem_of_dom, BeginBlocker_lookup.
  destruct (capsules k !! id); cbn; split; intros [x H]; eauto; discriminate.
Qed.

Lemma existsb_ext_in {A} (f g : A -> bool) (l : list A) :
  (forall x, x ∈ l -> f x = g x) -> existsb f l = existsb g l.
Proof.
  induction l as [|a l IH]; intros H; cbn [existsb]; [reflexivity|].
  rewrite (H a) by left. rewrite IH; [reflexivity|]. intros x Hx. apply H. now right.
Qed.

Lemma tick_capsule_Owner t c : Owner (tick_capsule t c) = Owner c.
Proof. unfold tick_capsule. destruct (_ && _ && _); reflexivity. Qed.

Lemma tick_capsule_TotalShares t c : TotalShares (tick_capsule t c) = TotalShares c.
Proof. unfold tick_capsule. destruct (_ && _ && _); reflexivity. Qed.

Lemma BeginBlocker_index_consistent k ctx :
  index_consistent (BeginBlocker k ctx) <-> index_consistent k.
Proof.
  unfold index_consistent.
  assert (Eu : userCapsules (BeginBlocker k ctx) = userCapsules k)
    by apply (walk_frame (BlockTime ctx) (Walk_keys (capsules k)) k).
  rewrite Eu. split; intros [G1 G2]; split.
  - intros owner id Hin. destruct (G1 _ _ Hin) as (c & Hc & Ho).
    rewrite BeginBlocker_lookup in Hc.
    destruct (capsules k !! id) as [d|]; [|discriminate]. inversion Hc; subst c.
    rewrite tick_capsule_Owner in Ho. eauto.
  - intros id c Hc.
    rewrite <- (tick_capsule_Owner (BlockTime ctx)). apply G2.
    now rewrite BeginBlocker_lookup, Hc.
  - intros owner id Hin. destruct (G1 _ _ Hin) as (c & Hc & Ho).
    exists (tick_capsule (BlockTime ctx) c).
    rewrite BeginBlocker_lookup, Hc, tick_capsule_Owner. auto.
  - intros id c Hc. rewrite BeginBlocker_lookup in Hc.
    destruct (capsules k !! id) as [d|] eqn:Hd; [|discriminate]. inversion Hc; subst c.
    rewrite tick_capsule_Owner. eauto.
Qed.

(** X27. The block hook changes the verdict of no registered invariant:
    it writes neither the index nor the key shares, and the fields it
    writes, the status and the update time, are read by no test of the
    invariants that can fire. *)
Theorem BeginBlocker_keeps_invariants (k : Keeper) (ctx : Ctx) :
  CapsuleKeySharesInvariant (BeginBlocker k ctx) = CapsuleKeySharesInvariant k /\
  CapsuleUserIndexInvariant (BeginBlocker k ctx) = CapsuleUserIndexInvariant k /\
  (forall ctx', CapsuleStatusConsistencyInvariant (BeginBlocker k ctx) ctx'
                = CapsuleStatusConsistencyInvariant k ctx').
Proof.
  assert (Ek : keyShares (BeginBlocker k ctx) = keyShares k)
    by apply (walk_frame (BlockTime ctx) (Walk_keys (capsules k)) k).
  split; [|split].
  - unfold CapsuleKeySharesInvariant. rewrite BeginBlocker_keys.
    apply existsb_ext_in. intros id _. rewrite BeginBlocker_lookup.
    unfold shareCount. rewrite Ek.
    destruct (capsules k !! id) as [c|]; [|reflexivity]. cbn.
    now rewrite tick_capsule_TotalShares.
  - pose proof (CapsuleUserIndexInvariant_spec (BeginBlocker k ctx)) as H1.
    pose proof (CapsuleUserIndexInvariant_spec k) as H2.
    pose proof (BeginBlocker_index_consistent k ctx) as H3.
    destruct (CapsuleUserIndexInvariant (BeginBlocker k ctx)),
             (CapsuleUserIndexInvariant k); try reflexivity.
    + apply H1, H3, H2. reflexivity.
    + symmetry. apply H2, H3, H1. reflexivity.
  - intros ctx'. unfold CapsuleStatusConsistencyInvariant. rewrite BeginBlocker_keys.
    apply existsb_ext_in. intros id _. rewrite BeginBlocker_lookup.
    destruct (capsules k !! id) as [c|]; [|reflexivity]. cbn.
    apply status_inconsistent_tick.
Qed.

(** ** Pending transfers *)

Lemma CreateCapsule_pending host k ctx now r owner recipient data capsuleType
      threshold totalShares unlockTime conditionContract metadata :
  pendingTransfers
    (snd (fst (CreateCapsule host k ctx now r owner recipient data capsuleType
                 threshold totalShares unlockTime conditionContract metadata)))
  = pendingTransfers k.
Proof.
  unfold CreateCapsule.
  destruct (negb (StringToBytes_ok host owner)); [reflexivity|].
  destruct (negb (bool_decide (recipient = "")) && _); [reflexivity|].
  destruct (maxDataSize <? length data)%nat; [reflexivity|].
  destruct (GenerateKey r) as [[key r1]|]; [|reflexivity].
  destruct (Encrypt host r1 data key) as [[enc|e|m] r2]; [|reflexivity|reflexivity].
  match goal with
  | |- context [match ?s with Done _ => _ | Error _ => _ | Panic _ => _ end] =>
      destruct s as [[h b]|e|m]; [|reflexivity|reflexivity]
  end.
  destruct (Shamir.SplitSecret _ r2 key _ _) as [[shares|e] r3]; [|reflexivity].
  unfold capsuleCounter_Next.
  match goal with
  | |- context [Validate ?a ?n ?cap] => destruct (Validate a n cap); [reflexivity|]
  end.
  cbn [fst snd pendingTransfers EmitEvent]. unfold distributeKeyShares.
  match goal with |- context [distributeKeyShares_loop ?k0 ?c ?i ?j ?s] =>
    destruct (distributeKeyShares_loop_frame c i s k0 j) as (_ & _ & _ & _ & E & _) end.
  rewrite E. reflexivity.
Qed.

Lemma OpenCapsule_pending host k ctx id accessor shares :
  pendingTransfers (snd (OpenCapsule host k ctx id accessor shares)) = pendingTransfers k.
Proof.
  unfold OpenCapsule. destruct (GetCapsule k id) as [c|e|m]; [|reflexivity|reflexivity].
  repeat match goal with
         | |- context [if ?b then _ else _] => destruct b; [reflexivity|]
         end.
  destruct (Shamir.CombineShares _ _); [|reflexivity].
  match goal with
  | |- context [match ?s with Done _ => _ | Error _ => _ | Panic _ => _ end] =>
      destruct s as [d|e|m]; [|reflexivity|reflexivity]
  end.
  destruct (Decrypt _ _ _); [|reflexivity|reflexivity].
  destruct (negb _); reflexivity.
Qed.

Lemma TransferCapsuleOwnership_pending k ctx id from to kind message :
  pendingTransfers (snd (TransferCapsuleOwnership k ctx id from to kind message))
  = pendingTransfers k.
Proof.
  unfold TransferCapsuleOwnership. destruct (GetCapsule k id); reflexivity.
Qed.

Lemma BatchTransfer_loop_pending ctx owner transfers : forall k done failed,
  pendingTransfers (snd (BatchTransfer_loop k ctx owner transfers done failed))
  = pendingTransfers k.
Proof.
  induction transfers as [|t transfers IH]; intros k done failed;
    cbn [BatchTransfer_loop]; [reflexivity|].
  cbn zeta. destruct (GetCapsule k (ct_CapsuleID t)) as [c|e|m]; try apply IH.
  destruct (negb (bool_decide (Owner c = owner))); [apply IH|].
  destruct (negb (bool_decide (Status c = _))); [apply IH|].
  pose proof (TransferCapsuleOwnership_pending k ctx (ct_CapsuleID t) owner
                (ct_NewOwner t) "batch" (ct_Message t)) as E.
  destruct (TransferCapsuleOwnership _ _ _ _ _ _ _) as [[u|e|m] k1];
    cbn [snd] in E; rewrite IH; exact E.
Qed.

(** No handler and no hook adds or removes a pending transfer. *)
Lemma module_step_pending host k k' :
  module_step host k k' -> dom (pendingTransfers k') = dom (pendingTransfers k).
Proof.
  intros [] .
  - now rewrite CreateCapsule_pending.
  - now rewrite OpenCapsule_pending.
  - unfold MsgServer_UpdateActivity, UpdateLastActivity.
    destruct (GetCapsule _ _); try reflexivity.
    destruct (negb _); [reflexivity|]. destruct (negb _); reflexivity.
  - unfold CancelCapsule. destruct (GetCapsule _ _); try reflexivity.
    destruct (negb _); [reflexivity|]. destruct (negb _); reflexivity.
  - unfold TransferCapsule. destruct (GetCapsule _ _); try reflexivity.
    destruct (negb _); [reflexivity|]. destruct (negb _); reflexivity.
  - unfold BatchTransferCapsules.
    pose proof (BatchTransfer_loop_pending ctx (mbt_CurrentOwner msg)
                  (mbt_Transfers msg) k [] []) as E.
    destruct (BatchTransfer_loop _ _ _ _ _ _) as [[done failed] k1]. cbn [snd] in E.
    destruct (_ && _); cbn [snd pendingTransfers EmitEvent]; now rewrite E.
  - unfold ApproveTransfer, GetPendingTransfer.
    destruct (pendingTransfers k !! msg_TransferID msg) as [pt|] eqn:Hpt; [|reflexivity].
    assert (Hdom : forall k1 pt',
               pendingTransfers k1 = pendingTransfers k ->
               dom (pendingTransfers (SetPendingTransfer k1 (msg_TransferID msg) pt'))
               = dom (pendingTransfers k)).
    { intros k1 pt' E. unfold SetPendingTransfer.
      cbn [pendingTransfers set_pendingTransfers]. rewrite E.
      apply dom_insert_lookup_L. eauto. }
    destruct (After _ _); [now apply Hdom|].
    destruct (negb _); [reflexivity|].
    destruct (msg_Approved msg).
    + pose proof (TransferCapsuleOwnership_pending k ctx (msg_CapsuleID msg)
                    (pt_FromOwner (set_pt_Status pt "approved"))
                    (pt_ToOwner (set_pt_Status pt "approved")) "approved"
                    (pt_Message (set_pt_Status pt "approved"))) as E.
      destruct (TransferCapsuleOwnership _ _ _ _ _ _ _) as [[u|e|m] k1];
        cbn [snd] in E |- *; [|now rewrite E|now rewrite E].
      cbn [pendingTransfers EmitEvent]. now apply Hdom.
    + cbn [snd pendingTransfers EmitEvent]. now apply Hdom.
  - unfold EmergencyDeleteContract. destruct (GetCapsule _ _); try reflexivity.
    repeat match goal with
           | |- context [if ?b then _ else _] => destruct b; [reflexivity|]
           end.
    reflexivity.
  - unfold BeginBlocker, processExpiredCapsules. cbn zeta. now rewrite walk_pending.
Qed.

(** X28. No handler of the message server and no block hook creates a
    pending transfer: the identifiers of the pending transfers are the same
    after any sequence of them. From a store without pending transfers,
    [ApproveTransfer] therefore always fails with "pending transfer not
    found" and changes nothing. *)
Theorem pending_transfers_never_created (host : Host) (k0 k : Keeper) :
  rtc (module_step host) k0 k ->
  dom (pendingTransfers k) = dom (pendingTransfers k0) /\
  (pendingTransfers k0 = ∅ ->
   forall ctx msg,
     ApproveTransfer k ctx msg = (Error (ErrWrapped "pending transfer not found"), k)).
Proof.
  intros H.
  assert (Hdom : dom (pendingTransfers k) = dom (pendingTransfers k0)).
  { induction H as [|k1 k2 k3 Hstep _ IH]; [reflexivity|].
    rewrite IH. now apply module_step_pending with host. }
  split; [exact Hdom|].
  intros Hempty ctx msg. unfold ApproveTransfer, GetPendingTransfer.
  rewrite Hempty, dom_empty_L in Hdom. apply dom_empty_inv_L in Hdom.
  now rewrite Hdom, lookup_empty.
Qed.

Lemma pending_transfers_never_created_witness :
  let k := BeginBlocker Scenario.created {| BlockTime := 2000; BlockHeight := 11 |} in
  dom (pendingTransfers k) = dom (pendingTransfers Toy.empty_keeper) /\
  (pendingTransfers Toy.empty_keeper = ∅ ->
   forall ctx msg,
     ApproveTransfer k ctx msg = (Error (ErrWrapped "pending transfer not found"), k)).
Proof.
  intros k.
  apply (pending_transfers_never_created Toy.host Toy.empty_keeper k).
  eapply rtc_l.
  - apply (step_CreateCapsule Toy.host Toy.empty_keeper Scenario.create_ctx
             Scenario.created_at Scenario.tape "alice" "bob" Scenario.hello
             CapsuleType_TIME_LOCK 2 3 (Some Scenario.unlock_time) "" ∅).
  - apply rtc_once.
    exact (step_BeginBlocker Toy.host Scenario.created
             {| BlockTime := 2000; BlockHeight := 11 |}).
Defined.

(** ** What fewer than the threshold shares reveal *)

Section MaskingTheory.

Variable p : Z.

Hypothesis Hp : Z.prime p.

Add Field Fp_masking : (Zmod.field_theory p Hp).

Local Abbreviation pe := (Lagrange.pe p).

Local Abbreviation padd := (Masking.padd p).

Local Abbreviation plin := (Masking.plin p).

Local Abbreviation mask := (Masking.mask p).

Local Open Scope Zmod_scope.

Lemma pe_padd a : forall b x, pe (padd a b) x = pe a x + pe b x.
Proof.
  induction a as [|c a IH]; intros b x; cbn [Masking.padd Lagrange.pe]; [ring|].
  destruct b as [|d b]; cbn [Lagrange.pe]; [ring|]. rewrite IH. ring.
Qed.

Lemma length_padd a : forall b, length (padd a b) = Nat.max (length a) (length b).
Proof.
  induction a as [|c a IH]; intros b; cbn [Masking.padd length]; [reflexivity|].
  destruct b as [|d b]; cbn [length]; [reflexivity|]. now rewrite IH.
Qed.

Lemma pe_scale b cs x : pe (map (fun c => - b * c) cs) x = - b * pe cs x.
Proof.
  induction cs as [|c cs IH]; cbn [map Lagrange.pe]; [ring|]. rewrite IH. ring.
Qed.

Lemma pe_plin b cs x : pe (plin b cs) x = (1 - b * x) * pe cs x.
Proof.
  unfold Masking.plin. rewrite pe_padd. cbn [Lagrange.pe]. rewrite pe_scale. ring.
Qed.

Lemma length_plin b cs : length (plin b cs) = S (length cs).
Proof.
  unfold Masking.plin. rewrite length_padd. cbn [length]. rewrite length_map. lia.
Qed.

Lemma length_mask d nodes : length (mask d nodes) = S (length nodes).
Proof.
  induction nodes as [|a nodes IH]; cbn [Masking.mask fold_right length]; [reflexivity|].
  fold (mask d nodes). now rewrite length_plin, IH.
Qed.

Lemma pe_mask_zero d nodes : pe (mask d nodes) 0 = d.
Proof.
  induction nodes as [|a nodes IH]; cbn [Masking.mask fold_right Lagrange.pe]; [ring|].
  fold (mask d nodes). rewrite pe_plin, IH. ring.
Qed.

Lemma pe_mask_node d nodes a :
  In a nodes -> (forall b, In b nodes -> b <> 0) -> pe (mask d nodes) a = 0.
Proof.
  induction nodes as [|b nodes IH]; intros Hin Hnz; [contradiction|].
  cbn [Masking.mask fold_right]. fold (mask d nodes). rewrite pe_plin.
  destruct Hin as [->|Hin].
  - rewrite Zmod.mul_inv_same_l_prime by (auto; apply Hnz; now left). ring.
  - rewrite IH; [ring|assumption|]. intros c Hc. apply Hnz. now right.
Qed.

Lemma pe_map_of_Z cs x :
  pe (map (Zmod.of_Z p) cs) (Zmod.of_Z p x) = Zmod.of_Z p (poly_eval cs x).
Proof.
  induction cs as [|c cs IH]; cbn [map Lagrange.pe poly_eval]; [now rewrite Zmod.of_Z_0|].
  now rewrite IH, Zmod.of_Z_add, Zmod.of_Z_mul.
Qed.

(** For fewer nodes than coefficients, the random coefficients can be
    chosen anew so that another constant term yields the same values at
    the nodes. *)
Lemma masked_coefficients (s s' : Z) (cs xs : list Z) :
  (forall x, In x xs -> x mod p <> 0)%Z ->
  (length xs <= length cs)%nat ->
  exists cs',
    length cs' = length cs /\
    Forall (fun c => 0 <= c < p)%Z cs' /\
    forall x, In x xs ->
      (poly_eval (s' :: cs') x mod p = poly_eval (s :: cs) x mod p)%Z.
Proof.
  intros Hnz Hlen.
  set (d := Zmod.of_Z p s' - Zmod.of_Z p s).
  set (nodes := map (Zmod.of_Z p) xs).
  set (P := padd (map (Zmod.of_Z p) (s :: cs)) (mask d nodes)).
  assert (HlenP : length P = S (length cs)).
  { unfold P. rewrite length_padd, length_mask. unfold nodes.
    rewrite !length_map. cbn [length]. lia. }
  assert (Hnodes : forall b, In b nodes -> b <> 0).
  { intros b Hb. apply in_map_iff in Hb as (x & <- & Hx).
    apply Zmod.of_Z_nz. now apply Hnz. }
  assert (HP0 : pe P 0 = Zmod.of_Z p s').
  { unfold P. rewrite pe_padd, pe_mask_zero. cbn [map Lagrange.pe]. unfold d. ring. }
  destruct P as [|c0 rest] eqn:EP; [discriminate|].
  assert (Hc0 : c0 = Zmod.of_Z p s').
  { rewrite <- HP0. cbn [Lagrange.pe]. ring. }
  exists (map Zmod.to_Z rest). split; [|split].
  - rewrite length_map. cbn [length] in HlenP. lia.
  - apply Forall_forall. intros c Hc. apply list_elem_of_fmap in Hc as (y & -> & _).
    apply Zmod.unsigned_pos_bound. pose proof (Z.prime_ge_2 _ Hp). lia.
  - intros x Hx. apply Zmod.of_Z_inj.
    rewrite <- !pe_map_of_Z. cbn [map]. rewrite map_map.
    rewrite (map_ext (fun y => Zmod.of_Z p (Zmod.to_Z y)) (fun y => y))
      by (intros y; apply Zmod.of_Z_to_Z).
    rewrite map_id, <- Hc0.
    change (pe (c0 :: rest) (Zmod.of_Z p x)
            = pe (map (Zmod.of_Z p) (s :: cs)) (Zmod.of_Z p x)).
    rewrite <- EP. unfold P. rewrite pe_padd, pe_mask_node; [ring| |exact Hnodes].
    unfold nodes. now apply in_map.
Qed.

End MaskingTheory.

Lemma draw_coefficients_tape sss (cs : list Z) :
  Forall (fun c => 0 <= c < Shamir.prime sss) cs ->
  Shamir.draw_coefficients sss (length cs) cs = Some (cs, []).
Proof.
  induction 1 as [|c cs Hc _ IH]; cbn [length Shamir.draw_coefficients rand_Int];
    [reflexivity|].
  rewrite IH, Z.mod_small by assumption. reflexivity.
Qed.

Lemma make_shares_lookup sss cs N (i : nat) :
  Shamir.make_shares sss cs N !! i
  = if bool_decide (Z.of_nat i < N)
    then Some {| Shamir.X := Z.of_nat i + 1;
                 Shamir.Y := Shamir.evaluatePolynomial sss cs (Z.of_nat i + 1) |}
    else None.
Proof.
  unfold Shamir.make_shares.
  rewrite list_lookup_fmap.
  case_bool_decide as Hi.
  - rewrite lookup_seqZ_lt by lia. cbn. repeat f_equal; lia.
  - rewrite lookup_seqZ_ge by lia. reflexivity.
Qed.

(** X29. Fewer than [T] shares of a split say nothing about the secret:
    for every other admissible secret there is an entropy tape with which
    [SplitSecret] returns the very same shares at the positions seen. *)
Theorem SplitSecret_hides_secret (r r' : Reader) (secret secret' : list byte)
        (T N : Z) (shares : list Shamir.Share) (seen : list nat) :
  N < 2 ^ 63 ->
  Shamir.SplitSecret Shamir.NewShamirSecretSharing r secret T N = (Shamir.Ok shares, r') ->
  SetBytes secret' < Shamir.prime Shamir.NewShamirSecretSharing ->
  Z.of_nat (length seen) < T ->
  exists r2 shares2 r2',
    Shamir.SplitSecret Shamir.NewShamirSecretSharing r2 secret' T N
    = (Shamir.Ok shares2, r2') /\
    forall i, i ∈ seen -> shares2 !! i = shares !! i.
Proof.
  intros HN H Hs' Hseen.
  set (sss := Shamir.NewShamirSecretSharing) in *.
  pose proof NewShamir_prime_is_prime as Hp. fold sss in Hp.
  pose proof (int_below_prime N HN) as HNp. fold sss in HNp.
  apply SplitSecret_Ok in H as (HT & Hs & cs & Hcs & ->).
  set (visible := filter (fun i : nat => Z.of_nat i < N) seen).
  destruct (masked_coefficients (Shamir.prime sss) Hp (SetBytes secret)
              (SetBytes secret') cs (map (fun i : nat => Z.of_nat i + 1) visible))
    as (cs' & Hlen & Hrange & Hsame).
  { intros x Hx. apply in_map_iff in Hx as (i & <- & Hi).
    apply list_elem_of_In, list_elem_of_filter in Hi as [Hi _].
    rewrite Z.mod_small by lia. lia. }
  { rewrite length_map. pose proof (length_filter (fun i : nat => Z.of_nat i < N) seen).
    fold visible in H. lia. }
  exists cs', (Shamir.make_shares sss (SetBytes secret' :: cs') N), [].
  split.
  - unfold Shamir.SplitSecret.
    destruct (Z.gtb_spec T N); [lia|].
    destruct (Z.ltb_spec T 1); [lia|].
    destruct (Z.ltb_spec N 1); [lia|].
    destruct (Z.geb_spec (SetBytes secret') (Shamir.prime sss)); [lia|].
    rewrite <- Hcs, <- Hlen. now rewrite draw_coefficients_tape.
  - intros i Hi. rewrite !make_shares_lookup. case_bool_decide as HiN; [|reflexivity].
    do 2 f_equal.
    rewrite !evaluatePolynomial_spec by (pose proof (Z.prime_ge_2 _ Hp); lia).
    apply Hsame.
    apply (in_map (fun i : nat => Z.of_nat i + 1)%Z visible i).
    apply list_elem_of_In, list_elem_of_filter. auto.
Qed.

Lemma SplitSecret_hides_secret_witness :
  exists r2 shares2 r2',
    Shamir.SplitSecret Shamir.NewShamirSecretSharing r2 [x63] 2 3
    = (Shamir.Ok shares2, r2') /\
    forall i, i ∈ [1%nat] -> shares2 !! i = split_sample !! i.
Proof.
  apply (SplitSecret_hides_secret [7] [] [x2a] [x63] 2 3 split_sample [1%nat]).
  - reflexivity.
  - vm_compute. reflexivity.
  - vm_compute. reflexivity.
  - reflexivity.
Defined.

(** ** The expiry time *)

Lemma expiry_free_same k k' :
  capsules k' = capsules k -> expiry_free k -> expiry_free k'.
Proof. unfold expiry_free. intros ->. auto. Qed.

Lemma expiry_free_insert k k' id c' :
  capsules k' = <[id := c']> (capsules k) -> ExpiresAt c' = None ->
  expiry_free k -> expiry_free k'.
Proof.
  unfold expiry_free. intros -> Hc' H j d Hd.
  apply lookup_insert_Some in Hd as [[<- <-]|[_ Hd]]; eauto.
Qed.

Lemma GetCapsule_Done k id c : GetCapsule k id = Done c -> capsules k !! id = Some c.
Proof.
  unfold GetCapsule. destruct (capsules k !! id); [|discriminate]. now intros [= ->].
Qed.

Lemma CreateCapsule_expiry_free host k ctx now r owner recipient data capsuleType
      threshold totalShares unlockTime conditionContract metadata :
  expiry_free k ->
  expiry_free
    (snd (fst (CreateCapsule host k ctx now r owner recipient data capsuleType
                 threshold totalShares unlockTime conditionContract metadata))).
Proof.
  intros Hk.
  destruct (CreateCapsule host k ctx now r owner recipient data capsuleType
              threshold totalShares unlockTime conditionContract metadata)
    as [[[c|e|m] k'] r'] eqn:E; cbn [fst snd].
  - apply CreateCapsule_Done_inv in E
      as (key & nonce & shares & r1 & r2 & _ & _ & _ & _ & _ & Ec & _ & ->).
    destruct (after_create_frame k ctx c shares) as (E1 & _).
    apply (expiry_free_insert k _ (ID c) c E1); [now subst c|exact Hk].
  - revert E. unfold CreateCapsule.
    destruct (negb (StringToBytes_ok host owner)); [now intros [= _ <- _]|].
    destruct (negb (bool_decide (recipient = "")) && _); [now intros [= _ <- _]|].
    destruct (maxDataSize <? length data)%nat; [now intros [= _ <- _]|].
    destruct (GenerateKey r) as [[key r1]|]; [|now intros [= _ <- _]].
    destruct (Encrypt host r1 data key) as [[enc|e1|m] r2];
      [|now intros [= _ <- _]|discriminate].
    match goal with
    | |- context [match ?s with Done _ => _ | Error _ => _ | Panic _ => _ end] =>
        destruct s as [[h b]|e1|m]; [|now intros [= _ <- _]|discriminate]
    end.
    destruct (Shamir.SplitSecret _ r2 key _ _) as [[shares|e1] r3];
      [|now intros [= _ <- _]].
    unfold capsuleCounter_Next.
    match goal with
    | |- context [Validate ?a ?n ?cap] => destruct (Validate a n cap); [|discriminate]
    end.
    intros [= _ <- _]. exact Hk.
  - revert E. unfold CreateCapsule.
    destruct (negb (StringToBytes_ok host owner)); [discriminate|].
    destruct (negb (bool_decide (recipient = "")) && _); [discriminate|].
    destruct (maxDataSize <? length data)%nat; [discriminate|].
    destruct (GenerateKey r) as [[key r1]|]; [|discriminate].
    destruct (Encrypt host r1 data key) as [[enc|e1|m1] r2];
      [|discriminate|now intros [= _ <- _]].
    match goal with
    | |- context [match ?s with Done _ => _ | Error _ => _ | Panic _ => _ end] =>
        destruct s as [[h b]|e1|m1]; [|discriminate|now intros [= _ <- _]]
    end.
    destruct (Shamir.SplitSecret _ r2 key _ _) as [[shares|e1] r3]; [|discriminate].
    unfold capsuleCounter_Next.
    match goal with
    | |- context [Validate ?a ?n ?cap] => destruct (Validate a n cap); discriminate
    end.
Qed.

Lemma OpenCapsule_expiry_free host k ctx id accessor shares :
  expiry_free k -> expiry_free (snd (OpenCapsule host k ctx id accessor shares)).
Proof.
  intros Hk. unfold OpenCapsule.
  destruct (GetCapsule k id) as [c|e|m] eqn:Hc; [|exact Hk|exact Hk].
  apply GetCapsule_Done in Hc.
  repeat match goal with
         | |- context [if ?b then _ else _] => destruct b; [exact Hk|]
         end.
  destruct (Shamir.CombineShares _ _); [|exact Hk].
  match goal with
  | |- context [match ?s with Done _ => _ | Error _ => _ | Panic _ => _ end] =>
      destruct s as [d|e|m]; [|exact Hk|exact Hk]
  end.
  destruct (Decrypt _ _ _); [|exact Hk|exact Hk].
  destruct (negb _); [exact Hk|]. cbn [snd].
  eapply expiry_free_insert; [reflexivity| |exact Hk]. exact (Hk _ _ Hc).
Qed.

Lemma TransferCapsuleOwnership_expiry_free k ctx id from to kind message :
  expiry_free k ->
  expiry_free (snd (TransferCapsuleOwnership k ctx id from to kind message)).
Proof.
  intros Hk. unfold TransferCapsuleOwnership.
  destruct (GetCapsule k id) as [c|e|m] eqn:Hc; [|exact Hk|exact Hk].
  apply GetCapsule_Done in Hc. cbn [snd].
  eapply expiry_free_insert; [reflexivity| |exact Hk]. exact (Hk _ _ Hc).
Qed.

Lemma BatchTransfer_loop_expiry_free ctx owner transfers : forall k done failed,
  expiry_free k ->
  expiry_free (snd (BatchTransfer_loop k ctx owner transfers done failed)).
Proof.
  induction transfers as [|t transfers IH]; intros k done failed Hk;
    cbn [BatchTransfer_loop]; [exact Hk|].
  cbn zeta. destruct (GetCapsule k (ct_CapsuleID t)) as [c|e|m]; try now apply IH.
  destruct (negb (bool_decide (Owner c = owner))); [now apply IH|].
  destruct (negb (bool_decide (Status c = _))); [now apply IH|].
  pose proof (TransferCapsuleOwnership_expiry_free k ctx (ct_CapsuleID t) owner
                (ct_NewOwner t) "batch" (ct_Message t) Hk) as E.
  destruct (TransferCapsuleOwnership _ _ _ _ _ _ _) as [[u|e|m] k1];
    cbn [snd] in E; now apply IH.
Qed.

(** No handler and no hook gives a capsule an expiry time. *)
Lemma module_step_expiry_free host k k' :
  module_step host k k' -> expiry_free k -> expiry_free k'.
Proof.
  intros [] Hk.
  - now apply CreateCapsule_expiry_free.
  - now apply OpenCapsule_expiry_free.
  - unfold MsgServer_UpdateActivity, UpdateLastActivity.
    destruct (GetCapsule _ _) as [c|e|m] eqn:Hc; try exact Hk.
    apply GetCapsule_Done in Hc.
    destruct (negb _); [exact Hk|]. destruct (negb _); [exact Hk|]. cbn [snd].
    eapply expiry_free_insert; [reflexivity| |exact Hk].
    unfold UpdateActivity. destruct (bool_decide _); exact (Hk _ _ Hc).
  - unfold CancelCapsule. destruct (GetCapsule _ _) as [c|e|m] eqn:Hc; try exact Hk.
    apply GetCapsule_Done in Hc.
    destruct (negb _); [exact Hk|]. destruct (negb _); [exact Hk|]. cbn [snd].
    eapply expiry_free_insert; [reflexivity| |exact Hk]. exact (Hk _ _ Hc).
  - unfold TransferCapsule. destruct (GetCapsule _ _) as [c|e|m] eqn:Hc; try exact Hk.
    apply GetCapsule_Done in Hc.
    destruct (negb _); [exact Hk|]. destruct (negb _); [exact Hk|]. cbn [snd].
    eapply expiry_free_insert; [reflexivity| |exact Hk]. exact (Hk _ _ Hc).
  - unfold BatchTransferCapsules.
    pose proof (BatchTransfer_loop_expiry_free ctx (mbt_CurrentOwner msg)
                  (mbt_Transfers msg) k [] [] Hk) as E.
    destruct (BatchTransfer_loop _ _ _ _ _ _) as [[done failed] k1]. cbn [snd] in E.
    destruct (_ && _); exact E.
  - unfold ApproveTransfer.
    destruct (GetPendingTransfer k (msg_TransferID msg)) as [pt|]; [|exact Hk].
    destruct (After _ _); [exact Hk|].
    destruct (negb _); [exact Hk|].
    destruct (msg_Approved msg); [|exact Hk].
    pose proof (TransferCapsuleOwnership_expiry_free k ctx (msg_CapsuleID msg)
                  (pt_FromOwner (set_pt_Status pt "approved"))
                  (pt_ToOwner (set_pt_Status pt "approved")) "approved"
                  (pt_Message (set_pt_Status pt "approved")) Hk) as E.
    destruct (TransferCapsuleOwnership _ _ _ _ _ _ _) as [[u|e|m] k1];
      cbn [snd] in E |- *; exact E.
  - unfold EmergencyDeleteContract.
    destruct (GetCapsule _ _) as [c|e|m] eqn:Hc; try exact Hk.
    apply GetCapsule_Done in Hc.
    repeat match goal with
           | |- context [if ?b then _ else _] => destruct b; [exact Hk|]
           end.
    cbn [fst snd]. eapply expiry_free_insert; [reflexivity| |exact Hk].
    exact (Hk _ _ Hc).
  - intros id c Hc. rewrite BeginBlocker_lookup in Hc.
    destruct (capsules k !! id) as [d|] eqn:Hd; [|discriminate].
    inversion Hc; subst c. unfold tick_capsule.
    destruct (_ && _ && _); exact (Hk _ _ Hd).
Qed.

Lemma walk_expiry_free t keys : forall k,
  expiry_free k ->
  fold_left (fun k key => match capsules k !! key with
                          | Some capsule => expire_capsule t k key capsule
                          | None => k
                          end) keys k = k.
Proof.
  induction keys as [|key keys IH]; intros k Hk; cbn [fold_left]; [reflexivity|].
  assert (E : match capsules k !! key with
              | Some capsule => expire_capsule t k key capsule
              | None => k
              end = k).
  { destruct (capsules k !! key) as [c|] eqn:Hc; [|reflexivity].
    unfold expire_capsule. rewrite (Hk _ _ Hc).
    destruct (bool_decide _); [|reflexivity]. destruct (CapsuleType_ c); reflexivity. }
  rewrite E. now apply IH.
Qed.

(** X30. No handler of the message server ever sets the expiry time of a
    capsule, and the block hook expires only capsules that have one. From
    a store in which no capsule has an expiry time, the block hook
    therefore never changes anything, after any sequence of handlers. *)
Theorem BeginBlocker_never_expires (host : Host) (k0 k : Keeper) (ctx : Ctx) :
  expiry_free k0 ->
  rtc (module_step host) k0 k ->
  BeginBlocker k ctx = k.
Proof.
  intros H0 H.
  assert (Hk : expiry_free k).
  { induction H as [|k1 k2 k3 Hstep _ IH]; [exact H0|].
    apply IH. now apply module_step_expiry_free with host k1. }
  unfold BeginBlocker, processExpiredCapsules. cbn zeta. now apply walk_expiry_free.
Qed.

Lemma BeginBlocker_never_expires_witness :
  BeginBlocker Scenario.created {| BlockTime := 10 ^ 12; BlockHeight := 11 |}
  = Scenario.created.
Proof.
  apply (BeginBlocker_never_expires Toy.host Toy.empty_keeper Scenario.created).
  - intros id c Hc. unfold Toy.empty_keeper in Hc. cbn [capsules] in Hc.
    rewrite lookup_empty in Hc. discriminate.
  - apply rtc_once.
    exact (step_CreateCapsule Toy.host Toy.empty_keeper Scenario.create_ctx
             Scenario.created_at Scenario.tape "alice" "bob" Scenario.hello
             CapsuleType_TIME_LOCK 2 3 (Some Scenario.unlock_time) "" ∅).
Defined.
